(** * Endless runner: collision kernel, level generator and per-tick
    kinematics of [endless_runner.js], embedded and verified, with its
    upgrade shop and the generator of its star field, and [die] and
    [oneWayProcess] of the Phaser build ([main.js]).

    Numbers.  A JavaScript number is a double, and every double is a
    rational: numbers are modelled in [Q].  [Math.floor] is [Qfloor],
    [Math.abs] is [Qabs], [Math.max]/[Math.min] are [Qmax]/[Qmin].
    The rounding of an arithmetic result to the nearest double is the
    function [rnd] of the host ([HostMath]); it is applied where the
    program floors or compares a rounded result and a whole number
    depends on it: the float position that [collideVerticalSweep]
    accumulates ([collideVerticalSweep_fl]), the payout product of
    [awardMoneyAndSave], and the pixel counts that [spawnChunk] derives
    from the speed.  [fl64] is the rounding of binary64 (to nearest,
    ties to even, normal range) and computes what the program computes.
    Everywhere else the four operations are exact: whole numbers below
    [2^53] are added and subtracted without error, and the continuous
    quantities (speed, velocity, camera, score) are followed up to
    rounding.  [collideVerticalSweep] itself is kept in exact
    arithmetic next to [collideVerticalSweep_fl], for [playUpdate] and
    for the statements that do not depend on the last place of the
    float position; the two agree when nothing is rounded
    ([collideVerticalSweep_fl_exact]).  Equalities between computed numbers are therefore stated
    with [==] unless the code copies the very same value.  NaN and the
    infinities are outside the model. *)

From Stdlib Require Import QArith Qround Qabs Qminmax Qpower ZArith List Bool
  Lia Lqa.
Import ListNotations.
Open Scope Q_scope.

(* ================================================================== *)
(** * Definitions *)
(* ================================================================== *)

(** ** Numeric helpers: the comparison operators and [Math.floor] *)

Definition ltb (a b : Q) : bool :=
  match a ?= b with Lt => true | _ => false end.

Definition leb (a b : Q) : bool :=
  match a ?= b with Gt => false | _ => true end.

Infix "<?" := ltb (at level 70, no associativity) : Q_scope.
Infix "<=?" := leb (at level 70, no associativity) : Q_scope.

(** [Math.floor], returning a number again. *)
Definition floor (v : Q) : Q := inject_Z (Qfloor v).

(** [const clamp = (v, a, b) => (v < a ? a : v > b ? b : v)] *)
Definition clamp (v a b : Q) : Q :=
  if v <? a then a else if b <? v then b else v.

(** ** Rectangles

    [rect(x, y, w, h)] builds the object [{x, y, w, h}]; the fields are
    called [rx], [ry], [rw], [rh] here. *)

Record Rect : Set := rect { rx : Q; ry : Q; rw : Q; rh : Q }.

(** The assignment [r.y = v]. *)
Definition set_ry (r : Rect) (v : Q) : Rect := rect (rx r) v (rw r) (rh r).

(** The assignment [r.x = v]. *)
Definition set_rx (r : Rect) (v : Q) : Rect := rect v (ry r) (rw r) (rh r).

Definition centerx (r : Rect) : Q := rx r + rw r / 2.
Definition centery (r : Rect) : Q := ry r + rh r / 2.

(** [colliderect(a, b)]: strict overlap on both axes. *)
Definition colliderect (a b : Rect) : bool :=
  (rx a <? rx b + rw b) && (rx b <? rx a + rw a) &&
  (ry a <? ry b + rh b) && (ry b <? ry a + rh a).

(** The two horizontal conjuncts of [colliderect]. *)
Definition overlaps_x (a b : Rect) : Prop :=
  rx a < rx b + rw b /\ rx b < rx a + rw a.

(** ** Vertical sweep *)

Record SweepResult : Set :=
  mkSweep { pyFloat : Q; landed : bool; bumped : bool }.

(** The test applied to each platform after a downward sub-step. *)
Definition lands_on (player : Rect) (prevBottom : Q) (p : Rect) : bool :=
  colliderect player p && (prevBottom <=? ry p).

(** The test applied to each platform after an upward sub-step. *)
Definition bumps_on (player : Rect) (prevTop : Q) (p : Rect) : bool :=
  colliderect player p && (ry p + rh p <=? prevTop).

(** The [for (let s = 0; s < steps; s++)] loop of [collideVerticalSweep],
    with [n] iterations left.  The player rectangle is mutated by the
    source, so it is threaded through and returned next to the result
    object.  The inner [for (const p of platforms)] returns at the first
    platform that passes the test, which is [find].  The arithmetic is
    exact here; [sweep_loop_fl] is the same loop with every operation
    rounded as the host rounds it. *)
Fixpoint sweep_loop (n : nat) (step : Q) (player : Rect) (pyF : Q)
    (platforms : list Rect) : Rect * SweepResult :=
  match n with
  | O => (player, mkSweep pyF false false)
  | S n' =>
      let prevTop := ry player in
      let prevBottom := ry player + rh player in
      let pyF := pyF + step in
      let player := set_ry player (floor pyF) in
      if 0 <? step then
        match find (lands_on player prevBottom) platforms with
        | Some p =>
            let player := set_ry player (ry p - rh player) in
            (player, mkSweep (ry player) true false)
        | None => sweep_loop n' step player pyF platforms
        end
      else
        match find (bumps_on player prevTop) platforms with
        | Some p =>
            let player := set_ry player (ry p + rh p) in
            (player, mkSweep (ry player) false true)
        | None => sweep_loop n' step player pyF platforms
        end
  end.

(** [steps = Math.floor(Math.abs(dy) / 6) + 1] *)
Definition sweep_steps (dy : Q) : Z := (Qfloor (Qabs dy / 6) + 1)%Z.

Definition collideVerticalSweep (player : Rect) (pyF dy : Q)
    (platforms : list Rect) : Rect * SweepResult :=
  if Qeq_bool dy 0 then (player, mkSweep pyF false false)
  else
    let steps := sweep_steps dy in
    let step := dy / inject_Z steps in
    sweep_loop (Z.to_nat steps) step player pyF platforms.

(** The rectangle's [y] is the floor of the float position: the relation
    between [RUN.player.y] and [RUN.py] at the call of
    [collideVerticalSweep] in [playUpdate]. *)
Definition synced (player : Rect) (pyF : Q) : Prop := ry player = floor pyF.


(** A whole number, written as one: what [Math.floor] returns and what
    the generator stores in rectangles. *)
Definition whole (v : Q) : Prop := exists z : Z, v = inject_Z z.

(** Platforms with whole top and height. *)
Definition whole_rect (p : Rect) : Prop := whole (ry p) /\ whole (rh p).

(** ** Constants *)

Definition GAME_W : Q := 960.
Definition GAME_H : Q := 540.
Definition WIDTH : Q := GAME_W.
Definition HEIGHT : Q := GAME_H.

Definition GROUND_H : Q := 80.
Definition GROUND_Y : Q := HEIGHT - GROUND_H.

Definition JUMP_CUT_MULT : Q := 0.55.

Definition BASE_SPEED : Q := 320.
Definition MAX_SPEED : Q := 820.
Definition SPEED_RAMP : Q := 7.

Definition GRAVITY : Q := 2100.
Definition BASE_JUMP_V : Q := 880.
Definition MAX_FALL_V : Q := 1500.

Definition BASE_COYOTE : Q := 0.10.
Definition BASE_JUMP_BUF : Q := 0.12.

Definition MIN_GAP : Q := 150.
Definition MAX_GAP : Q := 340.

Definition PLATFORM_MIN_W : Q := 160.
Definition PLATFORM_MAX_W : Q := 380.
Definition PLATFORM_MIN_H : Q := 18.
Definition PLATFORM_MAX_H : Q := 28.

Definition HEIGHT_LEVELS : list Q := [0; 70; 120; 170].

Definition MIN_REACTION_T : Q := 0.60.
Definition MAX_REACTION_T : Q := 1.00.
Definition MIN_HAZARD_SEP_T : Q := 0.70.

Definition HAZARD_CHANCE : Q := 0.52.
Definition COIN_CHANCE : Q := 0.62.

(** [UPGRADES[key].max], the same for the four upgrades. *)
Definition UPGRADE_MAX : Q := 6.

(** ** The host's mathematics

    [Math.hypot] and [Math.sin] have irrational values; the program is
    verified for every pair of functions in their place.  [sin_pi t]
    stands for [Math.sin(t * Math.PI)].  [rnd v] is the double that the
    host returns for an operation whose exact result is [v]. *)

Class HostMath : Set := {
  hypot : Q -> Q -> Q;
  sin_pi : Q -> Q;
  rnd : Q -> Q
}.

(** [a + b], [a - b], [a * b] and [a / b] as the host computes them. *)
Definition fadd `{HostMath} (a b : Q) : Q := rnd (a + b).
Definition fsub `{HostMath} (a b : Q) : Q := rnd (a - b).
Definition fmul `{HostMath} (a b : Q) : Q := rnd (a * b).
Definition fdiv `{HostMath} (a b : Q) : Q := rnd (a / b).

(** A decimal literal of the program denotes the double nearest to
    it. *)
Definition lit `{HostMath} (v : Q) : Q := rnd v.

(** What the proofs about rounded results use of the rounding: it is
    monotone, leaves whole numbers up to [2^53] and doubles as they
    are, and does not round a positive number to zero.  Rounding to
    nearest has the first three properties; the fourth excludes
    underflow. *)
Class Rounds `{HostMath} : Prop := {
  rnd_mono : forall x y : Q, x <= y -> rnd x <= rnd y;
  rnd_int : forall z : Z, (Z.abs z <= 2 ^ 53)%Z -> rnd (inject_Z z) == inject_Z z;
  rnd_idem : forall x : Q, rnd (rnd x) == rnd x;
  rnd_pos : forall x : Q, 0 < x -> 0 < rnd x
}.

(** ** Binary64

    [fl64 x] is [x] rounded to 53 significant bits, to nearest with
    ties to even: the double nearest to [x] when [x] is in the normal
    range of binary64. *)

Definition pow2 (e : Z) : Q := 2 ^ e.

(** The exponent [e] with [2^52 <= a / 2^e < 2^53], for [a > 0]. *)
Definition binade (a : Q) : Z :=
  let l := (Z.log2 (Qnum a) - Z.log2 (Zpos (Qden a)))%Z in
  match Qcompare (pow2 l) a with
  | Gt => (l - 53)%Z
  | _ => (l - 52)%Z
  end.

(** The nearest integer, the even one of two that are equally near. *)
Definition round_even (q : Q) : Z :=
  let f := Qfloor q in
  match Qcompare (q - inject_Z f) (1 # 2) with
  | Lt => f
  | Gt => (f + 1)%Z
  | Eq => if Z.even f then f else (f + 1)%Z
  end.

Definition fl64_pos (a : Q) : Q :=
  let e := binade a in inject_Z (round_even (a / pow2 e)) * pow2 e.

Definition fl64 (x : Q) : Q :=
  match Qcompare x 0 with
  | Eq => 0
  | Gt => fl64_pos x
  | Lt => - fl64_pos (- x)
  end.

(** ** Random numbers

    A value returned by [Math.random()]: a number of [0, 1).  Functions
    that call [Math.random()] take the values they draw as arguments, so
    each theorem about them holds for every outcome of the draws. *)

Record Draw : Set := mkDraw {
  dval :> Q;
  drange : 0 <= dval /\ dval < 1
}.

(** [const randi = (a, b) => a + Math.floor(Math.random() * (b - a + 1))] *)
Definition randi (a b : Q) (d : Draw) : Q := a + floor (d * (b - a + 1)).

(** ** Saved data *)

Record Upgrades : Set := mkUpgrades {
  up_jump : Q; up_coyote : Q; up_coin_mult : Q; up_magnet : Q
}.

Record Settings : Set := mkSettings {
  screenshake : bool; particles : bool; show_fps : bool;
  fullscreen : bool; sound : bool
}.

(** The save object, without the cosmetics it also stores. *)
Record Save : Set := mkSave {
  money : Q;
  best_score : Q;
  upgrades : Upgrades;
  settings : Settings
}.

Definition set_money (v : Q) (s : Save) : Save :=
   mkSave v (best_score s) (upgrades s) (settings s).
Definition set_best_score (v : Q) (s : Save) : Save :=
   mkSave (money s) v (upgrades s) (settings s).
Definition set_upgrades (v : Upgrades) (s : Save) : Save :=
   mkSave (money s) (best_score s) v (settings s).
Definition set_settings (v : Settings) (s : Save) : Save :=
   mkSave (money s) (best_score s) (upgrades s) v.

Definition defaultUpgrades : Upgrades := mkUpgrades 0 0 0 0.
Definition defaultSettings : Settings := mkSettings true true false false true.
Definition defaultSaveData : Save := mkSave 0 0 defaultUpgrades defaultSettings.

(** ** The run state

    The object built by [newRunState], field for field, except
    [particles]: particles are drawn and never read by the simulation. *)
Record Run : Set := mkRun {
  cam_x : Q;
  speed : Q;
  score : Q;
  score_f : Q;
  coins_run : Q;
  player : Rect;
  py : Q;
  vy : Q;
  on_ground : bool;
  coyote : Q;
  jump_buf : Q;
  jump_v : Q;
  coyote_t : Q;
  coin_mul : Q;
  magnet_px : Q;
  platforms : list Rect;
  hazards : list Rect;
  coins_list : list Rect;
  shake_t : Q;
  shake_mag : Q;
  next_spawn_x : Q;
  last_platform_top : Q;
  last_hazard_x : Q;
  jump_cut : bool;
  jump_time : Q
}.

Definition set_cam_x (v : Q) (r : Run) : Run :=
   mkRun v (speed r) (score r) (score_f r) (coins_run r) (player r) (py r)
    (vy r) (on_ground r) (coyote r) (jump_buf r) (jump_v r) (coyote_t r)
    (coin_mul r) (magnet_px r) (platforms r) (hazards r) (coins_list r)
    (shake_t r) (shake_mag r) (next_spawn_x r) (last_platform_top r)
    (last_hazard_x r) (jump_cut r) (jump_time r).
Definition set_speed (v : Q) (r : Run) : Run :=
   mkRun (cam_x r) v (score r) (score_f r) (coins_run r) (player r) (py r)
    (vy r) (on_ground r) (coyote r) (jump_buf r) (jump_v r) (coyote_t r)
    (coin_mul r) (magnet_px r) (platforms r) (hazards r) (coins_list r)
    (shake_t r) (shake_mag r) (next_spawn_x r) (last_platform_top r)
    (last_hazard_x r) (jump_cut r) (jump_time r).
Definition set_score (v : Q) (r : Run) : Run :=
   mkRun (cam_x r) (speed r) v (score_f r) (coins_run r) (player r) (py r)
    (vy r) (on_ground r) (coyote r) (jump_buf r) (jump_v r) (coyote_t r)
    (coin_mul r) (magnet_px r) (platforms r) (hazards r) (coins_list r)
    (shake_t r) (shake_mag r) (next_spawn_x r) (last_platform_top r)
    (last_hazard_x r) (jump_cut r) (jump_time r).
Definition set_score_f (v : Q) (r : Run) : Run :=
   mkRun (cam_x r) (speed r) (score r) v (coins_run r) (player r) (py r) (vy
    r) (on_ground r) (coyote r) (jump_buf r) (jump_v r) (coyote_t r)
    (coin_mul r) (magnet_px r) (platforms r) (hazards r) (coins_list r)
    (shake_t r) (shake_mag r) (next_spawn_x r) (last_platform_top r)
    (last_hazard_x r) (jump_cut r) (jump_time r).
Definition set_coins_run (v : Q) (r : Run) : Run :=
   mkRun (cam_x r) (speed r) (score r) (score_f r) v (player r) (py r) (vy
    r) (on_ground r) (coyote r) (jump_buf r) (jump_v r) (coyote_t r)
    (coin_mul r) (magnet_px r) (platforms r) (hazards r) (coins_list r)
    (shake_t r) (shake_mag r) (next_spawn_x r) (last_platform_top r)
    (last_hazard_x r) (jump_cut r) (jump_time r).
Definition set_player (v : Rect) (r : Run) : Run :=
   mkRun (cam_x r) (speed r) (score r) (score_f r) (coins_run r) v (py r)
    (vy r) (on_ground r) (coyote r) (jump_buf r) (jump_v r) (coyote_t r)
    (coin_mul r) (magnet_px r) (platforms r) (hazards r) (coins_list r)
    (shake_t r) (shake_mag r) (next_spawn_x r) (last_platform_top r)
    (last_hazard_x r) (jump_cut r) (jump_time r).
Definition set_py (v : Q) (r : Run) : Run :=
   mkRun (cam_x r) (speed r) (score r) (score_f r) (coins_run r) (player r)
    v (vy r) (on_ground r) (coyote r) (jump_buf r) (jump_v r) (coyote_t r)
    (coin_mul r) (magnet_px r) (platforms r) (hazards r) (coins_list r)
    (shake_t r) (shake_mag r) (next_spawn_x r) (last_platform_top r)
    (last_hazard_x r) (jump_cut r) (jump_time r).
Definition set_vy (v : Q) (r : Run) : Run :=
   mkRun (cam_x r) (speed r) (score r) (score_f r) (coins_run r) (player r)
    (py r) v (on_ground r) (coyote r) (jump_buf r) (jump_v r) (coyote_t r)
    (coin_mul r) (magnet_px r) (platforms r) (hazards r) (coins_list r)
    (shake_t r) (shake_mag r) (next_spawn_x r) (last_platform_top r)
    (last_hazard_x r) (jump_cut r) (jump_time r).
Definition set_on_ground (v : bool) (r : Run) : Run :=
   mkRun (cam_x r) (speed r) (score r) (score_f r) (coins_run r) (player r)
    (py r) (vy r) v (coyote r) (jump_buf r) (jump_v r) (coyote_t r)
    (coin_mul r) (magnet_px r) (platforms r) (hazards r) (coins_list r)
    (shake_t r) (shake_mag r) (next_spawn_x r) (last_platform_top r)
    (last_hazard_x r) (jump_cut r) (jump_time r).
Definition set_coyote (v : Q) (r : Run) : Run :=
   mkRun (cam_x r) (speed r) (score r) (score_f r) (coins_run r) (player r)
    (py r) (vy r) (on_ground r) v (jump_buf r) (jump_v r) (coyote_t r)
    (coin_mul r) (magnet_px r) (platforms r) (hazards r) (coins_list r)
    (shake_t r) (shake_mag r) (next_spawn_x r) (last_platform_top r)
    (last_hazard_x r) (jump_cut r) (jump_time r).
Definition set_jump_buf (v : Q) (r : Run) : Run :=
   mkRun (cam_x r) (speed r) (score r) (score_f r) (coins_run r) (player r)
    (py r) (vy r) (on_ground r) (coyote r) v (jump_v r) (coyote_t r)
    (coin_mul r) (magnet_px r) (platforms r) (hazards r) (coins_list r)
    (shake_t r) (shake_mag r) (next_spawn_x r) (last_platform_top r)
    (last_hazard_x r) (jump_cut r) (jump_time r).
Definition set_jump_v (v : Q) (r : Run) : Run :=
   mkRun (cam_x r) (speed r) (score r) (score_f r) (coins_run r) (player r)
    (py r) (vy r) (on_ground r) (coyote r) (jump_buf r) v (coyote_t r)
    (coin_mul r) (magnet_px r) (platforms r) (hazards r) (coins_list r)
    (shake_t r) (shake_mag r) (next_spawn_x r) (last_platform_top r)
    (last_hazard_x r) (jump_cut r) (jump_time r).
Definition set_coyote_t (v : Q) (r : Run) : Run :=
   mkRun (cam_x r) (speed r) (score r) (score_f r) (coins_run r) (player r)
    (py r) (vy r) (on_ground r) (coyote r) (jump_buf r) (jump_v r) v
    (coin_mul r) (magnet_px r) (platforms r) (hazards r) (coins_list r)
    (shake_t r) (shake_mag r) (next_spawn_x r) (last_platform_top r)
    (last_hazard_x r) (jump_cut r) (jump_time r).
Definition set_coin_mul (v : Q) (r : Run) : Run :=
   mkRun (cam_x r) (speed r) (score r) (score_f r) (coins_run r) (player r)
    (py r) (vy r) (on_ground r) (coyote r) (jump_buf r) (jump_v r) (coyote_t
    r) v (magnet_px r) (platforms r) (hazards r) (coins_list r) (shake_t r)
    (shake_mag r) (next_spawn_x r) (last_platform_top r) (last_hazard_x r)
    (jump_cut r) (jump_time r).
Definition set_magnet_px (v : Q) (r : Run) : Run :=
   mkRun (cam_x r) (speed r) (score r) (score_f r) (coins_run r) (player r)
    (py r) (vy r) (on_ground r) (coyote r) (jump_buf r) (jump_v r) (coyote_t
    r) (coin_mul r) v (platforms r) (hazards r) (coins_list r) (shake_t r)
    (shake_mag r) (next_spawn_x r) (last_platform_top r) (last_hazard_x r)
    (jump_cut r) (jump_time r).
Definition set_platforms (v : list Rect) (r : Run) : Run :=
   mkRun (cam_x r) (speed r) (score r) (score_f r) (coins_run r) (player r)
    (py r) (vy r) (on_ground r) (coyote r) (jump_buf r) (jump_v r) (coyote_t
    r) (coin_mul r) (magnet_px r) v (hazards r) (coins_list r) (shake_t r)
    (shake_mag r) (next_spawn_x r) (last_platform_top r) (last_hazard_x r)
    (jump_cut r) (jump_time r).
Definition set_hazards (v : list Rect) (r : Run) : Run :=
   mkRun (cam_x r) (speed r) (score r) (score_f r) (coins_run r) (player r)
    (py r) (vy r) (on_ground r) (coyote r) (jump_buf r) (jump_v r) (coyote_t
    r) (coin_mul r) (magnet_px r) (platforms r) v (coins_list r) (shake_t r)
    (shake_mag r) (next_spawn_x r) (last_platform_top r) (last_hazard_x r)
    (jump_cut r) (jump_time r).
Definition set_coins_list (v : list Rect) (r : Run) : Run :=
   mkRun (cam_x r) (speed r) (score r) (score_f r) (coins_run r) (player r)
    (py r) (vy r) (on_ground r) (coyote r) (jump_buf r) (jump_v r) (coyote_t
    r) (coin_mul r) (magnet_px r) (platforms r) (hazards r) v (shake_t r)
    (shake_mag r) (next_spawn_x r) (last_platform_top r) (last_hazard_x r)
    (jump_cut r) (jump_time r).
Definition set_shake_t (v : Q) (r : Run) : Run :=
   mkRun (cam_x r) (speed r) (score r) (score_f r) (coins_run r) (player r)
    (py r) (vy r) (on_ground r) (coyote r) (jump_buf r) (jump_v r) (coyote_t
    r) (coin_mul r) (magnet_px r) (platforms r) (hazards r) (coins_list r) v
    (shake_mag r) (next_spawn_x r) (last_platform_top r) (last_hazard_x r)
    (jump_cut r) (jump_time r).
Definition set_shake_mag (v : Q) (r : Run) : Run :=
   mkRun (cam_x r) (speed r) (score r) (score_f r) (coins_run r) (player r)
    (py r) (vy r) (on_ground r) (coyote r) (jump_buf r) (jump_v r) (coyote_t
    r) (coin_mul r) (magnet_px r) (platforms r) (hazards r) (coins_list r)
    (shake_t r) v (next_spawn_x r) (last_platform_top r) (last_hazard_x r)
    (jump_cut r) (jump_time r).
Definition set_next_spawn_x (v : Q) (r : Run) : Run :=
   mkRun (cam_x r) (speed r) (score r) (score_f r) (coins_run r) (player r)
    (py r) (vy r) (on_ground r) (coyote r) (jump_buf r) (jump_v r) (coyote_t
    r) (coin_mul r) (magnet_px r) (platforms r) (hazards r) (coins_list r)
    (shake_t r) (shake_mag r) v (last_platform_top r) (last_hazard_x r)
    (jump_cut r) (jump_time r).
Definition set_last_platform_top (v : Q) (r : Run) : Run :=
   mkRun (cam_x r) (speed r) (score r) (score_f r) (coins_run r) (player r)
    (py r) (vy r) (on_ground r) (coyote r) (jump_buf r) (jump_v r) (coyote_t
    r) (coin_mul r) (magnet_px r) (platforms r) (hazards r) (coins_list r)
    (shake_t r) (shake_mag r) (next_spawn_x r) v (last_hazard_x r) (jump_cut
    r) (jump_time r).
Definition set_last_hazard_x (v : Q) (r : Run) : Run :=
   mkRun (cam_x r) (speed r) (score r) (score_f r) (coins_run r) (player r)
    (py r) (vy r) (on_ground r) (coyote r) (jump_buf r) (jump_v r) (coyote_t
    r) (coin_mul r) (magnet_px r) (platforms r) (hazards r) (coins_list r)
    (shake_t r) (shake_mag r) (next_spawn_x r) (last_platform_top r) v
    (jump_cut r) (jump_time r).
Definition set_jump_cut (v : bool) (r : Run) : Run :=
   mkRun (cam_x r) (speed r) (score r) (score_f r) (coins_run r) (player r)
    (py r) (vy r) (on_ground r) (coyote r) (jump_buf r) (jump_v r) (coyote_t
    r) (coin_mul r) (magnet_px r) (platforms r) (hazards r) (coins_list r)
    (shake_t r) (shake_mag r) (next_spawn_x r) (last_platform_top r)
    (last_hazard_x r) v (jump_time r).
Definition set_jump_time (v : Q) (r : Run) : Run :=
   mkRun (cam_x r) (speed r) (score r) (score_f r) (coins_run r) (player r)
    (py r) (vy r) (on_ground r) (coyote r) (jump_buf r) (jump_v r) (coyote_t
    r) (coin_mul r) (magnet_px r) (platforms r) (hazards r) (coins_list r)
    (shake_t r) (shake_mag r) (next_spawn_x r) (last_platform_top r)
    (last_hazard_x r) (jump_cut r) v.

(** ** The program's global state *)

Inductive Mode : Set :=
  MODE_MENU | MODE_PLAY | MODE_SHOP | MODE_SETTINGS | MODE_DEAD.

(** The calls made to the sound effects, newest first. *)
Inductive Sfx : Set := SfxClick | SfxJump | SfxCoin | SfxDead.

Record Juice : Set := mkJuice {
  playerSquash : Q;
  playerStretch : Q;
  coinPulse : Q;
  uiFade : Q
}.

Definition set_playerSquash (v : Q) (j : Juice) : Juice :=
   mkJuice v (playerStretch j) (coinPulse j) (uiFade j).
Definition set_playerStretch (v : Q) (j : Juice) : Juice :=
   mkJuice (playerSquash j) v (coinPulse j) (uiFade j).
Definition set_coinPulse (v : Q) (j : Juice) : Juice :=
   mkJuice (playerSquash j) (playerStretch j) v (uiFade j).
Definition set_uiFade (v : Q) (j : Juice) : Juice :=
   mkJuice (playerSquash j) (playerStretch j) (coinPulse j) v.

(** [SAVE], [RUN], [JUICE], [mode] and [paused] are the script's global
    variables; [sfx_log] records the calls of [sfx.jump()], [sfx.coin()]
    and [sfx.dead()]. *)
Record World : Set := mkWorld {
  SAVE : Save;
  RUN : Run;
  JUICE : Juice;
  mode : Mode;
  paused : bool;
  sfx_log : list Sfx
}.

Definition set_SAVE (v : Save) (g : World) : World :=
   mkWorld v (RUN g) (JUICE g) (mode g) (paused g) (sfx_log g).
Definition set_RUN (v : Run) (g : World) : World :=
   mkWorld (SAVE g) v (JUICE g) (mode g) (paused g) (sfx_log g).
Definition set_JUICE (v : Juice) (g : World) : World :=
   mkWorld (SAVE g) (RUN g) v (mode g) (paused g) (sfx_log g).
Definition set_mode (v : Mode) (g : World) : World :=
   mkWorld (SAVE g) (RUN g) (JUICE g) v (paused g) (sfx_log g).
Definition set_paused (v : bool) (g : World) : World :=
   mkWorld (SAVE g) (RUN g) (JUICE g) (mode g) v (sfx_log g).
Definition set_sfx_log (v : list Sfx) (g : World) : World :=
   mkWorld (SAVE g) (RUN g) (JUICE g) (mode g) (paused g) v.

Definition sfx (e : Sfx) (g : World) : World := set_sfx_log (e :: sfx_log g) g.

(** A function of the run state applied to the global [RUN]. *)
Definition on_RUN (f : Run -> Run) (g : World) : World := set_RUN (f (RUN g)) g.

Definition on_JUICE (f : Juice -> Juice) (g : World) : World :=
  set_JUICE (f (JUICE g)) g.

(** ** The vertical sweep in the arithmetic of the host

    [collideVerticalSweep] once more, with every [+], [-] and [/] of
    its body rounded as the host rounds it.  The float position is the
    sum of the sub-steps as they are accumulated, which need not be
    [pyFloat + dy]: [300 + 13] in three sub-steps is
    [312.99999999999994].  With a rounding that changes nothing this is
    [collideVerticalSweep] ([collideVerticalSweep_fl_exact]). *)

Section RoundedSweep.
Context `{HostMath}.

(** [colliderect(a, b)] *)
Definition colliderect_fl (a b : Rect) : bool :=
  (rx a <? fadd (rx b) (rw b)) && (rx b <? fadd (rx a) (rw a)) &&
  (ry a <? fadd (ry b) (rh b)) && (ry b <? fadd (ry a) (rh a)).

(** The two horizontal conjuncts of [colliderect]. *)
Definition overlaps_x_fl (a b : Rect) : Prop :=
  rx a < fadd (rx b) (rw b) /\ rx b < fadd (rx a) (rw a).

Definition lands_on_fl (player : Rect) (prevBottom : Q) (p : Rect) : bool :=
  colliderect_fl player p && (prevBottom <=? ry p).

Definition bumps_on_fl (player : Rect) (prevTop : Q) (p : Rect) : bool :=
  colliderect_fl player p && (fadd (ry p) (rh p) <=? prevTop).

Fixpoint sweep_loop_fl (n : nat) (step : Q) (player : Rect) (pyF : Q)
    (platforms : list Rect) : Rect * SweepResult :=
  match n with
  | O => (player, mkSweep pyF false false)
  | S n' =>
      let prevTop := ry player in
      let prevBottom := fadd (ry player) (rh player) in
      let pyF := fadd pyF step in
      let player := set_ry player (floor pyF) in
      if 0 <? step then
        match find (lands_on_fl player prevBottom) platforms with
        | Some p =>
            let player := set_ry player (fsub (ry p) (rh player)) in
            (player, mkSweep (ry player) true false)
        | None => sweep_loop_fl n' step player pyF platforms
        end
      else
        match find (bumps_on_fl player prevTop) platforms with
        | Some p =>
            let player := set_ry player (fadd (ry p) (rh p)) in
            (player, mkSweep (ry player) false true)
        | None => sweep_loop_fl n' step player pyF platforms
        end
  end.

(** [steps = Math.floor(Math.abs(dy) / 6) + 1]: the quotient is
    rounded, the count is a whole number. *)
Definition sweep_steps_fl (dy : Q) : Z := (Qfloor (fdiv (Qabs dy) 6) + 1)%Z.

(** [step = dy / steps] *)
Definition sweep_step_fl (dy : Q) : Q := fdiv dy (inject_Z (sweep_steps_fl dy)).

Definition collideVerticalSweep_fl (player : Rect) (pyF dy : Q)
    (platforms : list Rect) : Rect * SweepResult :=
  if Qeq_bool dy 0 then (player, mkSweep pyF false false)
  else
    sweep_loop_fl (Z.to_nat (sweep_steps_fl dy)) (sweep_step_fl dy)
      player pyF platforms.

(** The float position after [n] executions of [pyFloat += step]. *)
Fixpoint drift (n : nat) (step pyF : Q) : Q :=
  match n with
  | O => pyF
  | S n' => drift n' step (fadd pyF step)
  end.

(** The float position that the sweep reaches when nothing stops it. *)
Definition sweep_end (pyF dy : Q) : Q :=
  drift (Z.to_nat (sweep_steps_fl dy)) (sweep_step_fl dy) pyF.

End RoundedSweep.

(** A whole number of pixels of a size that the host adds without
    error. *)
Definition pixel (v : Q) : Prop :=
  exists z : Z, v = inject_Z z /\ (Z.abs z <= 2 ^ 50)%Z.

(** ** Run parameters and the initial run state *)

Record RunParams : Set := mkRunParams {
  jumpV : Q; coyoteT : Q; coinMul : Q; magnetPx : Q
}.

Definition runParamsFromUpgrades (u : Upgrades) : RunParams :=
  mkRunParams (BASE_JUMP_V + 50.0 * up_jump u)
              (BASE_COYOTE + 0.02 * up_coyote u)
              (1 + 0.20 * up_coin_mult u)
              (0 + 26 * up_magnet u).

(** Levels that [defaultSaveData] and [buyUpgrade] can produce. *)
Definition level_ok (l : Q) : Prop := 0 <= l <= UPGRADE_MAX.

Definition upgrades_ok (u : Upgrades) : Prop :=
  level_ok (up_jump u) /\ level_ok (up_coyote u) /\
  level_ok (up_coin_mult u) /\ level_ok (up_magnet u).

Definition newRunState (sv : Save) : Run :=
  let p := runParamsFromUpgrades (upgrades sv) in
  let s := mkRun 0.0 BASE_SPEED 0 0.0 0
             (rect 160 (GROUND_Y - 58) 44 58) (GROUND_Y - 58) 0.0 true
             0.0 0.0 (jumpV p) (coyoteT p) (coinMul p) (magnetPx p)
             [] [] [] 0.0 0.0 0.0 GROUND_Y (-10000000) false 0.0 in
  let starter := rect 0 (GROUND_Y - 24) (WIDTH + 1200) 24 in
  let s := set_platforms (platforms s ++ [starter]) s in
  let s := set_next_spawn_x (rx starter + rw starter + 140) s in
  set_last_platform_top (ry starter) s.

(** ** The level generator *)

(** The values drawn by one call of [spawnChunk], in the order of its
    calls of [Math.random()]; those of a branch not taken are not used. *)
Record ChunkDraws : Set := mkChunkDraws {
  d_w : Draw; d_h : Draw; d_lvl : Draw;
  d_haz : Draw; d_hzW : Draw; d_hzH : Draw; d_hx : Draw;
  d_coin : Draw; d_n : Draw; d_baseX : Draw; d_arc : Draw;
  d_gap : Draw
}.

(** [l[i]] for an integral index [i] inside the array. *)
Definition index (l : list Q) (i : Q) : Q := nth (Z.to_nat (Qfloor i)) l 0.

(** [l.length] *)
Definition length_of {A} (l : list A) : Q := inject_Z (Z.of_nat (length l)).

(** The height level closest to the previous platform's top. *)
Definition prevLevel_of (prevTop : Q) : Q :=
  fold_left
    (fun best lvl =>
       let candTop := (GROUND_Y - 24) - lvl in
       let bestTop := (GROUND_Y - 24) - best in
       if Qabs (candTop - prevTop) <? Qabs (bestTop - prevTop)
       then lvl else best)
    HEIGHT_LEVELS (index HEIGHT_LEVELS 0).

(** The top of the new platform. *)
Definition chunk_topY (d : ChunkDraws) (r : Run) : Q :=
  let prevTop := last_platform_top r in
  let prevLevel := prevLevel_of prevTop in
  let extra := if 520 <? speed r then 3%nat else 2%nat in
  let candidates := HEIGHT_LEVELS ++ repeat prevLevel extra in
  let lvl := index candidates (randi 0 (length_of candidates - 1) (d_lvl d)) in
  let topY := (GROUND_Y - 24) - lvl in
  let maxStep := if speed r <? 520 then 170 else 125 in
  if maxStep <? Qabs (topY - prevTop)
  then (if prevTop <? topY then prevTop + maxStep else prevTop - maxStep)
  else topY.

(** The platform of the new chunk. *)
Definition chunk_platform (d : ChunkDraws) (r : Run) : Rect :=
  let x := next_spawn_x r in
  let w := randi PLATFORM_MIN_W PLATFORM_MAX_W (d_w d) in
  let h := randi PLATFORM_MIN_H PLATFORM_MAX_H (d_h d) in
  rect (floor x) (floor (chunk_topY d r)) (floor w) (floor h).

Definition hazard_chance (spd : Q) : Q :=
  if 650 <? spd then HAZARD_CHANCE * 0.78 else HAZARD_CHANCE.

(** [hx] as it is stored in [RUN.last_hazard_x]: drawn from the reaction
    window, kept ahead of the camera, and pushed away from the previous
    hazard.  The three pixel counts are floors of rounded products of
    the speed with a decimal literal. *)
Definition hazard_hx `{HostMath} (d : ChunkDraws) (r : Run) : Q :=
  let camX := cam_x r in
  let spd := speed r in
  let x := next_spawn_x r in
  let reactionPxMin := floor (fmul spd (lit MIN_REACTION_T)) in
  let reactionPxMax := floor (fmul spd (lit MAX_REACTION_T)) in
  let hx := randi (floor (x - reactionPxMax)) (floor (x - reactionPxMin)) (d_hx d) in
  let hx := Qmax (floor (camX + WIDTH + 70)) hx in
  let minSepPx := floor (fmul spd (lit MIN_HAZARD_SEP_T)) in
  if hx - last_hazard_x r <? minSepPx then last_hazard_x r + minSepPx else hx.

(** The body of [if (Math.random() < hazChance)]. *)
Definition spawn_hazard `{HostMath} (d : ChunkDraws) (platform : Rect) (r : Run) : Run :=
  let hzW := randi 30 68 (d_hzW d) in
  let hzH := randi 32 62 (d_hzH d) in
  let hx := hazard_hx d r in
  let r := set_last_hazard_x hx r in
  let hx := clamp hx (rx platform) (rx platform + rw platform - hzW) in
  let spikeBottom := ry platform + 2 in
  set_hazards
    (hazards r ++ [rect (floor hx) (floor (spikeBottom - hzH)) (floor hzW) (floor hzH)])
    r.

Section Coins.
Context `{HostMath}.

(** The body of [if (Math.random() < COIN_CHANCE)]. *)
Definition spawn_coins (d : ChunkDraws) (platform : Rect) (r : Run) : Run :=
  let n := randi 3 7 (d_n d) in
  let baseX := rx platform + randi 20 (Qmax 20 (rw platform - 20)) (d_baseX d) in
  let baseY := ry platform - 54 in
  let arc := d_arc d <? 0.55 in
  let coin (k : nat) :=
    let i := inject_Z (Z.of_nat k) in
    let cx := baseX + i * 34 in
    let cy := if arc
              then baseY - floor (18 * sin_pi (i / Qmax 1 (n - 1)))
              else baseY in
    rect (floor cx) (floor cy) 18 18 in
  set_coins_list (coins_list r ++ map coin (seq 0 (Z.to_nat (Qfloor n)))) r.

Definition spawnChunk (d : ChunkDraws) (r : Run) : Run :=
  let platform := chunk_platform d r in
  let spd := speed r in
  let r := set_platforms (platforms r ++ [platform]) r in
  let r := if d_haz d <? hazard_chance spd then spawn_hazard d platform r else r in
  let r := if d_coin d <? COIN_CHANCE then spawn_coins d platform r else r in
  let r := set_next_spawn_x
             (rx platform + rw platform + randi MIN_GAP MAX_GAP (d_gap d)) r in
  set_last_platform_top (ry platform) r.

(** The loop [while (RUN.next_spawn_x < camX + WIDTH * 2.2) spawnChunk()]
    with [fuel] iterations allowed; [draws k] holds the draws of the
    [k]-th chunk.  [None] when the fuel runs out first. *)
Fixpoint spawn_while (fuel : nat) (camX : Q) (draws : nat -> ChunkDraws)
    (k : nat) (r : Run) : option Run :=
  if next_spawn_x r <? camX + WIDTH * 2.2 then
    match fuel with
    | O => None
    | S fuel' => spawn_while fuel' camX draws (S k) (spawnChunk (draws k) r)
    end
  else Some r.

(** A number of iterations that the loop cannot exceed: every chunk
    moves the frontier by more than 309 pixels. *)
Definition spawn_budget (camX : Q) (r : Run) : nat :=
  Z.to_nat (Qceiling ((camX + WIDTH * 2.2 - next_spawn_x r) / 309)).

Definition ensureGenerationAhead (draws : nat -> ChunkDraws) (r : Run) : Run :=
  let camX := cam_x r in
  match spawn_while (spawn_budget camX r) camX draws 0 r with
  | Some r' => r'
  | None => r
  end.

Definition cleanupLists (r : Run) : Run :=
  let camX := cam_x r in
  let keep (c : Rect) := camX - 280 <=? rx c + rw c in
  let r := set_platforms (filter keep (platforms r)) r in
  let r := set_hazards (filter keep (hazards r)) r in
  set_coins_list (filter keep (coins_list r)) r.

Definition resetRun (draws : nat -> ChunkDraws) (g : World) : World :=
  let g := set_RUN (newRunState (SAVE g)) g in
  let g := on_RUN (ensureGenerationAhead draws) g in
  on_JUICE (fun j => set_playerStretch 0 (set_playerSquash 0 j)) g.
End Coins.

(** The frontier is a whole number of pixels. *)
Definition integral (v : Q) : Prop := floor v == v.

(** The run parameters are those of some admissible upgrade levels, as
    [newRunState] sets them. *)
Definition run_params_ok (r : Run) : Prop :=
  exists u, upgrades_ok u /\
    jump_v r = jumpV (runParamsFromUpgrades u) /\
    coyote_t r = coyoteT (runParamsFromUpgrades u) /\
    coin_mul r = coinMul (runParamsFromUpgrades u) /\
    magnet_px r = magnetPx (runParamsFromUpgrades u).

(** ** The per-tick update *)

(** [Math.trunc] *)
Definition trunc (v : Q) : Q := if v <? 0 then - floor (- v) else floor v.

Definition addShake (mag t : Q) (g : World) : World :=
  if negb (screenshake (settings (SAVE g))) then g
  else
    let g := on_RUN (fun r => set_shake_mag (Qmax (shake_mag r) mag) r) g in
    on_RUN (fun r => set_shake_t (Qmax (shake_t r) t) r) g.

(** [saveSave(SAVE)] writes to local storage and changes no variable.
    The payout is the floor of the product as the host rounds it. *)
Definition awardMoneyAndSave `{HostMath} (g : World) : World :=
  let g := set_SAVE (set_money (money (SAVE g)
                       + floor (fmul (coins_run (RUN g)) (coin_mul (RUN g))))
                       (SAVE g)) g in
  set_SAVE (set_best_score (Qmax (best_score (SAVE g)) (score (RUN g))) (SAVE g)) g.

Definition updateBestScore (saveNow : bool) (g : World) : World :=
  set_SAVE (set_best_score (Qmax (best_score (SAVE g)) (score (RUN g))) (SAVE g)) g.

(** The game state with [lastMode], the variable of the main loop that
    [uiTick] keeps. *)
Record Loop : Set := mkLoop { game : World; lastMode : Mode }.

Definition mode_eqb (a b : Mode) : bool :=
  match a, b with
  | MODE_MENU, MODE_MENU | MODE_PLAY, MODE_PLAY | MODE_SHOP, MODE_SHOP
  | MODE_SETTINGS, MODE_SETTINGS | MODE_DEAD, MODE_DEAD => true
  | _, _ => false
  end.

(** [uiTick(dt)]: the fade restarts when the mode has changed. *)
Definition uiTick (dt : Q) (l : Loop) : Loop :=
  let l := if negb (mode_eqb (mode (game l)) (lastMode l))
           then mkLoop (on_JUICE (set_uiFade 0) (game l)) (mode (game l))
           else l in
  mkLoop (on_JUICE (fun j => set_uiFade (clamp (uiFade j + dt * 3.2) 0 1) j)
            (game l))
         (lastMode l).

(** What one call of [playUpdate] receives besides the state: the
    frame's [dt], the three jump flags, and the draws of the chunks
    spawned during the tick. *)
Record TickInput : Set := mkTick {
  t_dt : Q;
  t_jumpPressed : bool;
  t_jumpHeld : bool;
  t_jumpReleased : bool;
  t_draws : nat -> ChunkDraws
}.

(** [playUpdate] is split at its comments; each definition below is one
    block of its body, in the order of the source. *)

(** Speed ramp and score. *)
Definition tick_speed_score (dt : Q) (g : World) : World :=
  let g := on_RUN (fun r =>
             set_speed (clamp (speed r + SPEED_RAMP * dt) BASE_SPEED MAX_SPEED) r) g in
  let g := on_RUN (fun r => set_score_f (score_f r + speed r * dt * 0.02) r) g in
  let g := on_RUN (fun r => set_score (floor (score_f r)) r) g in
  updateBestScore false g.

(** Jump buffer. *)
Definition tick_jump_buffer (dt : Q) (jumpPressed : bool) (g : World) : World :=
  on_RUN (fun r =>
    if jumpPressed then set_jump_buf BASE_JUMP_BUF r
    else set_jump_buf (Qmax 0.0 (jump_buf r - dt)) r) g.

(** Coyote time and the airborne clock. *)
Definition tick_coyote (dt : Q) (g : World) : World :=
  on_RUN (fun r =>
    let r := if on_ground r
             then set_jump_cut false (set_coyote (coyote_t r) r)
             else set_coyote (Qmax 0.0 (coyote r - dt)) r in
    if negb (on_ground r) then set_jump_time (jump_time r + dt) r
    else set_jump_time 0.0 r) g.

(** The test of [// apply buffered jump]. *)
Definition jump_ready (g : World) : bool :=
  (0.0 <? jump_buf (RUN g)) && (0.0 <? coyote (RUN g)).

(** [// apply buffered jump] *)
Definition tick_apply_jump (g : World) : World :=
  if jump_ready g then
    let g := on_RUN (fun r => set_vy (- jump_v r) r) g in
    let g := on_RUN (set_on_ground false) g in
    let g := on_RUN (set_coyote 0.0) g in
    let g := on_RUN (set_jump_buf 0.0) g in
    let g := on_RUN (set_jump_cut false) g in
    let g := on_RUN (set_jump_time 0.0) g in
    let g := on_JUICE (set_playerStretch 1) g in
    sfx SfxJump g
  else g.

(** Gravity. *)
Definition tick_gravity (dt : Q) (g : World) : World :=
  on_RUN (fun r => set_vy (clamp (vy r + GRAVITY * dt) (-5000.0) MAX_FALL_V) r) g.

(** The test of [// jump cut]. *)
Definition cut_ready (jumpReleased : bool) (g : World) : bool :=
  jumpReleased && negb (on_ground (RUN g)) && negb (jump_cut (RUN g))
  && (vy (RUN g) <? 0).

(** [// jump cut] *)
Definition tick_jump_cut (jumpReleased : bool) (g : World) : World :=
  if cut_ready jumpReleased g then
    let g := on_RUN (fun r => set_vy (vy r * JUMP_CUT_MULT) r) g in
    on_RUN (set_jump_cut true) g
  else g.

(** The landing feedback; [spawnParticles] only fills the particle
    list. *)
Definition land_feedback (prevOnGround : bool) (g : World) : World :=
  if negb prevOnGround then on_JUICE (set_playerSquash 1) g else g.

(** Player x, the vertical sweep and the ground line. *)
Definition tick_vertical (dt : Q) (g : World) : World :=
  let g := on_RUN (fun r =>
             set_player (set_rx (player r) (floor (cam_x r + 160))) r) g in
  let dy := vy (RUN g) * dt in
  let prevOnGround := on_ground (RUN g) in
  let g := on_RUN (set_on_ground false) g in
  let sweep := collideVerticalSweep (player (RUN g)) (py (RUN g)) dy
                 (platforms (RUN g)) in
  let g := on_RUN (set_player (fst sweep)) g in
  let g := on_RUN (set_py (pyFloat (snd sweep))) g in
  if GROUND_Y <=? ry (player (RUN g)) + rh (player (RUN g)) then
    if 0 <? vy (RUN g) then
      let g := on_RUN (fun r =>
                 set_player (set_ry (player r) (GROUND_Y - rh (player r))) r) g in
      let g := on_RUN (fun r => set_py (ry (player r)) r) g in
      let g := on_RUN (set_vy 0.0) g in
      let g := on_RUN (set_on_ground true) g in
      land_feedback prevOnGround g
    else g
  else if landed (snd sweep) then
    let g := on_RUN (set_vy 0.0) g in
    let g := on_RUN (set_on_ground true) g in
    land_feedback prevOnGround g
  else g.

(** Lines 1177 to 1193: the state in which [playUpdate] reaches the
    test of [// apply buffered jump]. *)
Definition tick_timers (i : TickInput) (g : World) : World :=
  let g := tick_speed_score (t_dt i) g in
  let g := tick_jump_buffer (t_dt i) (t_jumpPressed i) g in
  tick_coyote (t_dt i) g.

(** Lines 1177 to 1208: the state in which [playUpdate] reaches the test
    of [// jump cut]. *)
Definition tick_launch (i : TickInput) (g : World) : World :=
  let g := tick_timers i g in
  let g := tick_apply_jump g in
  tick_gravity (t_dt i) g.

(** Lines 1177 to 1250: everything that moves the player. *)
Definition tick_kinematics (i : TickInput) (g : World) : World :=
  let g := tick_launch i g in
  let g := tick_jump_cut (t_jumpReleased i) g in
  tick_vertical (t_dt i) g.

(** One coin picked up. *)
Definition collect_coin (g : World) : World :=
  let g := on_RUN (fun r => set_coins_run (coins_run r + 1) r) g in
  let g := on_JUICE (set_coinPulse 1) g in
  let g := sfx SfxCoin g in
  addShake 2.0 0.08 g.

(** [// coin collect]: the coins are not moved while the loop runs, so
    removing the collected indices removes the coins the player
    overlaps. *)
Definition tick_coins (g : World) : World :=
  let pl := player (RUN g) in
  let collected := filter (colliderect pl) (coins_list (RUN g)) in
  let g := fold_left (fun g c => if colliderect pl c then collect_coin g else g)
             (coins_list (RUN g)) g in
  match collected with
  | [] => g
  | _ :: _ =>
      on_RUN (fun r =>
        set_coins_list (filter (fun c => negb (colliderect pl c)) (coins_list r)) r) g
  end.

(** The body of [// hazard collide] once a spike is touched. *)
Definition die `{HostMath} (g : World) : World :=
  let g := addShake 10.0 0.25 g in
  let g := awardMoneyAndSave g in
  let g := updateBestScore true g in
  let g := sfx SfxDead g in
  set_mode MODE_DEAD g.

(** Screenshake and juice decay. *)
Definition tick_decay (dt : Q) (g : World) : World :=
  let g := on_RUN (fun r =>
             if 0 <? shake_t r then
               let r := set_shake_t (shake_t r - dt) r in
               if shake_t r <=? 0 then set_shake_mag 0.0 r else r
             else set_shake_mag (Qmax 0 (shake_mag r - dt * 12)) r) g in
  on_JUICE (fun j =>
    let j := set_playerSquash (Qmax 0 (playerSquash j - dt * 6)) j in
    let j := set_playerStretch (Qmax 0 (playerStretch j - dt * 7)) j in
    set_coinPulse (Qmax 0 (coinPulse j - dt * 9)) j) g.

Section Tick.
Context `{HostMath}.

(** The pull of the magnet on one coin. *)
Definition pull_coin (pl : Rect) (magnetPx dt : Q) (c : Rect) : Rect :=
  let dx := centerx pl - centerx c in
  let dyc := centery pl - centery c in
  let dist := hypot dx dyc in
  if (0.1 <? dist) && (dist <? magnetPx) then
    let pull := (magnetPx - dist) / magnetPx in
    let c := set_rx c (rx c + trunc (dx * pull * dt * 2.8)) in
    set_ry c (ry c + trunc (dyc * pull * dt * 2.8))
  else c.

(** [// magnet pull] *)
Definition tick_magnet (dt : Q) (g : World) : World :=
  let magnetPx := magnet_px (RUN g) in
  if 0 <? magnetPx then
    on_RUN (fun r =>
      set_coins_list (map (pull_coin (player r) magnetPx dt) (coins_list r)) r) g
  else g.

(** Camera, generation and pruning. *)
Definition tick_camera (i : TickInput) (g : World) : World :=
  let g := on_RUN (fun r => set_cam_x (cam_x r + speed r * t_dt i) r) g in
  let g := on_RUN (ensureGenerationAhead (t_draws i)) g in
  on_RUN cleanupLists g.

(** The state in which [playUpdate] reaches [// hazard collide]. *)
Definition tick_before_hazards (i : TickInput) (g : World) : World :=
  let g := tick_kinematics i g in
  let g := tick_camera i g in
  let g := tick_magnet (t_dt i) g in
  tick_coins g.

(** [playUpdate(dt, jumpPressed, jumpHeld, jumpReleased)].  The loop
    over the spikes returns at the first one that the player
    overlaps. *)
Definition playUpdate (i : TickInput) (g : World) : World :=
  let g := tick_before_hazards i g in
  match find (colliderect (player (RUN g))) (hazards (RUN g)) with
  | Some _ => die g
  | None => tick_decay (t_dt i) g
  end.

(** [dt] as [frame] computes it from two time stamps. *)
Definition frame_dt (ts lastTS : Q) : Q :=
  clamp ((ts - lastTS) / 1000.0) 0 0.05.

(** [frame(ts)] in a frame in which no button is clicked and [running]
    is true: [uiTick] animates the fade, then [playUpdate] runs in play
    mode when the game is not paused; the menu, shop, settings and dead
    screens draw and wait for a button.  The time stamps, the frame
    rate estimate and the canvas are left out. *)
Definition frame (i : TickInput) (l : Loop) : Loop :=
  let l := uiTick (t_dt i) l in
  match mode (game l) with
  | MODE_PLAY =>
      if negb (paused (game l))
      then mkLoop (playUpdate i (game l)) (lastMode l)
      else l
  | _ => l
  end.

(** A sequence of frames. *)
Fixpoint frames (inputs : list TickInput) (l : Loop) : Loop :=
  match inputs with
  | [] => l
  | i :: rest => frames rest (frame i l)
  end.

(** The [Play again] button of the dead screen, and [goPlay]. *)
Definition goPlay (draws : nat -> ChunkDraws) (g : World) : World :=
  let g := resetRun draws g in
  let g := set_paused false g in
  let g := set_mode MODE_PLAY g in
  sfx SfxClick g.

End Tick.

(** The input [i] with its release flag replaced. *)
Definition with_release (b : bool) (i : TickInput) : TickInput :=
  mkTick (t_dt i) (t_jumpPressed i) (t_jumpHeld i) b (t_draws i).

(** Whether the tick [i] from [g] takes the branch of [// jump cut]. *)
Definition cut_fires (i : TickInput) (g : World) : bool :=
  cut_ready (t_jumpReleased i) (tick_launch i g).

(** Whether the tick [i] from [g] takes the branch of
    [// apply buffered jump]. *)
Definition jump_fires (i : TickInput) (g : World) : bool :=
  jump_ready (tick_timers i g).

(** The calls of [sfx.jump()] recorded so far. *)
Definition is_jump (e : Sfx) : bool :=
  match e with SfxJump => true | _ => false end.

Definition jumps_logged (g : World) : nat := length (filter is_jump (sfx_log g)).

(** [step] called once for each input, in order. *)
Fixpoint run_ticks (step : TickInput -> World -> World)
    (inputs : list TickInput) (g : World) : World :=
  match inputs with
  | [] => g
  | i :: rest => run_ticks step rest (step i g)
  end.

(** The number of ticks of the sequence that apply the jump cut. *)
Fixpoint cuts_with (step : TickInput -> World -> World)
    (inputs : list TickInput) (g : World) : nat :=
  match inputs with
  | [] => O
  | i :: rest =>
      ((if cut_fires i g then 1 else 0) + cuts_with step rest (step i g))%nat
  end.

(** The player is off the ground when each tick of the sequence
    starts. *)
Fixpoint airborne_with (step : TickInput -> World -> World)
    (inputs : list TickInput) (g : World) : Prop :=
  match inputs with
  | [] => True
  | i :: rest =>
      on_ground (RUN g) = false /\ airborne_with step rest (step i g)
  end.

Section Runs.
Context `{HostMath}.

(** [playUpdate] called once for each input, in order. *)
Definition play_ticks : list TickInput -> World -> World :=
  run_ticks playUpdate.

Definition cuts_in : list TickInput -> World -> nat := cuts_with playUpdate.

Definition airborne_during : list TickInput -> World -> Prop :=
  airborne_with playUpdate.
End Runs.

(** The time covered by a sequence of ticks. *)
Definition total_dt (inputs : list TickInput) : Q :=
  fold_right (fun i acc => t_dt i + acc) 0 inputs.

(** The fields of the run state that only the kinematic blocks of
    [playUpdate] write. *)
Definition params (r : Run) := (jump_v r, coyote_t r, coin_mul r, magnet_px r).

Definition body (r : Run) :=
  (speed r, vy r, on_ground r, coyote r, jump_buf r, jump_cut r,
   params r, player r, py r, score r).

(** The fields of the run state that the generator and the camera
    write and the kinematic blocks leave alone. *)
Definition terrain (r : Run) :=
  (cam_x r, next_spawn_x r, platforms r, hazards r,
   last_platform_top r, last_hazard_x r).

(** The lowest and highest tops a platform can have: level 0 and level
    170 above the ground strip. *)
Definition LOWEST_TOP : Q := (GROUND_Y - 24) - 0.
Definition HIGHEST_TOP : Q := (GROUND_Y - 24) - 170.

(** The largest change of top between two platforms at speed [spd]. *)
Definition max_step (spd : Q) : Q := if spd <? 520 then 170 else 125.

(** A platform as [newRunState] and [spawnChunk] build them: top and
    height in whole pixels, the top between the highest and the lowest
    height level. *)
Definition platform_ok (p : Rect) : Prop :=
  whole_rect p /\ HIGHEST_TOP <= ry p <= LOWEST_TOP.

(** What the generator keeps of the platforms and of its own record of
    the last top. *)
Definition ground_ok (r : Run) : Prop :=
  Forall platform_ok (platforms r) /\
  whole (last_platform_top r) /\
  HIGHEST_TOP <= last_platform_top r <= LOWEST_TOP.

(** What the kinematic blocks keep of the player: the rectangle at the
    integer part of the float position, 44 by 58, not below the ground
    line, and the speed inside its clamp. *)
Definition player_ok (r : Run) : Prop :=
  synced (player r) (py r) /\
  rw (player r) = 44 /\ rh (player r) = 58 /\
  ry (player r) + rh (player r) <= GROUND_Y /\
  BASE_SPEED <= speed r <= MAX_SPEED.

Definition run_shape (r : Run) : Prop := player_ok r /\ ground_ok r.

(** The float score, the score shown and the camera: the accumulators
    of [speed * dt]. *)
Definition odo (r : Run) := (score_f r, score r, cam_x r).

(** ** The shop *)

Inductive UpgradeKey : Set := K_jump | K_coyote | K_coin_mult | K_magnet.

Record UpgradeInfo : Set := mkUpgradeInfo {
  u_max : Q; base_cost : Q; cost_step : Q
}.

(** The table [UPGRADES]. *)
Definition UPGRADES (key : UpgradeKey) : UpgradeInfo :=
  match key with
  | K_jump => mkUpgradeInfo 6 140 80
  | K_coyote => mkUpgradeInfo 6 110 70
  | K_coin_mult => mkUpgradeInfo 6 170 90
  | K_magnet => mkUpgradeInfo 6 160 85
  end.

Definition upgradeCost (key : UpgradeKey) (level : Q) : Q :=
  base_cost (UPGRADES key) + cost_step (UPGRADES key) * level.

(** [SAVE.upgrades[key]] *)
Definition level_of (key : UpgradeKey) (u : Upgrades) : Q :=
  match key with
  | K_jump => up_jump u
  | K_coyote => up_coyote u
  | K_coin_mult => up_coin_mult u
  | K_magnet => up_magnet u
  end.

(** [SAVE.upgrades[key] = v] *)
Definition set_level (key : UpgradeKey) (v : Q) (u : Upgrades) : Upgrades :=
  match key with
  | K_jump => mkUpgrades v (up_coyote u) (up_coin_mult u) (up_magnet u)
  | K_coyote => mkUpgrades (up_jump u) v (up_coin_mult u) (up_magnet u)
  | K_coin_mult => mkUpgrades (up_jump u) (up_coyote u) v (up_magnet u)
  | K_magnet => mkUpgrades (up_jump u) (up_coyote u) (up_coin_mult u) v
  end.

(** [buyUpgrade(key)] *)
Definition buyUpgrade (key : UpgradeKey) (g : World) : World :=
  let level := level_of key (upgrades (SAVE g)) in
  if u_max (UPGRADES key) <=? level then g
  else
    let cost := upgradeCost key level in
    if cost <=? money (SAVE g) then
      let g := set_SAVE (set_money (money (SAVE g) - cost) (SAVE g)) g in
      let g := set_SAVE (set_upgrades
                 (set_level key (level_of key (upgrades (SAVE g)) + 1)
                    (upgrades (SAVE g))) (SAVE g)) g in
      sfx SfxClick g
    else g.

(** Purchases made one after the other. *)
Definition buy_all (keys : list UpgradeKey) (g : World) : World :=
  fold_left (fun g key => buyUpgrade key g) keys g.

(** A save as [defaultSaveData], the payouts and the shop leave it:
    every level a whole number of [0..6], the money not negative. *)
Definition save_ok (s : Save) : Prop :=
  (forall key, whole (level_of key (upgrades s)) /\
               level_ok (level_of key (upgrades s))) /\
  0 <= money s.

(** ** The generator of the star field *)

(** [x >>> 0] for an integer [x]. *)
Definition to_uint32 (x : Z) : Z := (x mod 4294967296)%Z.

(** The assignment to [s] in the closure that [makeLCG] returns. *)
Definition lcg_step (s : Z) : Z := to_uint32 (1664525 * s + 1013904223).

(** The state of the closure of [makeLCG(seed)] after [n] calls. *)
Fixpoint lcg_state (seed : Z) (n : nat) : Z :=
  match n with
  | O => to_uint32 seed
  | S n' => lcg_step (lcg_state seed n')
  end.

(** What the [n]-th call returns, the first call being call 1:
    [s / 0x100000000]. *)
Definition lcg_call (seed : Z) (n : nat) : Q :=
  inject_Z (lcg_state seed n) / 4294967296.

(** ** The Phaser build *)

Module Phaser.

(** [this.mode] of [RunnerScene]: ["menu" | "play" | "dead"]. *)
Inductive SceneMode : Set := menu | play | dead.

(** The fields of the scene that [die] reads or writes; the texts it
    shows and hides are left out. *)
Record Scene : Set := mkScene {
  s_mode : SceneMode;
  s_paused : bool;
  s_money : Q;
  s_best : Q;
  s_coinsRun : Q;
  s_score : Q
}.

(** [die()] *)
Definition die (s : Scene) : Scene :=
  match s_mode s with
  | play =>
      mkScene dead false (s_money s + s_coinsRun s)
              (Qmax (s_best s) (s_score s)) (s_coinsRun s) (s_score s)
  | _ => s
  end.

(** [oneWayProcess(player, platform)], on the values it reads:
    [body.velocity.y], [body.prev.y], [body.height] and [pBody.y]. *)
Definition oneWayProcess (velocity_y prev_y height plat_y : Q) : bool :=
  if velocity_y <? 0 then false
  else
    let prevBottom := prev_y + height in
    let platTop := plat_y in
    prevBottom <=? platTop + 3.

End Phaser.

(** ** Concrete inputs used by the examples *)

(** Rational stand-ins for the host's functions: the parabola through
    [sin 0], [sin (pi/2)] and [sin pi], the taxicab length, and exact
    arithmetic. *)
#[export] Instance rational_host : HostMath := {|
  hypot := fun a b => Qabs a + Qabs b;
  sin_pi := fun t => 4 * t * (1 - t);
  rnd := fun v => v
|}.

(** The same stand-ins with the rounding of binary64: the arithmetic
    of the program as it runs. *)
Definition double_host : HostMath := {|
  hypot := fun a b => Qabs a + Qabs b;
  sin_pi := fun t => 4 * t * (1 - t);
  rnd := fl64
|}.

Definition draw_0 : Draw := mkDraw 0 ltac:(split; vm_compute; congruence).
Definition draw_half : Draw := mkDraw 0.5 ltac:(split; vm_compute; congruence).
Definition draw_top : Draw := mkDraw 0.999 ltac:(split; vm_compute; congruence).

(** A chunk with the narrowest platform, the widest spike and no coins. *)
Definition draws_narrow : ChunkDraws :=
  mkChunkDraws draw_0 draw_0 draw_0 draw_0 draw_top draw_0 draw_0
               draw_top draw_0 draw_0 draw_0 draw_0.

(** A run at full speed whose last spike was recorded 274 pixels behind
    the frontier. *)
Definition run_full_speed : Run :=
  mkRun 10000 MAX_SPEED 1500 1500 3
        (rect 10160 378 44 58) 378 0 true 0 0
        BASE_JUMP_V BASE_COYOTE 1 0
        [rect 11630 436 160 20] [rect 11722 406 68 32] []
        0 0 12100 436 11826 false 0.

Definition world_menu : World :=
  mkWorld defaultSaveData (newRunState defaultSaveData) (mkJuice 0 0 0 1)
          MODE_MENU false [].

(** The game right after [Play] is pressed on a fresh save. *)
Definition world_play : World := goPlay (fun _ => draws_narrow) world_menu.

Definition tick_idle (dt : Q) : TickInput :=
  mkTick dt false false false (fun _ => draws_narrow).

Definition tick_press (dt : Q) : TickInput :=
  mkTick dt true true false (fun _ => draws_narrow).

Definition tick_release (dt : Q) : TickInput :=
  mkTick dt false false true (fun _ => draws_narrow).

(** A run about to touch a spike: the player stands on a platform with
    a spike ahead of it, two coins in the bag. *)
Definition world_at_spike : World :=
  mkWorld (mkSave 10 7 defaultUpgrades defaultSettings)
          (mkRun 3000 400 12 12.5 2
                 (rect 3160 378 44 58) 378 0 true 0 0
                 BASE_JUMP_V BASE_COYOTE 1.2 0
                 [rect 3000 436 400 24] [rect 3170 406 40 32] []
                 0 0 6000 436 3170 false 0)
          (mkJuice 0 0 0 1) MODE_PLAY false [].
(* ================================================================== *)
(** * Theorems *)
(* ================================================================== *)

(** ** Comparison operators *)

Lemma ltb_lt (a b : Q) : (a <? b) = true <-> a < b.
Proof.
  unfold ltb. rewrite Qlt_alt. destruct (a ?= b); split; congruence.
Qed.

Lemma ltb_ge (a b : Q) : (a <? b) = false <-> b <= a.
Proof.
  unfold ltb. rewrite Qle_alt, <- Qgt_alt, Qlt_alt.
  destruct (a ?= b); split; congruence.
Qed.

Lemma leb_le (a b : Q) : (a <=? b) = true <-> a <= b.
Proof.
  unfold leb. rewrite Qle_alt. destruct (a ?= b); split; congruence.
Qed.

Lemma leb_gt (a b : Q) : (a <=? b) = false <-> b < a.
Proof.
  unfold leb. rewrite Qgt_alt. destruct (a ?= b); split; congruence.
Qed.

(** Case analysis on every comparison in the goal, leaving the matching
    order facts in the context. *)
Ltac cmp_cases :=
  repeat match goal with
  | |- context [?a <? ?b] =>
      let E := fresh "E" in
      destruct (a <? b) eqn:E;
      [apply ltb_lt in E | apply ltb_ge in E]
  | |- context [?a <=? ?b] =>
      let E := fresh "E" in
      destruct (a <=? b) eqn:E;
      [apply leb_le in E | apply leb_gt in E]
  end.

(** Turns boolean comparison facts of the context into order facts. *)
Ltac cmp_hyps :=
  repeat match goal with
  | H : (_ <? _) = true |- _ => apply ltb_lt in H
  | H : (_ <? _) = false |- _ => apply ltb_ge in H
  | H : (_ <=? _) = true |- _ => apply leb_le in H
  | H : (_ <=? _) = false |- _ => apply leb_gt in H
  | H : (_ && _) = true |- _ => apply andb_prop in H; destruct H
  end.

Lemma clamp_bounds (v a b : Q) : a <= b -> a <= clamp v a b <= b.
Proof. intros Hab. unfold clamp. cmp_cases; lra. Qed.

Lemma clamp_id (v a b : Q) : a <= v -> v <= b -> clamp v a b = v.
Proof.
  intros Ha Hb. unfold clamp.
  cmp_cases; try reflexivity; lra.
Qed.

(** ** [Math.floor] *)

Lemma floor_le (v : Q) : floor v <= v.
Proof. apply Qfloor_le. Qed.

Lemma floor_lt (v : Q) : v < floor v + 1.
Proof.
  unfold floor. pose proof (Qlt_floor v) as H.
  rewrite inject_Z_plus in H. exact H.
Qed.

Lemma floor_mono (u v : Q) : u <= v -> floor u <= floor v.
Proof.
  intros H. unfold floor. rewrite <- Zle_Qle. now apply Qfloor_resp_le.
Qed.

Lemma floor_inject (z : Z) : floor (inject_Z z) = inject_Z z.
Proof. unfold floor. now rewrite Qfloor_Z. Qed.

Lemma floor_comp (u v : Q) : u == v -> floor u = floor v.
Proof. intros H. unfold floor. now rewrite H. Qed.


(** ** The sweep: shape of the result *)

Lemma sweep_steps_pos (dy : Q) : (1 <= sweep_steps dy)%Z.
Proof.
  unfold sweep_steps.
  assert (H : (Qfloor 0 <= Qfloor (Qabs dy / 6))%Z).
  { apply Qfloor_resp_le. pose proof (Qabs_nonneg dy) as Ha.
    unfold Qdiv. apply Qmult_le_0_compat; [exact Ha | discriminate]. }
  change (Qfloor 0) with 0%Z in H. lia.
Qed.

Lemma sweep_steps_Qpos (dy : Q) : 1 <= inject_Z (sweep_steps dy).
Proof.
  change 1 with (inject_Z 1). rewrite <- Zle_Qle. apply sweep_steps_pos.
Qed.

(** The sub-steps add up to the displacement. *)
Lemma sweep_step_total (dy : Q) :
  inject_Z (Z.of_nat (Z.to_nat (sweep_steps dy))) * (dy / inject_Z (sweep_steps dy))
  == dy.
Proof.
  pose proof (sweep_steps_pos dy) as Hp.
  rewrite Z2Nat.id by lia.
  pose proof (sweep_steps_Qpos dy) as Hq.
  field. lra.
Qed.

Lemma sweep_step_sign (dy : Q) :
  (0 < dy / inject_Z (sweep_steps dy) <-> 0 < dy).
Proof.
  pose proof (sweep_steps_Qpos dy) as Hq.
  set (k := inject_Z (sweep_steps dy)) in *.
  assert (Hk : 0 < / k) by (apply Qinv_lt_0_compat; lra).
  unfold Qdiv. split; intros H.
  - assert (E : dy == (dy * / k) * k) by (field; lra).
    rewrite E. apply Qmult_lt_0_compat; lra.
  - apply Qmult_lt_0_compat; assumption.
Qed.

(** A sub-step is shorter than 6 pixels. *)
Lemma sweep_step_small (dy : Q) :
  0 < dy -> dy / inject_Z (sweep_steps dy) < 6.
Proof.
  intros Hdy.
  pose proof (sweep_steps_Qpos dy) as Hq.
  apply Qlt_shift_div_r; [lra|].
  unfold sweep_steps. rewrite inject_Z_plus.
  pose proof (floor_lt (Qabs dy / 6)) as Hf. unfold floor in Hf.
  assert (Ha : Qabs dy == dy) by (apply Qabs_pos; lra).
  change (inject_Z 1) with 1.
  unfold Qdiv in *. change (/ 6) with (1 # 6) in *.
  lra.
Qed.

(** What the loop can report, by the sign of the sub-step. *)
Lemma sweep_loop_flags (n : nat) (step : Q) (platforms : list Rect) :
  forall player pyF,
    let r := snd (sweep_loop n step player pyF platforms) in
    (landed r = true -> 0 < step /\ bumped r = false) /\
    (bumped r = true -> step <= 0 /\ landed r = false).
Proof.
  induction n as [|n IH]; intros player pyF; cbn [sweep_loop].
  - cbn. split; discriminate.
  - destruct (0 <? step) eqn:Hs.
    + destruct (find _ platforms).
      * cbn. apply ltb_lt in Hs. split; [auto | discriminate].
      * apply IH.
    + destruct (find _ platforms).
      * cbn. apply ltb_ge in Hs. split; [discriminate | auto].
      * apply IH.
Qed.

(** When the loop reports nothing, every sub-step was applied. *)
Lemma sweep_loop_free (n : nat) (step : Q) (platforms : list Rect) :
  forall player pyF,
    landed (snd (sweep_loop n step player pyF platforms)) = false ->
    bumped (snd (sweep_loop n step player pyF platforms)) = false ->
    pyFloat (snd (sweep_loop n step player pyF platforms))
      == pyF + inject_Z (Z.of_nat n) * step /\
    (n <> O ->
     ry (fst (sweep_loop n step player pyF platforms))
       = floor (pyFloat (snd (sweep_loop n step player pyF platforms)))).
Proof.
  induction n as [|n IH]; intros player pyF.
  - cbn. intros _ _. split; [ring | congruence].
  - rewrite Nat2Z.inj_succ. unfold Z.succ. rewrite inject_Z_plus.
    change (inject_Z 1) with 1. cbn [sweep_loop].
    destruct (0 <? step).
    + destruct (find _ platforms).
      * cbn. discriminate.
      * intros Hl Hb.
        destruct (IH _ _ Hl Hb) as [E1 E2]. split.
        -- rewrite E1. ring.
        -- intros _. destruct n as [|n]; [reflexivity | apply E2; discriminate].
    + destruct (find _ platforms).
      * cbn. discriminate.
      * intros Hl Hb.
        destruct (IH _ _ Hl Hb) as [E1 E2]. split.
        -- rewrite E1. ring.
        -- intros _. destruct n as [|n]; [reflexivity | apply E2; discriminate].
Qed.

(** C10. The flags returned by [collideVerticalSweep] exclude each other
    and agree with the direction of the displacement: [landed] and
    [bumped] are never both true, [landed] is reported only for [dy > 0],
    [bumped] only for [dy < 0], and for [dy = 0] the call returns the
    player and [pyFloat] it was given with both flags false. *)
Theorem sweep_flags_consistent (player : Rect) (pyF dy : Q)
    (platforms : list Rect) :
  let out := collideVerticalSweep player pyF dy platforms in
  landed (snd out) && bumped (snd out) = false /\
  (landed (snd out) = true -> 0 < dy) /\
  (bumped (snd out) = true -> dy < 0) /\
  (dy == 0 -> out = (player, mkSweep pyF false false)).
Proof.
  unfold collideVerticalSweep.
  destruct (Qeq_bool dy 0) eqn:E0; cbv zeta.
  - cbn. repeat split; discriminate || reflexivity.
  - apply Qeq_bool_neq in E0.
    pose proof (sweep_loop_flags (Z.to_nat (sweep_steps dy))
                  (dy / inject_Z (sweep_steps dy)) platforms player pyF) as [HL HB].
    cbv zeta in HL, HB.
    pose proof (sweep_step_sign dy) as Hs.
    repeat split.
    + destruct (landed _) eqn:El; [|reflexivity].
      destruct (HL eq_refl) as [_ ->]. reflexivity.
    + intros Hl. apply Hs, HL, Hl.
    + intros Hb. destruct (HB Hb) as [Hle _].
      destruct (Qlt_le_dec 0 dy) as [Hpos|Hneg].
      * apply Hs in Hpos. lra.
      * destruct (Qle_lt_or_eq _ _ Hneg) as [Hlt|Heq]; [exact Hlt | contradiction].
    + intros H0. contradiction.
Qed.

Lemma sweep_flags_consistent_at_rest :
  collideVerticalSweep (rect 160 402 44 58) 402 0 [rect 0 436 2160 24]
  = (rect 160 402 44 58, mkSweep 402 false false).
Proof.
  apply (sweep_flags_consistent (rect 160 402 44 58) 402 0 [rect 0 436 2160 24]).
  reflexivity.
Defined.

(** ** Lists and rectangles *)

Lemma find_skip {A} (f : A -> bool) (a : A) (l1 l2 : list A) :
  f a = false -> find f (l1 ++ a :: l2) = find f (l1 ++ l2).
Proof.
  intros Ha. induction l1 as [|b l1 IH]; cbn.
  - now rewrite Ha.
  - destruct (f b); [reflexivity | exact IH].
Qed.



Lemma overlaps_x_set_ry (a b : Rect) (v : Q) :
  overlaps_x (set_ry a v) b <-> overlaps_x a b.
Proof. reflexivity. Qed.


(* ================================================================== *)
(** * Binary64 rounding has the properties of [Rounds] *)
(* ================================================================== *)

(** ** Powers of two *)

Lemma pow2_pos (e : Z) : 0 < pow2 e.
Proof. unfold pow2. now apply Qpower_0_lt. Qed.

Lemma pow2_add (a b : Z) : pow2 (a + b) == pow2 a * pow2 b.
Proof. unfold pow2. apply Qpower_plus. discriminate. Qed.

Lemma pow2_le (a b : Z) : (a <= b)%Z -> pow2 a <= pow2 b.
Proof. intros Hab. unfold pow2. apply Qpower_le_compat_l; [exact Hab | discriminate]. Qed.

Lemma pow2_inject (n : Z) : (0 <= n)%Z -> pow2 n == inject_Z (2 ^ n).
Proof. intros Hn. unfold pow2. now rewrite Zpower_Qpower. Qed.

Lemma pow2_div (a b : Z) : pow2 a / pow2 b == pow2 (a - b).
Proof.
  pose proof (pow2_pos b) as Hb.
  assert (E : pow2 a == pow2 (a - b) * pow2 b).
  { rewrite <- pow2_add. now replace (a - b + b)%Z with a by ring. }
  rewrite E. field. lra.
Qed.

(** ** The exponent *)

(** [binade a] is the exponent of the last place of [a]: the
    significand [a / 2^e] has 53 bits. *)
Lemma binade_spec (a : Q) :
  0 < a -> pow2 (binade a + 52) <= a /\ a < pow2 (binade a + 53).
Proof.
  destruct a as [n d]. intros Hpos.
  assert (Hn : (0 < n)%Z).
  { unfold Qlt in Hpos. cbn in Hpos. lia. }
  unfold binade. cbn [Qnum Qden].
  set (ln := Z.log2 n). set (ld := Z.log2 (Z.pos d)).
  destruct (Z.log2_spec n Hn) as [Hn1 Hn2].
  destruct (Z.log2_spec (Z.pos d) ltac:(lia)) as [Hd1 Hd2].
  fold ln in Hn1, Hn2. fold ld in Hd1, Hd2.
  assert (Hln : (0 <= ln)%Z) by apply Z.log2_nonneg.
  assert (Hld : (0 <= ld)%Z) by apply Z.log2_nonneg.
  set (N := inject_Z n). set (D := inject_Z (Z.pos d)).
  assert (Ea : n # d == N / D) by apply Qmake_Qdiv.
  assert (HD : 0 < D) by (unfold D; change 0 with (inject_Z 0); rewrite <- Zlt_Qlt; lia).
  assert (QN1 : pow2 ln <= N).
  { rewrite (pow2_inject ln Hln). unfold N. now rewrite <- Zle_Qle. }
  assert (QN2 : N < pow2 (ln + 1)).
  { rewrite (pow2_inject (ln + 1)) by lia. unfold N. now rewrite <- Zlt_Qlt. }
  assert (QD1 : pow2 ld <= D).
  { rewrite (pow2_inject ld Hld). unfold D. now rewrite <- Zle_Qle. }
  assert (QD2 : D < pow2 (ld + 1)).
  { rewrite (pow2_inject (ld + 1)) by lia. unfold D. now rewrite <- Zlt_Qlt. }
  set (l := (ln - ld)%Z).
  assert (Hlo : pow2 (l - 1) < N / D).
  { apply Qlt_shift_div_l; [exact HD|].
    assert (E : pow2 ln == pow2 (l - 1) * pow2 (ld + 1)).
    { rewrite <- pow2_add. unfold l.
      now replace (ln - ld - 1 + (ld + 1))%Z with ln by ring. }
    pose proof (pow2_pos (l - 1)) as Hp.
    assert (M : pow2 (l - 1) * D < pow2 (l - 1) * pow2 (ld + 1))
      by (apply Qmult_lt_l; assumption).
    lra. }
  assert (Hhi : N / D < pow2 (l + 1)).
  { apply Qlt_shift_div_r; [exact HD|].
    assert (E : pow2 (ln + 1) == pow2 (l + 1) * pow2 ld).
    { rewrite <- pow2_add. unfold l.
      now replace (ln - ld + 1 + ld)%Z with (ln + 1)%Z by ring. }
    pose proof (pow2_pos (l + 1)) as Hp.
    assert (M : pow2 (l + 1) * pow2 ld <= pow2 (l + 1) * D)
      by (apply Qmult_le_l; assumption).
    lra. }
  set (q := N / D) in *. set (a := n # d) in *.
  destruct (Qcompare_spec (pow2 l) a) as [Hc|Hc|Hc].
  - replace (l - 52 + 52)%Z with l by ring.
    replace (l - 52 + 53)%Z with (l + 1)%Z by ring. lra.
  - replace (l - 52 + 52)%Z with l by ring.
    replace (l - 52 + 53)%Z with (l + 1)%Z by ring. lra.
  - replace (l - 53 + 52)%Z with (l - 1)%Z by ring.
    replace (l - 53 + 53)%Z with l by ring. lra.
Qed.

(** The significand. *)
Lemma significand_range (a : Q) :
  0 < a ->
  inject_Z (2 ^ 52) <= a / pow2 (binade a) /\
  a / pow2 (binade a) < inject_Z (2 ^ 53).
Proof.
  intros Hpos. destruct (binade_spec a Hpos) as [H1 H2].
  pose proof (pow2_pos (binade a)) as Hp.
  rewrite pow2_add in H1, H2.
  rewrite (pow2_inject 52) in H1 by discriminate.
  rewrite (pow2_inject 53) in H2 by discriminate.
  split.
  - apply Qle_shift_div_l; [exact Hp|]. lra.
  - apply Qlt_shift_div_r; [exact Hp|]. lra.
Qed.

(** ** The nearest integer *)

Lemma round_even_comp (p q : Q) : p == q -> round_even p = round_even q.
Proof.
  intros E. unfold round_even.
  assert (F : Qfloor p = Qfloor q) by now apply Qfloor_comp.
  rewrite F.
  assert (C : Qcompare (p - inject_Z (Qfloor q)) (1 # 2)
              = Qcompare (q - inject_Z (Qfloor q)) (1 # 2)).
  { apply Qcompare_comp; [rewrite E|]; reflexivity. }
  now rewrite C.
Qed.

Lemma round_even_Z (k : Z) : round_even (inject_Z k) = k.
Proof.
  unfold round_even. rewrite Qfloor_Z.
  assert (C : Qcompare (inject_Z k - inject_Z k) (1 # 2) = Qcompare 0 (1 # 2)).
  { apply Qcompare_comp; [ring | reflexivity]. }
  now rewrite C.
Qed.

Lemma round_even_mono (p q : Q) :
  p <= q -> (round_even p <= round_even q)%Z.
Proof.
  intros Hpq. unfold round_even.
  pose proof (Qfloor_le p) as P1. pose proof (Qlt_floor p) as P2.
  pose proof (Qfloor_le q) as Q1. pose proof (Qlt_floor q) as Q2.
  pose proof (Qfloor_resp_le p q Hpq) as Hf.
  rewrite inject_Z_plus in P2, Q2.
  change (inject_Z 1) with 1 in P2, Q2.
  remember (Qfloor p) as f1 eqn:E1. remember (Qfloor q) as f2 eqn:E2.
  clear E1 E2.
  destruct (Z.eq_dec f1 f2) as [E|NE].
  - rewrite <- E in *. clear E.
    destruct (Qcompare_spec (p - inject_Z f1) (1 # 2)) as [A|A|A];
      destruct (Qcompare_spec (q - inject_Z f1) (1 # 2)) as [B|B|B];
      destruct (Z.even f1); try lia; exfalso; lra.
  - destruct (Qcompare (p - inject_Z f1) (1 # 2));
      destruct (Qcompare (q - inject_Z f2) (1 # 2));
      destruct (Z.even f1); destruct (Z.even f2); lia.
Qed.

Lemma round_even_range (m : Q) :
  inject_Z (2 ^ 52) <= m -> m < inject_Z (2 ^ 53) ->
  (2 ^ 52 <= round_even m <= 2 ^ 53)%Z.
Proof.
  intros H1 H2. split.
  - rewrite <- (round_even_Z (2 ^ 52)). now apply round_even_mono.
  - rewrite <- (round_even_Z (2 ^ 53)). apply round_even_mono. lra.
Qed.

(** ** Rounding a positive number *)

Lemma fl64_pos_range (a : Q) :
  0 < a ->
  pow2 (binade a + 52) <= fl64_pos a /\ fl64_pos a <= pow2 (binade a + 53).
Proof.
  intros Hpos. destruct (significand_range a Hpos) as [M1 M2].
  destruct (round_even_range _ M1 M2) as [R1 R2].
  unfold fl64_pos. cbv zeta.
  set (r := round_even (a / pow2 (binade a))) in *.
  pose proof (pow2_pos (binade a)) as Hp.
  rewrite !pow2_add, (pow2_inject 52), (pow2_inject 53) by discriminate.
  rewrite Zle_Qle in R1, R2.
  split.
  - rewrite (Qmult_comm (pow2 (binade a))).
    apply Qmult_le_compat_r; [exact R1 | lra].
  - rewrite (Qmult_comm (pow2 (binade a))).
    apply Qmult_le_compat_r; [exact R2 | lra].
Qed.

Lemma fl64_pos_pos (a : Q) : 0 < a -> 0 < fl64_pos a.
Proof.
  intros Hpos. destruct (fl64_pos_range a Hpos) as [H1 _].
  pose proof (pow2_pos (binade a + 52)). lra.
Qed.

Lemma fl64_pos_mono (x y : Q) :
  0 < x -> x <= y -> fl64_pos x <= fl64_pos y.
Proof.
  intros Hx Hxy. assert (Hy : 0 < y) by lra.
  destruct (binade_spec x Hx) as [X1 X2].
  destruct (binade_spec y Hy) as [Y1 Y2].
  destruct (fl64_pos_range x Hx) as [RX1 RX2].
  destruct (fl64_pos_range y Hy) as [RY1 RY2].
  destruct (Z.lt_trichotomy (binade x) (binade y)) as [L|[E|G]].
  - assert (M : pow2 (binade x + 53) <= pow2 (binade y + 52))
      by (apply pow2_le; lia).
    lra.
  - unfold fl64_pos. cbv zeta. rewrite E.
    pose proof (pow2_pos (binade y)) as Hp.
    apply Qmult_le_compat_r; [|lra].
    rewrite <- Zle_Qle. apply round_even_mono.
    unfold Qdiv. apply Qmult_le_compat_r; [exact Hxy|].
    apply Qlt_le_weak, Qinv_lt_0_compat, Hp.
  - exfalso.
    assert (M : pow2 (binade y + 53) <= pow2 (binade x + 52))
      by (apply pow2_le; lia).
    lra.
Qed.

(** A number with a significand of at most 53 bits is left as it
    is. *)
Lemma fl64_pos_exact (k j : Z) (a : Q) :
  (0 < k < 2 ^ 53)%Z -> a == inject_Z k * pow2 j -> fl64_pos a == a.
Proof.
  intros [K0 K1] Ea.
  pose proof (pow2_pos j) as Hj.
  assert (Qk0 : 0 < inject_Z k)
    by (change 0 with (inject_Z 0); now rewrite <- Zlt_Qlt).
  assert (Qk1 : inject_Z k < pow2 53).
  { rewrite (pow2_inject 53) by discriminate. now rewrite <- Zlt_Qlt. }
  assert (Hpos : 0 < a).
  { rewrite Ea. now apply Qmult_lt_0_compat. }
  destruct (binade_spec a Hpos) as [B1 B2].
  set (e := binade a) in *.
  assert (Hej : (e <= j)%Z).
  { assert (L : pow2 (e + 52) < pow2 (53 + j)).
    { rewrite (pow2_add 53 j).
      assert (M : inject_Z k * pow2 j < pow2 53 * pow2 j)
        by (apply Qmult_lt_r; assumption).
      lra. }
    unfold pow2 in L. apply Qpower_lt_compat_l_inv in L; [lia | reflexivity]. }
  pose proof (pow2_pos e) as He.
  assert (Em : a / pow2 e == inject_Z (k * 2 ^ (j - e))).
  { rewrite inject_Z_mult, <- (pow2_inject (j - e)) by lia.
    rewrite <- pow2_div, Ea. field. lra. }
  unfold fl64_pos. cbv zeta. fold e.
  rewrite (round_even_comp _ _ Em), round_even_Z.
  rewrite <- Em. field. lra.
Qed.

(** The rounded number has a significand of at most 53 bits. *)
Lemma fl64_pos_repr (a : Q) :
  0 < a ->
  exists k j : Z, (0 < k < 2 ^ 53)%Z /\ fl64_pos a == inject_Z k * pow2 j.
Proof.
  intros Hpos. destruct (significand_range a Hpos) as [M1 M2].
  destruct (round_even_range _ M1 M2) as [R1 R2].
  unfold fl64_pos. cbv zeta.
  set (r := round_even (a / pow2 (binade a))) in *.
  destruct (Z.eq_dec r (2 ^ 53)) as [E|NE].
  - exists 1%Z, (53 + binade a)%Z. split; [split; [lia | reflexivity]|].
    rewrite E, pow2_add, (pow2_inject 53) by discriminate.
    change (inject_Z 1) with 1. ring.
  - exists r, (binade a). split; [|reflexivity].
    assert (C : (0 < 2 ^ 52)%Z) by reflexivity. lia.
Qed.

(** ** The four properties *)

Lemma fl64_mono (x y : Q) : x <= y -> fl64 x <= fl64 y.
Proof.
  intros Hxy. unfold fl64.
  destruct (Qcompare_spec x 0) as [X|X|X];
    destruct (Qcompare_spec y 0) as [Y|Y|Y]; try (exfalso; lra).
  - apply Qle_refl.
  - apply Qlt_le_weak, fl64_pos_pos, Y.
  - assert (P : 0 < fl64_pos (- x)) by (apply fl64_pos_pos; lra). lra.
  - assert (M : fl64_pos (- y) <= fl64_pos (- x))
      by (apply fl64_pos_mono; lra).
    lra.
  - assert (P : 0 < fl64_pos (- x)) by (apply fl64_pos_pos; lra).
    assert (R : 0 < fl64_pos y) by (apply fl64_pos_pos; lra). lra.
  - now apply fl64_pos_mono.
Qed.

Lemma fl64_int (z : Z) :
  (Z.abs z <= 2 ^ 53)%Z -> fl64 (inject_Z z) == inject_Z z.
Proof.
  intros Hz.
  assert (Hpos : forall k : Z, (0 < k <= 2 ^ 53)%Z ->
            forall a, a == inject_Z k -> fl64_pos a == a).
  { intros k [K0 K1] a Ea.
    destruct (Z.eq_dec k (2 ^ 53)) as [E|NE].
    - apply (fl64_pos_exact 1 53); [split; reflexivity|].
      rewrite Ea, E, (pow2_inject 53) by discriminate.
      change (inject_Z 1) with 1. ring.
    - apply (fl64_pos_exact k 0); [lia|].
      rewrite Ea. change (pow2 0) with 1. ring. }
  unfold fl64.
  destruct (Qcompare_spec (inject_Z z) 0) as [X|X|X].
  - symmetry. exact X.
  - change 0 with (inject_Z 0) in X. rewrite <- Zlt_Qlt in X.
    rewrite (Hpos (- z)%Z); [ring | lia |].
    now rewrite inject_Z_opp.
  - change 0 with (inject_Z 0) in X. rewrite <- Zlt_Qlt in X.
    apply (Hpos z); [lia | reflexivity].
Qed.

Lemma fl64_idem (x : Q) : fl64 (fl64 x) == fl64 x.
Proof.
  unfold fl64 at 2 3.
  destruct (Qcompare_spec x 0) as [X|X|X].
  - reflexivity.
  - assert (Hn : 0 < - x) by lra.
    pose proof (fl64_pos_pos _ Hn) as P.
    destruct (fl64_pos_repr _ Hn) as (k & j & Hk & Er).
    set (r := fl64_pos (- x)) in *.
    unfold fl64. destruct (Qcompare_spec (- r) 0) as [Y|Y|Y]; try (exfalso; lra).
    rewrite (fl64_pos_exact k j (- - r) Hk); [ring|].
    rewrite <- Er. ring.
  - pose proof (fl64_pos_pos _ X) as P.
    destruct (fl64_pos_repr _ X) as (k & j & Hk & Er).
    set (r := fl64_pos x) in *.
    unfold fl64. destruct (Qcompare_spec r 0) as [Y|Y|Y]; try (exfalso; lra).
    exact (fl64_pos_exact k j r Hk Er).
Qed.

Lemma fl64_positive (x : Q) : 0 < x -> 0 < fl64 x.
Proof.
  intros X. unfold fl64.
  destruct (Qcompare_spec x 0) as [Y|Y|Y]; try (exfalso; lra).
  now apply fl64_pos_pos.
Qed.

(** The arithmetic of binary64 is an arithmetic of [Rounds]. *)
Lemma double_rounds : @Rounds double_host.
Proof.
  split; cbn [rnd double_host].
  - exact fl64_mono.
  - exact fl64_int.
  - exact fl64_idem.
  - exact fl64_positive.
Qed.

(* ================================================================== *)
(** * The sweep in the arithmetic of the host *)
(* ================================================================== *)

(** With exact arithmetic the rounded sweep is the sweep. *)
Lemma sweep_loop_fl_exact (n : nat) (step : Q) (platforms : list Rect) :
  forall player pyF,
    @sweep_loop_fl rational_host n step player pyF platforms
    = sweep_loop n step player pyF platforms.
Proof.
  induction n as [|n IH]; intros player pyF; [reflexivity|].
  cbn [sweep_loop_fl sweep_loop]. cbv zeta.
  change (@fadd rational_host pyF step) with (pyF + step).
  change (@fadd rational_host (ry player) (rh player)) with (ry player + rh player).
  change (@lands_on_fl rational_host) with lands_on.
  change (@bumps_on_fl rational_host) with bumps_on.
  destruct (0 <? step).
  - destruct (find _ platforms); [reflexivity | apply IH].
  - destruct (find _ platforms); [reflexivity | apply IH].
Qed.

Lemma collideVerticalSweep_fl_exact (player : Rect) (pyF dy : Q)
    (platforms : list Rect) :
  @collideVerticalSweep_fl rational_host player pyF dy platforms
  = collideVerticalSweep player pyF dy platforms.
Proof.
  unfold collideVerticalSweep_fl, collideVerticalSweep.
  destruct (Qeq_bool dy 0); [reflexivity|]. cbv zeta.
  apply sweep_loop_fl_exact.
Qed.

#[export] Instance rational_rounds : @Rounds rational_host.
Proof.
  split; cbn; intros.
  - assumption.
  - reflexivity.
  - reflexivity.
  - assumption.
Qed.

Section Rounding.
Context `{HR : Rounds}.

Lemma rnd_comp (x y : Q) : x == y -> rnd x == rnd y.
Proof.
  intros E. apply Qle_antisym; apply rnd_mono; rewrite E; apply Qle_refl.
Qed.

Lemma rnd_le_int (x : Q) (z : Z) :
  (Z.abs z <= 2 ^ 53)%Z -> x <= inject_Z z -> rnd x <= inject_Z z.
Proof.
  intros Hz Hx. rewrite <- (rnd_int z Hz). now apply rnd_mono.
Qed.

Lemma rnd_ge_int (x : Q) (z : Z) :
  (Z.abs z <= 2 ^ 53)%Z -> inject_Z z <= x -> inject_Z z <= rnd x.
Proof.
  intros Hz Hx. rewrite <- (rnd_int z Hz). now apply rnd_mono.
Qed.

Lemma fadd_whole (a b : Z) :
  (Z.abs (a + b) <= 2 ^ 53)%Z ->
  fadd (inject_Z a) (inject_Z b) == inject_Z a + inject_Z b.
Proof.
  intros Hz. unfold fadd. rewrite <- inject_Z_plus.
  rewrite <- (rnd_int (a + b) Hz) at 2. apply rnd_comp.
  rewrite inject_Z_plus. reflexivity.
Qed.

Lemma fsub_whole (a b : Z) :
  (Z.abs (a - b) <= 2 ^ 53)%Z ->
  fsub (inject_Z a) (inject_Z b) == inject_Z a - inject_Z b.
Proof.
  intros Hz. unfold fsub.
  assert (E : inject_Z a - inject_Z b == inject_Z (a - b)).
  { unfold Z.sub. rewrite inject_Z_plus, inject_Z_opp. reflexivity. }
  rewrite (rnd_comp _ _ E), (rnd_int _ Hz). symmetry. exact E.
Qed.

(** ** The sub-steps *)

Lemma sweep_steps_fl_pos (dy : Q) : (1 <= sweep_steps_fl dy)%Z.
Proof.
  unfold sweep_steps_fl, fdiv.
  assert (H0 : 0 <= Qabs dy / 6).
  { unfold Qdiv. apply Qmult_le_0_compat; [apply Qabs_nonneg | discriminate]. }
  assert (H1 : inject_Z 0 <= rnd (Qabs dy / 6)).
  { apply rnd_ge_int; [discriminate | exact H0]. }
  assert (H2 : (Qfloor (inject_Z 0) <= Qfloor (rnd (Qabs dy / 6)))%Z)
    by (apply Qfloor_resp_le, H1).
  rewrite Qfloor_Z in H2. lia.
Qed.

Lemma sweep_step_fl_pos (dy : Q) : 0 < dy -> 0 < sweep_step_fl dy.
Proof.
  intros Hpos. pose proof (sweep_steps_fl_pos dy) as Hs.
  assert (Hk : 0 < inject_Z (sweep_steps_fl dy))
    by (change 0 with (inject_Z 0); rewrite <- Zlt_Qlt; lia).
  unfold sweep_step_fl, fdiv. apply rnd_pos.
  apply Qlt_shift_div_l; [exact Hk | lra].
Qed.

Lemma sweep_step_fl_range (dy : Q) :
  0 < dy -> dy <= inject_Z (2 ^ 50) ->
  0 < sweep_step_fl dy /\ sweep_step_fl dy <= 6.
Proof.
  intros Hpos Hbig.
  pose proof (sweep_steps_fl_pos dy) as Hs.
  assert (Ha : Qabs dy == dy) by (apply Qabs_pos; lra).
  set (q := Qabs dy / 6).
  assert (Hq : q == dy * (1 # 6)) by (unfold q, Qdiv; rewrite Ha; reflexivity).
  assert (Hq0 : 0 <= q) by lra.
  (* the count exceeds the exact quotient *)
  assert (Hf : (Qfloor q <= Qfloor (rnd q))%Z).
  { assert (Hfz : (Z.abs (Qfloor q) <= 2 ^ 53)%Z).
    { assert (A : (0 <= Qfloor q)%Z).
      { change 0%Z with (Qfloor 0). now apply Qfloor_resp_le. }
      assert (B : (Qfloor q <= 2 ^ 50)%Z).
      { rewrite Zle_Qle. pose proof (Qfloor_le q). lra. }
      assert (C : (2 ^ 50 <= 2 ^ 53)%Z) by discriminate.
      lia. }
    pose proof (rnd_ge_int q (Qfloor q) Hfz (Qfloor_le q)) as Hr.
    apply Qfloor_resp_le in Hr. now rewrite Qfloor_Z in Hr. }
  assert (Hn : q < inject_Z (sweep_steps_fl dy)).
  { unfold sweep_steps_fl, fdiv. fold q.
    pose proof (Qlt_floor q) as Hlt.
    assert (Hle : inject_Z (Qfloor q + 1) <= inject_Z (Qfloor (rnd q) + 1))
      by (rewrite <- Zle_Qle; lia).
    lra. }
  assert (Hk : 0 < inject_Z (sweep_steps_fl dy))
    by (change 0 with (inject_Z 0); rewrite <- Zlt_Qlt; lia).
  unfold sweep_step_fl, fdiv. split.
  - apply rnd_pos. apply Qlt_shift_div_l; [exact Hk | lra].
  - change 6 with (inject_Z 6). apply rnd_le_int; [discriminate|].
    apply Qle_shift_div_r; [exact Hk|]. change (inject_Z 6) with 6. lra.
Qed.

(** ** What the loop reports *)

Lemma sweep_loop_fl_down (n : nat) (step : Q) (platforms : list Rect) :
  0 < step ->
  forall player pyF,
    bumped (snd (sweep_loop_fl n step player pyF platforms)) = false /\
    (landed (snd (sweep_loop_fl n step player pyF platforms)) = false ->
     pyFloat (snd (sweep_loop_fl n step player pyF platforms)) = drift n step pyF /\
     (n <> O ->
      ry (fst (sweep_loop_fl n step player pyF platforms))
      = floor (drift n step pyF))).
Proof.
  intros Hs. apply ltb_lt in Hs.
  induction n as [|n IH]; intros player pyF; cbn [sweep_loop_fl drift].
  - cbn. repeat split. congruence.
  - cbv zeta. rewrite Hs.
    destruct (find _ platforms).
    + cbn. split; [reflexivity | discriminate].
    + destruct (IH (set_ry player (floor (fadd pyF step))) (fadd pyF step))
        as [Hb Hfree].
      split; [exact Hb|]. intros Hl. destruct (Hfree Hl) as [E1 E2].
      split; [exact E1|]. intros _.
      destruct n as [|n]; [reflexivity | apply E2; discriminate].
Qed.

(** ** One-way platforms seen from below *)

(** A platform whose top is above the player's bottom edge is invisible
    to a downward sweep: the bottom edge does not come back up. *)
Lemma sweep_loop_fl_skip (P : Rect) (l1 l2 : list Rect) (n : nat) (step : Q) :
  0 < step ->
  forall player pyF,
    rnd pyF == pyF ->
    synced player pyF ->
    ry P < fadd (ry player) (rh player) ->
    sweep_loop_fl n step player pyF (l1 ++ P :: l2)
    = sweep_loop_fl n step player pyF (l1 ++ l2).
Proof.
  intros Hs. induction n as [|n IH]; intros player pyF Hd Hsync Hbelow;
    cbn [sweep_loop_fl]; [reflexivity|].
  cbv zeta.
  pose proof Hs as Hsb. apply ltb_lt in Hsb. rewrite Hsb.
  rewrite find_skip.
  - destruct (find _ (l1 ++ l2)); [reflexivity|].
    apply IH.
    + apply rnd_idem.
    + reflexivity.
    + cbn [ry rh set_ry].
      assert (Hup : pyF <= fadd pyF step).
      { unfold fadd. rewrite <- Hd at 1. apply rnd_mono. lra. }
      set (a := fadd pyF step) in *.
      assert (Hfl : floor pyF <= floor a) by (apply floor_mono, Hup).
      unfold synced in Hsync. rewrite Hsync in Hbelow.
      assert (Hm : fadd (floor pyF) (rh player) <= fadd (floor a) (rh player)).
      { unfold fadd. apply rnd_mono. lra. }
      lra.
  - unfold lands_on_fl. apply andb_false_iff. right. apply leb_gt. exact Hbelow.
Qed.

(** C2 (as the code has it).  A downward sweep ([dy > 0]) that is
    entered with the rectangle in step with the float position
    ([player.y = floor(pyFloat)], as at the call in [playUpdate]) never
    catches the player on a platform [P] whose top edge is already
    above the player's bottom edge ([previous bottom > P.y], the bottom
    as the code computes it): wherever [P] stands in the platform list,
    the call returns what it returns without [P]; and when no other
    platform triggers, every sub-step is applied, the call returns
    [landed = bumped = false], the float position that the sub-steps
    have accumulated, and the rectangle at its floor.  The arithmetic
    is that of the host: [pyFloat] is a double, and the result holds
    for every rounding with the properties of [Rounds]. *)
Theorem one_way_from_below (player P : Rect) (pyF dy : Q)
    (l1 l2 : list Rect) :
  0 < dy ->
  rnd pyF == pyF ->
  synced player pyF ->
  ry P < fadd (ry player) (rh player) ->
  collideVerticalSweep_fl player pyF dy (l1 ++ P :: l2)
  = collideVerticalSweep_fl player pyF dy (l1 ++ l2) /\
  (landed (snd (collideVerticalSweep_fl player pyF dy (l1 ++ l2))) = false ->
   let out := collideVerticalSweep_fl player pyF dy (l1 ++ P :: l2) in
   landed (snd out) = false /\ bumped (snd out) = false /\
   pyFloat (snd out) = sweep_end pyF dy /\
   ry (fst out) = floor (sweep_end pyF dy)).
Proof.
  intros Hdy Hd Hsync Hbelow.
  pose proof (sweep_step_fl_pos dy Hdy) as Hs.
  assert (Heq : collideVerticalSweep_fl player pyF dy (l1 ++ P :: l2)
                = collideVerticalSweep_fl player pyF dy (l1 ++ l2)).
  { unfold collideVerticalSweep_fl. destruct (Qeq_bool dy 0); [reflexivity|].
    now apply sweep_loop_fl_skip. }
  split; [exact Heq|].
  intros Hl. cbv zeta. rewrite Heq. revert Hl.
  unfold collideVerticalSweep_fl, sweep_end.
  destruct (Qeq_bool dy 0) eqn:E0; [apply Qeq_bool_iff in E0; lra|].
  intros Hl.
  destruct (sweep_loop_fl_down (Z.to_nat (sweep_steps_fl dy)) (sweep_step_fl dy)
              (l1 ++ l2) Hs player pyF) as [Hb Hfree].
  destruct (Hfree Hl) as [E1 E2].
  repeat split; try assumption.
  apply E2. pose proof (sweep_steps_fl_pos dy). lia.
Qed.

(** ** Landing on a platform from above *)

(** One sub-step of at most 6 moves the rectangle down by at most 7
    pixels and never up. *)
Lemma floor_fadd_step (pyF step : Q) :
  (Z.abs (Qfloor pyF) <= 2 ^ 52)%Z -> 0 < step -> step <= 6 ->
  (Qfloor pyF <= Qfloor (fadd pyF step) <= Qfloor pyF + 7)%Z.
Proof.
  intros Hz H0 H6.
  assert (C : (2 ^ 52 + 7 <= 2 ^ 53)%Z) by discriminate.
  split.
  - assert (Hb : inject_Z (Qfloor pyF) <= fadd pyF step).
    { apply rnd_ge_int; [lia|]. pose proof (Qfloor_le pyF). lra. }
    apply Qfloor_resp_le in Hb. now rewrite Qfloor_Z in Hb.
  - assert (Hb : fadd pyF step <= inject_Z (Qfloor pyF + 7)).
    { apply rnd_le_int; [lia|]. pose proof (Qlt_floor pyF) as Hlt.
      rewrite inject_Z_plus in Hlt |- *.
      change (inject_Z 1) with 1 in Hlt. change (inject_Z 7) with 7. lra. }
    apply Qfloor_resp_le in Hb. now rewrite Qfloor_Z in Hb.
Qed.

Section LandingFl.
Variables (P : Rect) (platforms : list Rect) (step : Q) (zh zp zq : Z).
Hypothesis step_pos : 0 < step.
Hypothesis step_small : step <= 6.
Hypothesis P_listed : In P platforms.
Hypothesis P_top : ry P = inject_Z zp.
Hypothesis P_height : rh P = inject_Z zq.
Hypothesis zh_small : (Z.abs zh <= 2 ^ 50)%Z.
Hypothesis zp_small : (Z.abs zp <= 2 ^ 50)%Z.
Hypothesis zq_small : (Z.abs zq <= 2 ^ 50)%Z.
Hypothesis thick : (7 < zh + zq)%Z.

(** The loop lands on [P]'s top in the first sub-step that takes the
    bottom edge past it. *)
Lemma sweep_loop_fl_lands (n : nat) :
  forall player pyF,
    synced player pyF ->
    rh player = inject_Z zh ->
    (- 2 ^ 50 <= Qfloor pyF)%Z ->
    overlaps_x_fl player P ->
    (forall p, In p platforms -> overlaps_x_fl player p -> ry p = ry P) ->
    (Qfloor pyF + zh <= zp)%Z ->
    (zp < Qfloor (drift n step pyF) + zh)%Z ->
    sweep_loop_fl n step player pyF platforms
    = (set_ry player (fsub (ry P) (rh player)),
       mkSweep (fsub (ry P) (rh player)) true false).
Proof.
  assert (C50 : (2 ^ 50 + 2 ^ 50 + 7 <= 2 ^ 52)%Z) by discriminate.
  assert (C52 : (2 ^ 52 + 2 ^ 50 + 7 <= 2 ^ 53)%Z) by discriminate.
  induction n as [|n IH]; intros player pyF Hsync Hh Hlow Hx Hsame Hprev Hnew.
  - cbn [drift] in Hnew. lia.
  - cbn [sweep_loop_fl]. cbv zeta.
    pose proof step_pos as Hs. apply ltb_lt in Hs. rewrite Hs. clear Hs.
    unfold synced in Hsync.
    destruct (floor_fadd_step pyF step ltac:(lia) step_pos step_small)
      as [Hup Hjump].
    set (acc := fadd pyF step) in *.
    set (player' := set_ry player (floor acc)).
    (* the sums of whole pixels that the tests compute are exact *)
    assert (Eprev : fadd (ry player) (rh player)
                    == inject_Z (Qfloor pyF) + inject_Z zh).
    { rewrite Hsync, Hh. unfold floor. apply fadd_whole. lia. }
    assert (Enew : fadd (ry player') (rh player')
                   == inject_Z (Qfloor acc) + inject_Z zh).
    { subst player'. cbn [ry rh set_ry]. rewrite Hh. unfold floor.
      apply fadd_whole. lia. }
    assert (EP : fadd (ry P) (rh P) == inject_Z zp + inject_Z zq).
    { rewrite P_top, P_height. apply fadd_whole. lia. }
    assert (Qprev : inject_Z (Qfloor pyF) + inject_Z zh <= inject_Z zp)
      by (rewrite <- inject_Z_plus, <- Zle_Qle; exact Hprev).
    destruct (Z_lt_le_dec zp (Qfloor acc + zh)) as [Hcross|Hnot].
    + (* the bottom edge has passed the top of [P] in this sub-step *)
      assert (Qcross : inject_Z zp < inject_Z (Qfloor acc) + inject_Z zh)
        by (rewrite <- inject_Z_plus, <- Zlt_Qlt; exact Hcross).
      assert (Qin : inject_Z (Qfloor acc) < inject_Z zp + inject_Z zq)
        by (rewrite <- inject_Z_plus, <- Zlt_Qlt; lia).
      assert (HP : lands_on_fl player' (fadd (ry player) (rh player)) P = true).
      { unfold lands_on_fl, colliderect_fl. destruct Hx as [X1 X2].
        apply andb_true_intro. split; [|apply leb_le; rewrite P_top; lra].
        repeat (apply andb_true_intro; split); apply ltb_lt.
        - exact X1.
        - exact X2.
        - subst player'. cbn [ry set_ry]. unfold floor. lra.
        - rewrite P_top. lra. }
      destruct (find _ platforms) as [p|] eqn:Ef.
      * apply find_some in Ef. destruct Ef as [Hin Hp].
        unfold lands_on_fl in Hp. apply andb_prop in Hp. destruct Hp as [Hc _].
        assert (Hox : overlaps_x_fl player p).
        { unfold colliderect_fl in Hc. cmp_hyps. split; assumption. }
        rewrite (Hsame p Hin Hox). reflexivity.
      * pose proof (find_none _ _ Ef P P_listed) as Hno. congruence.
    + (* still above: no platform of this column can have triggered *)
      assert (Qnot : inject_Z (Qfloor acc) + inject_Z zh <= inject_Z zp)
        by (rewrite <- inject_Z_plus, <- Zle_Qle; exact Hnot).
      destruct (find _ platforms) as [p|] eqn:Ef.
      * exfalso. apply find_some in Ef. destruct Ef as [Hin Hp].
        unfold lands_on_fl in Hp. apply andb_prop in Hp. destruct Hp as [Hc _].
        assert (Hox : overlaps_x_fl player p).
        { unfold colliderect_fl in Hc. cmp_hyps. split; assumption. }
        pose proof (Hsame p Hin Hox) as Htop.
        unfold colliderect_fl in Hc. cmp_hyps.
        rewrite Htop, P_top in *. lra.
      * apply (IH player' acc).
        -- reflexivity.
        -- exact Hh.
        -- lia.
        -- exact Hx.
        -- exact Hsame.
        -- exact Hnot.
        -- exact Hnew.
Qed.
End LandingFl.

(** C1 (as the code has it).  Let [P] be a platform of the list that the
    player overlaps horizontally, with every listed platform of that
    column having its top where [P] has it; let the player's top and
    height and [P]'s top and height be whole numbers of pixels, with
    [player.h + P.h > 7], so that one sub-step cannot carry the player
    past [P]; and let the player enter in step with the float position,
    with its bottom edge at or above [P]'s top.  If the displacement,
    as the sub-steps accumulate it in the arithmetic of the host,
    carries the bottom edge strictly past [P]'s top, the sweep returns
    [landed = true], [bumped = false] and leaves the player resting on
    [P]: [player.y = pyFloat = P.y - player.h].  In exact arithmetic the
    accumulated position is [pyFloat + dy]; in doubles it can fall just
    short of it ([sweep_end_falls_short]). *)
Theorem sweep_lands_on_top (player P : Rect) (pyF dy : Q)
    (platforms : list Rect) :
  0 < dy -> dy <= inject_Z (2 ^ 50) ->
  synced player pyF ->
  In P platforms ->
  pixel (ry player) -> pixel (rh player) -> pixel (ry P) -> pixel (rh P) ->
  overlaps_x_fl player P ->
  (forall p, In p platforms -> overlaps_x_fl player p -> ry p = ry P) ->
  7 < rh player + rh P ->
  ry player + rh player <= ry P ->
  ry P < floor (sweep_end pyF dy) + rh player ->
  let out := collideVerticalSweep_fl player pyF dy platforms in
  landed (snd out) = true /\ bumped (snd out) = false /\
  ry (fst out) == ry P - rh player /\
  pyFloat (snd out) = ry (fst out) /\
  ry (fst out) + rh (fst out) == ry P.
Proof.
  intros Hdy Hbig Hsync Hin (zy & Ey & By) (zh & Eh & Bh) (zp & Ep & Bp)
    (zq & Eq & Bq) Hx Hsame Hthick Hprev Hnew. cbv zeta.
  destruct (sweep_step_fl_range dy Hdy Hbig) as [Hs0 Hs6].
  assert (Ef : Qfloor pyF = zy).
  { unfold synced, floor in Hsync. rewrite Ey in Hsync.
    apply (f_equal Qfloor) in Hsync. now rewrite !Qfloor_Z in Hsync. }
  unfold collideVerticalSweep_fl.
  destruct (Qeq_bool dy 0) eqn:E0; [apply Qeq_bool_iff in E0; lra|].
  rewrite (sweep_loop_fl_lands P platforms (sweep_step_fl dy) zh zp zq);
    try assumption.
  - cbn [fst snd landed bumped pyFloat ry rh set_ry].
    assert (E : fsub (ry P) (rh player) == ry P - rh player).
    { rewrite Ep, Eh. apply fsub_whole.
      assert (C : (2 ^ 50 + 2 ^ 50 <= 2 ^ 53)%Z) by discriminate. lia. }
    repeat split; try reflexivity; [exact E | rewrite E; ring].
  - rewrite Eh, Eq in Hthick. rewrite <- inject_Z_plus in Hthick.
    change 7 with (inject_Z 7) in Hthick. now rewrite <- Zlt_Qlt in Hthick.
  - rewrite Ef. lia.
  - rewrite Ef. rewrite Ey, Eh, Ep in Hprev.
    rewrite <- inject_Z_plus in Hprev. now rewrite <- Zle_Qle in Hprev.
  - unfold sweep_end, floor in Hnew. rewrite Ep, Eh in Hnew.
    rewrite <- inject_Z_plus in Hnew. now rewrite <- Zlt_Qlt in Hnew.
Qed.
End Rounding.

(** In binary64: from 300 the three sub-steps of [14 / 3] end just
    above 314, the bottom edge two pixels into the platform at 370, and
    the player is set down on it. *)
Lemma sweep_lands_on_top_starter :
  let player := rect 160 300 44 58 in
  let P := rect 100 370 200 20 in
  let out := @collideVerticalSweep_fl double_host player 300 14
               [P; rect 2300 340 200 20] in
  landed (snd out) = true /\ bumped (snd out) = false /\
  ry (fst out) == 370 - 58 /\ pyFloat (snd out) = ry (fst out) /\
  ry (fst out) + rh (fst out) == 370.
Proof.
  apply (@sweep_lands_on_top double_host double_rounds
           (rect 160 300 44 58) (rect 100 370 200 20)
           300 14 [rect 100 370 200 20; rect 2300 340 200 20]).
  - reflexivity.
  - discriminate.
  - reflexivity.
  - left. reflexivity.
  - exists 300%Z. split; [reflexivity | discriminate].
  - exists 58%Z. split; [reflexivity | discriminate].
  - exists 370%Z. split; [reflexivity | discriminate].
  - exists 20%Z. split; [reflexivity | discriminate].
  - split; vm_compute; reflexivity.
  - intros p [<-|[<-|[]]] [H1 H2]; [reflexivity|].
    vm_compute in H1. discriminate.
  - reflexivity.
  - discriminate.
  - vm_compute. reflexivity.
Defined.

(** C1 as stated fails when the displacement brings the bottom edge
    exactly onto [P]'s top: [colliderect] needs a strict overlap, so the
    sweep applies the displacement and reports no landing.  The
    arithmetic is that of binary64. *)
Lemma sweep_touching_does_not_land :
  let player := rect 160 300 44 58 in
  let P := rect 100 360 200 20 in
  let out := @collideVerticalSweep_fl double_host player 300 2 [P] in
  0 < 2 /\ In P [P] /\ @overlaps_x_fl double_host player P /\
  ry player + rh player <= ry P /\
  ry P <= (300 + 2) + rh player /\
  ry P <= floor (@sweep_end double_host 300 2) + rh player /\
  landed (snd out) = false /\ ry (fst out) == 302.
Proof.
  cbv zeta. split; [reflexivity|]. split; [left; reflexivity|].
  split; [split; vm_compute; reflexivity|].
  split; [discriminate|]. split; [discriminate|].
  split; [vm_compute; discriminate|].
  split; vm_compute; reflexivity.
Qed.

(** It fails as well where the exact displacement would cross but the
    accumulated one does not: three sub-steps of [13 / 3] from 300 end
    at [312.99999999999994], the rectangle at 312 with its bottom on
    [P]'s top at 370, and nothing is reported. *)
Example sweep_end_falls_short :
  let player := rect 160 300 44 58 in
  let P := rect 100 370 200 20 in
  let out := @collideVerticalSweep_fl double_host player 300 13 [P] in
  ry P < floor (300 + 13) + rh player /\
  @sweep_end double_host 300 13 < 313 /\
  floor (@sweep_end double_host 300 13) == 312 /\
  landed (snd out) = false /\ ry (fst out) == 312.
Proof.
  cbv zeta. split; [reflexivity|].
  split; [vm_compute; reflexivity|].
  split; vm_compute; try reflexivity. split; reflexivity.
Qed.

(** Further inputs on which the unamended statement fails: a second
    platform of the same column is reached first, and a player thin
    enough to be carried past a thin platform by one sub-step. *)
Example sweep_lands_on_first_crossed :
  let player := rect 160 300 44 58 in
  let P := rect 100 362 200 20 in
  let Q0 := rect 150 360 200 20 in
  let out := @collideVerticalSweep_fl double_host player 300 5 [Q0; P] in
  landed (snd out) = true /\ ry (fst out) + rh (fst out) == ry Q0 /\
  ~ ry (fst out) + rh (fst out) == ry P.
Proof.
  cbv zeta. split; [vm_compute; reflexivity|].
  split; [vm_compute; reflexivity|]. vm_compute. discriminate.
Qed.

Example sweep_thin_player_tunnels :
  let player := rect 160 300 44 1 in
  let P := rect 100 302 200 1 in
  let out := @collideVerticalSweep_fl double_host player 300 (11 # 2) [P] in
  ry player + rh player <= ry P /\
  ry P < floor (@sweep_end double_host 300 (11 # 2)) + rh player /\
  landed (snd out) = false.
Proof.
  cbv zeta. split; [discriminate|].
  split; vm_compute; reflexivity.
Qed.

(** In binary64: a player whose bottom edge is 18 pixels inside a
    platform falls on through it. *)
Lemma one_way_from_below_inside_platform :
  let player := rect 160 380 44 58 in
  let P := rect 100 420 300 24 in
  let out := @collideVerticalSweep_fl double_host player 380 20 [P] in
  landed (snd out) = false /\ bumped (snd out) = false /\
  pyFloat (snd out) = @sweep_end double_host 380 20 /\
  ry (fst out) = floor (@sweep_end double_host 380 20).
Proof.
  destruct (@one_way_from_below double_host double_rounds
              (rect 160 380 44 58) (rect 100 420 300 24) 380 20 [] [])
    as [_ Hfree].
  - reflexivity.
  - vm_compute. reflexivity.
  - reflexivity.
  - vm_compute. reflexivity.
  - apply Hfree. vm_compute. reflexivity.
Defined.

(** C2 as stated fails for a call whose rectangle is not where the
    float position has it: the first sub-step moves the rectangle to
    the float position, above [P], and a later one lands it on [P],
    although its bottom edge was below [P]'s top when the call was
    made.  [playUpdate] makes no such call. *)
Lemma sweep_out_of_step_lands_from_below :
  let player := rect 160 380 44 58 in
  let P := rect 100 420 300 24 in
  let out := @collideVerticalSweep_fl double_host player 357 12 [P] in
  0 < 12 /\ ry P < ry player + rh player /\
  ~ synced player 357 /\
  landed (snd out) = true /\ ry (fst out) == 362 /\
  ry (fst out) + rh (fst out) == ry P.
Proof.
  cbv zeta. split; [reflexivity|]. split; [reflexivity|].
  split; [unfold synced; vm_compute; discriminate|].
  split; [vm_compute; reflexivity|].
  split; vm_compute; reflexivity.
Qed.

(** ** Random integers *)

Lemma integral_inject (z : Z) : integral (inject_Z z).
Proof. unfold integral. now rewrite floor_inject. Qed.

Lemma integral_floor (v : Q) : integral (floor v).
Proof. apply integral_inject. Qed.

Lemma integral_plus (u v : Q) : integral u -> integral v -> integral (u + v).
Proof.
  unfold integral. intros Hu Hv.
  rewrite (floor_comp (u + v) (inject_Z (Qfloor u + Qfloor v))).
  - rewrite floor_inject, inject_Z_plus. unfold floor in Hu, Hv.
    now rewrite Hu, Hv.
  - rewrite inject_Z_plus. unfold floor in Hu, Hv. now rewrite Hu, Hv.
Qed.

Lemma floor_nonneg (v : Q) : 0 <= v -> 0 <= floor v.
Proof. intros H. apply (floor_mono 0 v H). Qed.

Lemma randi_ge (a b : Q) (d : Draw) : a <= b -> a <= randi a b d.
Proof.
  intros Hab. unfold randi.
  destruct (drange d) as [H0 H1].
  assert (Hp : 0 <= d * (b - a + 1)) by (apply Qmult_le_0_compat; lra).
  pose proof (floor_nonneg _ Hp). lra.
Qed.

Lemma randi_integral (a b : Q) (d : Draw) : integral a -> integral (randi a b d).
Proof.
  intros Ha. unfold randi. apply integral_plus; [exact Ha | apply integral_floor].
Qed.

(** [randi(a, b)] returns an integer of [a..b] for integers [a <= b]. *)
Lemma randi_range (a b : Z) (d : Draw) :
  (a <= b)%Z ->
  inject_Z a <= randi (inject_Z a) (inject_Z b) d <= inject_Z b.
Proof.
  intros Hab. split.
  - apply randi_ge. now rewrite <- Zle_Qle.
  - unfold randi, floor.
    destruct (drange d) as [H0 H1].
    set (k := inject_Z b - inject_Z a + 1).
    assert (Hk : 0 < k) by (subst k; rewrite Zle_Qle in Hab; lra).
    assert (Hlt : d * k < k).
    { assert (E : k - d * k == (1 - d) * k) by ring.
      assert (0 < (1 - d) * k) by (apply Qmult_lt_0_compat; lra). lra. }
    assert (Hz : (Qfloor (d * k) < b - a + 1)%Z).
    { rewrite Zlt_Qlt. pose proof (Qfloor_le (d * k)).
      subst k. rewrite !inject_Z_plus.
      unfold Zminus. rewrite inject_Z_plus, inject_Z_opp.
      change (inject_Z 1) with 1. lra. }
    assert (Hz' : (Qfloor (d * k) <= b - a)%Z) by lia.
    rewrite Zle_Qle in Hz'. unfold Zminus in Hz'.
    rewrite inject_Z_plus, inject_Z_opp in Hz'. lra.
Qed.

(** ** The generation frontier *)

Section Generator.
Context `{HostMath}.

Lemma spawnChunk_frontier (d : ChunkDraws) (r : Run) :
  next_spawn_x (spawnChunk d r)
  = rx (chunk_platform d r) + rw (chunk_platform d r)
    + randi MIN_GAP MAX_GAP (d_gap d).
Proof. reflexivity. Qed.

Lemma spawnChunk_cam_x (d : ChunkDraws) (r : Run) :
  cam_x (spawnChunk d r) = cam_x r.
Proof.
  unfold spawnChunk. cbv zeta.
  destruct (d_haz d <? _), (d_coin d <? _); reflexivity.
Qed.

Lemma chunk_platform_width (d : ChunkDraws) (r : Run) :
  PLATFORM_MIN_W <= rw (chunk_platform d r) <= PLATFORM_MAX_W.
Proof.
  cbn [chunk_platform rw].
  pose proof (randi_range 160 380 (d_w d) ltac:(lia)) as [H1 H2].
  change (inject_Z 160) with PLATFORM_MIN_W in *.
  change (inject_Z 380) with PLATFORM_MAX_W in *.
  assert (Hi : integral (randi PLATFORM_MIN_W PLATFORM_MAX_W (d_w d)))
    by (apply randi_integral, (integral_inject 160)).
  unfold integral in Hi. rewrite Hi. split; assumption.
Qed.

(** Every chunk moves the frontier forward, by more than 309 pixels. *)
Lemma spawnChunk_advances (d : ChunkDraws) (r : Run) :
  next_spawn_x r + 309 < next_spawn_x (spawnChunk d r).
Proof.
  rewrite spawnChunk_frontier.
  pose proof (chunk_platform_width d r) as [Hw _].
  pose proof (randi_ge MIN_GAP MAX_GAP (d_gap d)) as Hg.
  assert (Hx : next_spawn_x r < rx (chunk_platform d r) + 1)
    by apply floor_lt.
  unfold PLATFORM_MIN_W, MIN_GAP, MAX_GAP in *. lra.
Qed.

(** From a whole-pixel frontier, by at least the smallest platform
    plus the smallest gap, to a whole-pixel frontier again. *)
Lemma spawnChunk_advances_integral (d : ChunkDraws) (r : Run) :
  integral (next_spawn_x r) ->
  next_spawn_x r + (PLATFORM_MIN_W + MIN_GAP) <= next_spawn_x (spawnChunk d r) /\
  integral (next_spawn_x (spawnChunk d r)).
Proof.
  intros Hi. rewrite spawnChunk_frontier. split.
  - pose proof (chunk_platform_width d r) as [Hw _].
    pose proof (randi_ge MIN_GAP MAX_GAP (d_gap d)) as Hg.
    assert (Hx : rx (chunk_platform d r) == next_spawn_x r) by exact Hi.
    unfold PLATFORM_MIN_W, MIN_GAP, MAX_GAP in *. lra.
  - apply integral_plus; [apply integral_plus|].
    + apply integral_floor.
    + apply integral_floor.
    + apply randi_integral, (integral_inject 150).
Qed.

Lemma spawn_while_enough (fuel : nat) (camX : Q) (draws : nat -> ChunkDraws) :
  forall k r,
    camX + WIDTH * 2.2 - next_spawn_x r <= 309 * inject_Z (Z.of_nat fuel) ->
    exists r',
      spawn_while fuel camX draws k r = Some r' /\
      camX + WIDTH * 2.2 <= next_spawn_x r' /\
      cam_x r' = cam_x r /\
      (integral (next_spawn_x r) -> integral (next_spawn_x r')).
Proof.
  induction fuel as [|fuel IH]; intros k r Hb.
  - cbn [spawn_while].
    destruct (next_spawn_x r <? camX + WIDTH * 2.2) eqn:E.
    + apply ltb_lt in E. change (inject_Z (Z.of_nat 0)) with 0 in Hb. lra.
    + apply ltb_ge in E. exists r. auto.
  - cbn [spawn_while].
    destruct (next_spawn_x r <? camX + WIDTH * 2.2) eqn:E.
    + pose proof (spawnChunk_advances (draws k) r) as Ha.
      destruct (IH (S k) (spawnChunk (draws k) r)) as (r' & E1 & E2 & E3 & E4).
      * rewrite Nat2Z.inj_succ in Hb. unfold Z.succ in Hb.
        rewrite inject_Z_plus in Hb. change (inject_Z 1) with 1 in Hb. lra.
      * exists r'. repeat split; try assumption.
        -- now rewrite E3, spawnChunk_cam_x.
        -- intros Hi. now apply E4, spawnChunk_advances_integral.
    + apply ltb_ge in E. exists r. auto.
Qed.

Lemma spawn_while_more_fuel (fuel : nat) (camX : Q) (draws : nat -> ChunkDraws) :
  forall k r r', spawn_while fuel camX draws k r = Some r' ->
  forall fuel', (fuel <= fuel')%nat -> spawn_while fuel' camX draws k r = Some r'.
Proof.
  induction fuel as [|fuel IH]; intros k r r' E fuel' Hle.
  - cbn [spawn_while] in E.
    destruct fuel'; cbn [spawn_while];
      destruct (next_spawn_x r <? _); congruence.
  - destruct fuel' as [|fuel']; [lia|].
    cbn [spawn_while] in *.
    destruct (next_spawn_x r <? _); [|exact E].
    apply (IH _ _ _ E). lia.
Qed.

Lemma spawn_budget_enough (camX : Q) (r : Run) :
  camX + WIDTH * 2.2 - next_spawn_x r
  <= 309 * inject_Z (Z.of_nat (spawn_budget camX r)).
Proof.
  unfold spawn_budget.
  set (D := camX + WIDTH * 2.2 - next_spawn_x r).
  pose proof (Qle_ceiling (D / 309)) as Hc.
  set (c := Qceiling (D / 309)) in *.
  assert (Hz : (c <= Z.of_nat (Z.to_nat c))%Z) by lia.
  rewrite Zle_Qle in Hz.
  unfold Qdiv in Hc. change (/ 309) with (1 # 309) in Hc. lra.
Qed.

(** C4. [ensureGenerationAhead] returns, with the frontier
    [next_spawn_x] at [cam_x + 2.2 * GAME_W] or beyond: its loop run
    with any sufficient number of iterations allowed ends in the state
    the function returns.  The loop ends because every [spawnChunk]
    moves the frontier forward, by at least
    [PLATFORM_MIN_W + MIN_GAP] from a whole-pixel frontier (which the
    frontier always is: [newRunState] sets it to 2300 and [spawnChunk]
    to a sum of floors). *)
Theorem generation_reaches_horizon (draws : nat -> ChunkDraws) (r : Run) :
  let r' := ensureGenerationAhead draws r in
  (exists n, forall fuel, (n <= fuel)%nat ->
     spawn_while fuel (cam_x r) draws 0 r = Some r') /\
  cam_x r' = cam_x r /\
  cam_x r' + 2.2 * GAME_W <= next_spawn_x r' /\
  (forall d r0, next_spawn_x r0 < next_spawn_x (spawnChunk d r0)) /\
  (forall d r0, integral (next_spawn_x r0) ->
     next_spawn_x r0 + (PLATFORM_MIN_W + MIN_GAP)
       <= next_spawn_x (spawnChunk d r0) /\
     integral (next_spawn_x (spawnChunk d r0))) /\
  (forall sv, integral (next_spawn_x (newRunState sv))) /\
  (integral (next_spawn_x r) -> integral (next_spawn_x r')).
Proof.
  cbv zeta. unfold ensureGenerationAhead.
  destruct (spawn_while_enough (spawn_budget (cam_x r) r) (cam_x r) draws 0 r
              (spawn_budget_enough (cam_x r) r)) as (r' & E & Hh & Hc & Hi).
  cbv zeta. rewrite E.
  split; [|split; [|split; [|split; [|split; [|split]]]]].
  - exists (spawn_budget (cam_x r) r). intros fuel Hf.
    now apply (spawn_while_more_fuel _ _ _ _ _ _ E).
  - exact Hc.
  - rewrite Hc. unfold WIDTH in Hh. lra.
  - intros d r0. pose proof (spawnChunk_advances d r0). lra.
  - apply spawnChunk_advances_integral.
  - intros sv. apply (integral_inject 2300).
  - exact Hi.
Qed.
End Generator.

(** ** Spikes *)

Section Hazards.
Context `{HostMath}.

Lemma hazard_hx_separated (d : ChunkDraws) (r : Run) :
  floor (fmul (speed r) (lit MIN_HAZARD_SEP_T))
  <= hazard_hx d r - last_hazard_x r.
Proof.
  unfold hazard_hx. cbv zeta. cmp_cases; lra.
Qed.

Lemma spawnChunk_hazard (d : ChunkDraws) (r : Run) :
  (d_haz d <? hazard_chance (speed r)) = true ->
  last_hazard_x (spawnChunk d r) = hazard_hx d r /\
  hazards (spawnChunk d r)
  = hazards r ++
    [rect (floor (clamp (hazard_hx d r) (rx (chunk_platform d r))
                    (rx (chunk_platform d r) + rw (chunk_platform d r)
                     - randi 30 68 (d_hzW d))))
          (floor (ry (chunk_platform d r) + 2 - randi 32 62 (d_hzH d)))
          (floor (randi 30 68 (d_hzW d)))
          (floor (randi 32 62 (d_hzH d)))].
Proof.
  intros Hh. unfold spawnChunk. cbv zeta.
  cbn [speed set_platforms]. rewrite Hh.
  destruct (d_coin d <? COIN_CHANCE); split; reflexivity.
Qed.

(** What the code does keep apart are the positions it records: when
    [spawnChunk], at scroll speed [s], places a spike, the position it
    stores in [last_hazard_x] is at least
    [Math.floor(s * MIN_HAZARD_SEP_T)] pixels past the position stored
    for the previous spike.  The spike itself is appended at that
    position clamped into the platform and floored, and stands within
    the platform's horizontal bounds. *)
Lemma hazard_separation_recorded (d : ChunkDraws) (r : Run) :
  (d_haz d <? hazard_chance (speed r)) = true ->
  let r' := spawnChunk d r in
  let platform := chunk_platform d r in
  let hzW := randi 30 68 (d_hzW d) in
  floor (fmul (speed r) (lit MIN_HAZARD_SEP_T))
    <= last_hazard_x r' - last_hazard_x r /\
  exists hz,
    hazards r' = hazards r ++ [hz] /\
    rx hz = floor (clamp (last_hazard_x r') (rx platform)
                     (rx platform + rw platform - hzW)) /\
    rx platform <= rx hz /\ rx hz + rw hz <= rx platform + rw platform.
Proof.
  intros Hh. cbv zeta.
  destruct (spawnChunk_hazard d r Hh) as [El Eh].
  rewrite El, Eh.
  pose proof (hazard_hx_separated d r) as Hsep.
  split; [exact Hsep|].
  eexists. split; [reflexivity|]. cbn [rx rw].
  split; [reflexivity|].
  pose proof (chunk_platform_width d r) as [Hw _].
  pose proof (randi_range 30 68 (d_hzW d) ltac:(lia)) as [Hz1 Hz2].
  change (inject_Z 30) with 30 in *. change (inject_Z 68) with 68 in *.
  assert (Hzi : integral (randi 30 68 (d_hzW d)))
    by apply randi_integral, (integral_inject 30).
  set (px := rx (chunk_platform d r)) in *.
  set (pw := rw (chunk_platform d r)) in *.
  set (hzW := randi 30 68 (d_hzW d)) in *.
  unfold PLATFORM_MIN_W in Hw.
  assert (Hc : px <= clamp (hazard_hx d r) px (px + pw - hzW) <= px + pw - hzW)
    by (apply clamp_bounds; lra).
  assert (Hpx : integral px) by apply integral_floor.
  split.
  - unfold integral in Hpx. rewrite <- Hpx at 1. apply floor_mono, Hc.
  - unfold integral in Hzi. rewrite Hzi.
    pose proof (floor_le (clamp (hazard_hx d r) px (px + pw - hzW))). lra.
Qed.
End Hazards.

(** C5.  The separation that the code enforces on the recorded
    positions is lost for the spike itself.  At full speed, with the
    previous spike recorded at 11826 and standing at 11722, the new
    spike is recorded at 12400, which is 574 pixels on; its platform is
    160 wide from 12100, so the clamp puts the spike at 12192: 366
    pixels from the previous record and 470 from the previous spike,
    less than [820 * 0.70 = 574].  The arithmetic is that of
    binary64. *)
Lemma hazard_clamped_too_close :
  let r := run_full_speed in
  let r' := @spawnChunk double_host draws_narrow r in
  (d_haz draws_narrow <? hazard_chance (speed r)) = true /\
  speed r == 820 /\
  last_hazard_x r == 11826 /\ map rx (hazards r) = [11722] /\
  floor (@fmul double_host (speed r) (@lit double_host MIN_HAZARD_SEP_T)) == 574 /\
  last_hazard_x r' == 12400 /\
  map rx (hazards r') = [11722; 12192] /\
  12192 - last_hazard_x r < speed r * MIN_HAZARD_SEP_T /\
  12192 - 11722 < speed r * MIN_HAZARD_SEP_T.
Proof.
  cbv zeta. repeat split; vm_compute; reflexivity.
Qed.

(** The pixel count of the separation is the floor of a rounded
    product: at speed 700 it is 489, not 490. *)
Example min_sep_px_at_700 :
  floor (@fmul double_host 700 (@lit double_host MIN_HAZARD_SEP_T)) == 489 /\
  floor (700 * MIN_HAZARD_SEP_T) == 490.
Proof. split; vm_compute; reflexivity. Qed.

(** ** Reading the fields of [body] and [params] *)

Lemma body_eq (r r' : Run) :
  body r = body r' ->
  speed r = speed r' /\ vy r = vy r' /\ on_ground r = on_ground r' /\
  coyote r = coyote r' /\ jump_buf r = jump_buf r' /\
  jump_cut r = jump_cut r' /\ params r = params r' /\
  player r = player r' /\ py r = py r' /\ score r = score r'.
Proof.
  unfold body. intros E. injection E. intros.
  repeat split; try assumption. unfold params. congruence.
Qed.

Lemma params_eq (r r' : Run) :
  params r = params r' ->
  jump_v r = jump_v r' /\ coyote_t r = coyote_t r' /\
  coin_mul r = coin_mul r' /\ magnet_px r = magnet_px r'.
Proof.
  unfold params. intros E. injection E. intros. repeat split; assumption.
Qed.

(** ** What the later blocks of [playUpdate] leave alone *)

Lemma addShake_body (mag t : Q) (g : World) :
  body (RUN (addShake mag t g)) = body (RUN g) /\
  SAVE (addShake mag t g) = SAVE g /\
  mode (addShake mag t g) = mode g /\
  paused (addShake mag t g) = paused g /\
  sfx_log (addShake mag t g) = sfx_log g /\
  coins_run (RUN (addShake mag t g)) = coins_run (RUN g).
Proof.
  unfold addShake. destruct (negb _); repeat split; reflexivity.
Qed.

Section TailBlocks.
Context `{HostMath}.

Lemma spawnChunk_body (d : ChunkDraws) (r : Run) :
  body (spawnChunk d r) = body r /\ coins_run (spawnChunk d r) = coins_run r.
Proof.
  unfold spawnChunk. cbv zeta.
  destruct (d_haz d <? _), (d_coin d <? _); split; reflexivity.
Qed.

Lemma spawn_while_body (fuel : nat) (camX : Q) (draws : nat -> ChunkDraws) :
  forall k r r', spawn_while fuel camX draws k r = Some r' ->
  body r' = body r /\ coins_run r' = coins_run r.
Proof.
  induction fuel as [|fuel IH]; intros k r r'; cbn [spawn_while];
    destruct (next_spawn_x r <? _); try congruence.
  - intros [= <-]. auto.
  - intros E. destruct (IH _ _ _ E) as [E1 E2].
    destruct (spawnChunk_body (draws k) r) as [E3 E4].
    split; congruence.
  - intros [= <-]. auto.
Qed.

Lemma ensureGenerationAhead_body (draws : nat -> ChunkDraws) (r : Run) :
  body (ensureGenerationAhead draws r) = body r /\
  coins_run (ensureGenerationAhead draws r) = coins_run r.
Proof.
  unfold ensureGenerationAhead. cbv zeta.
  destruct (spawn_while _ _ _ _ _) eqn:E; [|auto].
  apply (spawn_while_body _ _ _ _ _ _ E).
Qed.

(** Camera, generation and pruning touch neither the player's
    kinematic state nor the saved data. *)
Lemma tick_camera_body (i : TickInput) (g : World) :
  body (RUN (tick_camera i g)) = body (RUN g) /\
  coins_run (RUN (tick_camera i g)) = coins_run (RUN g) /\
  SAVE (tick_camera i g) = SAVE g /\ mode (tick_camera i g) = mode g /\
  sfx_log (tick_camera i g) = sfx_log g.
Proof.
  unfold tick_camera. cbv zeta.
  set (r1 := set_cam_x (cam_x (RUN g) + speed (RUN g) * t_dt i) (RUN g)).
  destruct (ensureGenerationAhead_body (t_draws i) r1) as [E1 E2].
  repeat split; cbn; try reflexivity.
  - change (body (cleanupLists (ensureGenerationAhead (t_draws i) r1)) = body (RUN g)).
    change (body (ensureGenerationAhead (t_draws i) r1) = body (RUN g)).
    rewrite E1. reflexivity.
  - change (coins_run (ensureGenerationAhead (t_draws i) r1) = coins_run (RUN g)).
    rewrite E2. reflexivity.
Qed.

Lemma tick_magnet_body (dt : Q) (g : World) :
  body (RUN (tick_magnet dt g)) = body (RUN g) /\
  coins_run (RUN (tick_magnet dt g)) = coins_run (RUN g) /\
  SAVE (tick_magnet dt g) = SAVE g /\ mode (tick_magnet dt g) = mode g /\
  sfx_log (tick_magnet dt g) = sfx_log g.
Proof.
  unfold tick_magnet. cbv zeta. destruct (0 <? _); repeat split; reflexivity.
Qed.
End TailBlocks.

Lemma collect_coin_body (g : World) :
  body (RUN (collect_coin g)) = body (RUN g) /\
  SAVE (collect_coin g) = SAVE g /\ mode (collect_coin g) = mode g.
Proof.
  unfold collect_coin. cbv zeta.
  match goal with |- context [addShake ?m ?t ?g0] =>
    destruct (addShake_body m t g0) as (E1 & E2 & E3 & _) end.
  rewrite E1, E2, E3. repeat split; reflexivity.
Qed.

Lemma collect_loop_body (pl : Rect) (cs : list Rect) :
  forall g,
    let g' := fold_left (fun g c => if colliderect pl c then collect_coin g else g) cs g in
    body (RUN g') = body (RUN g) /\ SAVE g' = SAVE g /\ mode g' = mode g.
Proof.
  induction cs as [|c cs IH]; intros g; cbn [fold_left].
  - auto.
  - cbv zeta in *. destruct (colliderect pl c).
    + destruct (IH (collect_coin g)) as (E1 & E2 & E3).
      destruct (collect_coin_body g) as (F1 & F2 & F3).
      repeat split; congruence.
    + apply IH.
Qed.

Lemma tick_coins_body (g : World) :
  body (RUN (tick_coins g)) = body (RUN g) /\
  SAVE (tick_coins g) = SAVE g /\ mode (tick_coins g) = mode g.
Proof.
  unfold tick_coins. cbv zeta.
  destruct (collect_loop_body (player (RUN g)) (coins_list (RUN g)) g)
    as (E1 & E2 & E3).
  cbv zeta in *.
  destruct (filter _ _); [auto|].
  repeat split; cbn; assumption.
Qed.

Lemma tick_decay_body (dt : Q) (g : World) :
  body (RUN (tick_decay dt g)) = body (RUN g) /\
  coins_run (RUN (tick_decay dt g)) = coins_run (RUN g) /\
  SAVE (tick_decay dt g) = SAVE g /\ mode (tick_decay dt g) = mode g /\
  sfx_log (tick_decay dt g) = sfx_log g.
Proof.
  unfold tick_decay. cbv zeta. cbn.
  destruct (0 <? shake_t (RUN g)); [destruct (_ <=? 0)|];
    repeat split; reflexivity.
Qed.

Lemma die_body `{HostMath} (g : World) :
  body (RUN (die g)) = body (RUN g) /\
  coins_run (RUN (die g)) = coins_run (RUN g) /\
  mode (die g) = MODE_DEAD.
Proof.
  unfold die. cbv zeta.
  destruct (addShake_body 10.0 0.25 g) as (E1 & _ & _ & _ & _ & E2).
  repeat split; cbn; assumption.
Qed.

(** ** The kinematic blocks, field by field *)

(** Case analysis on the innermost conditions first, simplifying the
    field accesses that each case opens. *)
Ltac split_ifs :=
  repeat (simpl;
          match goal with
          | |- context [if ?c then _ else _] =>
              lazymatch c with
              | context [if _ then _ else _] => fail
              | _ => destruct c eqn:?
              end
          end);
  simpl.

Lemma tick_speed_score_fields (dt : Q) (g : World) :
  let g1 := tick_speed_score dt g in
  speed (RUN g1) = clamp (speed (RUN g) + SPEED_RAMP * dt) BASE_SPEED MAX_SPEED /\
  jump_buf (RUN g1) = jump_buf (RUN g) /\
  coyote (RUN g1) = coyote (RUN g) /\
  jump_cut (RUN g1) = jump_cut (RUN g) /\
  on_ground (RUN g1) = on_ground (RUN g) /\
  vy (RUN g1) = vy (RUN g) /\
  jump_v (RUN g1) = jump_v (RUN g) /\
  coyote_t (RUN g1) = coyote_t (RUN g) /\
  sfx_log g1 = sfx_log g.
Proof. cbv zeta. repeat split; reflexivity. Qed.

Lemma tick_jump_buffer_fields (dt : Q) (jumpPressed : bool) (g : World) :
  let g2 := tick_jump_buffer dt jumpPressed g in
  speed (RUN g2) = speed (RUN g) /\
  jump_buf (RUN g2)
    = (if jumpPressed then BASE_JUMP_BUF else Qmax 0.0 (jump_buf (RUN g) - dt)) /\
  coyote (RUN g2) = coyote (RUN g) /\
  jump_cut (RUN g2) = jump_cut (RUN g) /\
  on_ground (RUN g2) = on_ground (RUN g) /\
  vy (RUN g2) = vy (RUN g) /\
  jump_v (RUN g2) = jump_v (RUN g) /\
  coyote_t (RUN g2) = coyote_t (RUN g) /\
  sfx_log g2 = sfx_log g.
Proof.
  unfold tick_jump_buffer. cbv zeta.
  destruct jumpPressed; repeat split; reflexivity.
Qed.

Lemma tick_coyote_fields (dt : Q) (g : World) :
  let g3 := tick_coyote dt g in
  speed (RUN g3) = speed (RUN g) /\
  jump_buf (RUN g3) = jump_buf (RUN g) /\
  coyote (RUN g3)
    = (if on_ground (RUN g) then coyote_t (RUN g)
       else Qmax 0.0 (coyote (RUN g) - dt)) /\
  jump_cut (RUN g3) = (if on_ground (RUN g) then false else jump_cut (RUN g)) /\
  on_ground (RUN g3) = on_ground (RUN g) /\
  vy (RUN g3) = vy (RUN g) /\
  jump_v (RUN g3) = jump_v (RUN g) /\
  coyote_t (RUN g3) = coyote_t (RUN g) /\
  sfx_log g3 = sfx_log g.
Proof.
  unfold tick_coyote, on_RUN. cbv zeta.
  destruct (on_ground (RUN g)) eqn:Eg; simpl; rewrite ?Eg; simpl;
    rewrite ?Eg; repeat split; reflexivity.
Qed.

Lemma tick_timers_fields (i : TickInput) (g : World) :
  let g3 := tick_timers i g in
  speed (RUN g3)
    = clamp (speed (RUN g) + SPEED_RAMP * t_dt i) BASE_SPEED MAX_SPEED /\
  jump_buf (RUN g3)
    = (if t_jumpPressed i then BASE_JUMP_BUF
       else Qmax 0.0 (jump_buf (RUN g) - t_dt i)) /\
  coyote (RUN g3)
    = (if on_ground (RUN g) then coyote_t (RUN g)
       else Qmax 0.0 (coyote (RUN g) - t_dt i)) /\
  jump_cut (RUN g3) = (if on_ground (RUN g) then false else jump_cut (RUN g)) /\
  on_ground (RUN g3) = on_ground (RUN g) /\
  vy (RUN g3) = vy (RUN g) /\
  jump_v (RUN g3) = jump_v (RUN g) /\
  coyote_t (RUN g3) = coyote_t (RUN g) /\
  sfx_log g3 = sfx_log g.
Proof.
  unfold tick_timers. cbv zeta.
  destruct (tick_speed_score_fields (t_dt i) g)
    as (A1 & A2 & A3 & A4 & A5 & A6 & A7 & A8 & A9).
  destruct (tick_jump_buffer_fields (t_dt i) (t_jumpPressed i)
              (tick_speed_score (t_dt i) g))
    as (B1 & B2 & B3 & B4 & B5 & B6 & B7 & B8 & B9).
  destruct (tick_coyote_fields (t_dt i)
              (tick_jump_buffer (t_dt i) (t_jumpPressed i)
                 (tick_speed_score (t_dt i) g)))
    as (C1 & C2 & C3 & C4 & C5 & C6 & C7 & C8 & C9).
  cbv zeta in *.
  rewrite C1, C2, C3, C4, C5, C6, C7, C8, C9.
  rewrite B1, B2, B3, B4, B5, B6, B7, B8, B9.
  rewrite A1, A2, A3, A4, A5, A6, A7, A8, A9.
  repeat split; reflexivity.
Qed.

Lemma tick_apply_jump_fields (g : World) :
  let g4 := tick_apply_jump g in
  speed (RUN g4) = speed (RUN g) /\
  jump_v (RUN g4) = jump_v (RUN g) /\
  coyote_t (RUN g4) = coyote_t (RUN g) /\
  (jump_ready g = true ->
     vy (RUN g4) = - jump_v (RUN g) /\ on_ground (RUN g4) = false /\
     coyote (RUN g4) = 0.0 /\ jump_buf (RUN g4) = 0.0 /\
     jump_cut (RUN g4) = false /\ sfx_log g4 = SfxJump :: sfx_log g) /\
  (jump_ready g = false -> g4 = g).
Proof.
  unfold tick_apply_jump. cbv zeta.
  destruct (jump_ready g); repeat split; try reflexivity; discriminate.
Qed.

Lemma tick_gravity_fields (dt : Q) (g : World) :
  let g5 := tick_gravity dt g in
  vy (RUN g5) = clamp (vy (RUN g) + GRAVITY * dt) (-5000.0) MAX_FALL_V /\
  speed (RUN g5) = speed (RUN g) /\
  on_ground (RUN g5) = on_ground (RUN g) /\
  coyote (RUN g5) = coyote (RUN g) /\
  jump_buf (RUN g5) = jump_buf (RUN g) /\
  jump_cut (RUN g5) = jump_cut (RUN g) /\
  jump_v (RUN g5) = jump_v (RUN g) /\
  coyote_t (RUN g5) = coyote_t (RUN g) /\
  sfx_log g5 = sfx_log g.
Proof. cbv zeta. repeat split; reflexivity. Qed.

Lemma tick_jump_cut_fields (jumpReleased : bool) (g : World) :
  let g6 := tick_jump_cut jumpReleased g in
  speed (RUN g6) = speed (RUN g) /\
  on_ground (RUN g6) = on_ground (RUN g) /\
  coyote (RUN g6) = coyote (RUN g) /\
  jump_buf (RUN g6) = jump_buf (RUN g) /\
  jump_v (RUN g6) = jump_v (RUN g) /\
  coyote_t (RUN g6) = coyote_t (RUN g) /\
  sfx_log g6 = sfx_log g /\
  (cut_ready jumpReleased g = true ->
     vy (RUN g6) = vy (RUN g) * JUMP_CUT_MULT /\ jump_cut (RUN g6) = true) /\
  (cut_ready jumpReleased g = false -> g6 = g).
Proof.
  unfold tick_jump_cut. cbv zeta.
  destruct (cut_ready jumpReleased g); repeat split; try reflexivity; discriminate.
Qed.

(** The vertical block writes [vy] and [on_ground] only on a landing. *)
Lemma tick_vertical_fields (dt : Q) (g : World) :
  let g7 := tick_vertical dt g in
  speed (RUN g7) = speed (RUN g) /\
  coyote (RUN g7) = coyote (RUN g) /\
  jump_buf (RUN g7) = jump_buf (RUN g) /\
  jump_cut (RUN g7) = jump_cut (RUN g) /\
  jump_v (RUN g7) = jump_v (RUN g) /\
  coyote_t (RUN g7) = coyote_t (RUN g) /\
  sfx_log g7 = sfx_log g /\
  (on_ground (RUN g7) = false /\ vy (RUN g7) = vy (RUN g) \/
   on_ground (RUN g7) = true /\ vy (RUN g7) = 0.0).
Proof.
  unfold tick_vertical, land_feedback. cbv zeta.
  split_ifs; cbn; repeat split; try reflexivity; auto.
Qed.

(** Without a downward velocity the vertical block reports no landing. *)
Lemma tick_vertical_rising (dt : Q) (g : World) :
  0 <= dt -> vy (RUN g) <= 0 ->
  on_ground (RUN (tick_vertical dt g)) = false /\
  vy (RUN (tick_vertical dt g)) = vy (RUN g).
Proof.
  intros Hdt Hvy. unfold tick_vertical, land_feedback. cbv zeta.
  cbn [RUN on_RUN set_RUN vy set_player set_on_ground on_ground py set_py
       player platforms].
  set (pl := set_rx _ _).
  pose proof (sweep_flags_consistent pl (py (RUN g)) (vy (RUN g) * dt)
                (platforms (RUN g))) as (_ & Hl & _).
  cbv zeta in Hl.
  destruct (GROUND_Y <=? _).
  - destruct (0 <? vy (RUN g)) eqn:Ev; [apply ltb_lt in Ev; lra|].
    split; reflexivity.
  - destruct (landed _) eqn:El; [|split; reflexivity].
    specialize (Hl eq_refl).
    assert (vy (RUN g) * dt <= 0).
    { assert (E : vy (RUN g) * dt == - ((- vy (RUN g)) * dt)) by ring.
      assert (0 <= (- vy (RUN g)) * dt) by (apply Qmult_le_0_compat; lra).
      lra. }
    lra.
Qed.

(** No block of the kinematics writes the run parameters. *)
Lemma tick_jump_buffer_params (dt : Q) (b : bool) (g : World) :
  params (RUN (tick_jump_buffer dt b g)) = params (RUN g).
Proof. unfold tick_jump_buffer, on_RUN. destruct b; reflexivity. Qed.

Lemma tick_coyote_params (dt : Q) (g : World) :
  params (RUN (tick_coyote dt g)) = params (RUN g).
Proof. unfold tick_coyote, on_RUN. split_ifs; reflexivity. Qed.

Lemma tick_apply_jump_params (g : World) :
  params (RUN (tick_apply_jump g)) = params (RUN g).
Proof. unfold tick_apply_jump. destruct (jump_ready g); reflexivity. Qed.

Lemma tick_gravity_params (dt : Q) (g : World) :
  params (RUN (tick_gravity dt g)) = params (RUN g).
Proof. reflexivity. Qed.

Lemma tick_jump_cut_params (b : bool) (g : World) :
  params (RUN (tick_jump_cut b g)) = params (RUN g).
Proof. unfold tick_jump_cut. destruct (cut_ready b g); reflexivity. Qed.

Lemma tick_vertical_params (dt : Q) (g : World) :
  params (RUN (tick_vertical dt g)) = params (RUN g).
Proof. unfold tick_vertical, land_feedback. cbv zeta. split_ifs; reflexivity. Qed.

(** ** Sequences of ticks *)

Lemma run_ticks_cons (step : TickInput -> World -> World) (i : TickInput)
    (rest : list TickInput) (g : World) :
  run_ticks step (i :: rest) g = run_ticks step rest (step i g).
Proof. reflexivity. Qed.

Lemma run_ticks_app (step : TickInput -> World -> World)
    (pre post : list TickInput) (g : World) :
  run_ticks step (pre ++ post) g = run_ticks step post (run_ticks step pre g).
Proof.
  revert g. induction pre as [|i pre IH]; intros g; [reflexivity|].
  cbn [app run_ticks]. apply IH.
Qed.

Lemma total_dt_cons (i : TickInput) (rest : list TickInput) :
  total_dt (i :: rest) = t_dt i + total_dt rest.
Proof. reflexivity. Qed.

Lemma tick_kinematics_eq (i : TickInput) (g : World) :
  tick_kinematics i g
  = tick_vertical (t_dt i) (tick_jump_cut (t_jumpReleased i) (tick_launch i g)).
Proof. reflexivity. Qed.

(** ** The whole tick *)

Section WholeTick.
Context `{HostMath}.

Lemma tick_before_hazards_body (i : TickInput) (g : World) :
  body (RUN (tick_before_hazards i g)) = body (RUN (tick_kinematics i g)) /\
  SAVE (tick_before_hazards i g) = SAVE (tick_kinematics i g) /\
  mode (tick_before_hazards i g) = mode (tick_kinematics i g).
Proof.
  unfold tick_before_hazards. cbv zeta.
  destruct (tick_coins_body
              (tick_magnet (t_dt i) (tick_camera i (tick_kinematics i g))))
    as (A1 & A2 & A3).
  destruct (tick_magnet_body (t_dt i) (tick_camera i (tick_kinematics i g)))
    as (B1 & _ & B2 & B3 & _).
  destruct (tick_camera_body i (tick_kinematics i g)) as (C1 & _ & C2 & C3 & _).
  repeat split; congruence.
Qed.

(** After the kinematic blocks nothing writes the player's kinematic
    state, whether the tick ends in death or not. *)
Lemma playUpdate_body (i : TickInput) (g : World) :
  body (RUN (playUpdate i g)) = body (RUN (tick_kinematics i g)).
Proof.
  unfold playUpdate. cbv zeta.
  destruct (tick_before_hazards_body i g) as (A & _ & _).
  destruct (find _ _).
  - destruct (die_body (tick_before_hazards i g)) as (B & _). congruence.
  - destruct (tick_decay_body (t_dt i) (tick_before_hazards i g)) as (B & _).
    congruence.
Qed.

Lemma tick_kinematics_speed (i : TickInput) (g : World) :
  speed (RUN (tick_kinematics i g))
  = clamp (speed (RUN g) + SPEED_RAMP * t_dt i) BASE_SPEED MAX_SPEED.
Proof.
  unfold tick_kinematics, tick_launch. cbv zeta.
  destruct (tick_vertical_fields (t_dt i)
              (tick_jump_cut (t_jumpReleased i)
                 (tick_gravity (t_dt i) (tick_apply_jump (tick_timers i g)))))
    as (-> & _).
  destruct (tick_jump_cut_fields (t_jumpReleased i)
              (tick_gravity (t_dt i) (tick_apply_jump (tick_timers i g))))
    as (-> & _).
  destruct (tick_gravity_fields (t_dt i) (tick_apply_jump (tick_timers i g)))
    as (_ & -> & _).
  destruct (tick_apply_jump_fields (tick_timers i g)) as (-> & _).
  apply tick_timers_fields.
Qed.

Lemma playUpdate_speed (i : TickInput) (g : World) :
  speed (RUN (playUpdate i g))
  = clamp (speed (RUN g) + SPEED_RAMP * t_dt i) BASE_SPEED MAX_SPEED.
Proof.
  destruct (body_eq _ _ (playUpdate_body i g)) as (E & _).
  rewrite E. apply tick_kinematics_speed.
Qed.

Lemma play_ticks_nil (g : World) : play_ticks [] g = g.
Proof. reflexivity. Qed.

Lemma play_ticks_cons (i : TickInput) (rest : list TickInput) (g : World) :
  play_ticks (i :: rest) g = play_ticks rest (playUpdate i g).
Proof. exact (run_ticks_cons playUpdate i rest g). Qed.

Lemma play_ticks_app (pre post : list TickInput) (g : World) :
  play_ticks (pre ++ post) g = play_ticks post (play_ticks pre g).
Proof. exact (run_ticks_app playUpdate pre post g). Qed.

Lemma total_dt_nonneg (inputs : list TickInput) :
  Forall (fun i => 0 <= t_dt i) inputs -> 0 <= total_dt inputs.
Proof.
  induction 1 as [|i l Hi _ IH]; [discriminate|].
  rewrite total_dt_cons. lra.
Qed.

(** One step of the ramp, on the closed form. *)
Lemma clamp_ramp (s t dt : Q) :
  0 <= t -> 0 <= dt ->
  s == Qmin MAX_SPEED (BASE_SPEED + SPEED_RAMP * t) ->
  clamp (s + SPEED_RAMP * dt) BASE_SPEED MAX_SPEED
  == Qmin MAX_SPEED (BASE_SPEED + SPEED_RAMP * (t + dt)).
Proof.
  intros Ht Hdt Hs.
  destruct (Q.min_spec MAX_SPEED (BASE_SPEED + SPEED_RAMP * t)) as [[A1 A2]|[A1 A2]];
  destruct (Q.min_spec MAX_SPEED (BASE_SPEED + SPEED_RAMP * (t + dt)))
    as [[B1 B2]|[B1 B2]];
  rewrite B2; rewrite A2 in Hs;
  unfold clamp; cmp_cases;
  unfold MAX_SPEED, BASE_SPEED, SPEED_RAMP in *; lra.
Qed.

Lemma play_ticks_speed (inputs : list TickInput) :
  forall g t,
    0 <= t ->
    speed (RUN g) == Qmin MAX_SPEED (BASE_SPEED + SPEED_RAMP * t) ->
    Forall (fun i => 0 <= t_dt i) inputs ->
    speed (RUN (play_ticks inputs g))
    == Qmin MAX_SPEED (BASE_SPEED + SPEED_RAMP * (t + total_dt inputs)).
Proof.
  induction inputs as [|i inputs IH]; intros g t Ht Hs Hall.
  - rewrite play_ticks_nil, Hs. apply Q.min_compat; [reflexivity|].
    change (total_dt []) with 0. ring.
  - inversion Hall as [|? ? Hi Hrest]; subst.
    rewrite play_ticks_cons, total_dt_cons.
    rewrite (IH (playUpdate i g) (t + t_dt i)); try assumption.
    + apply Q.min_compat; [reflexivity|]. ring.
    + lra.
    + rewrite playUpdate_speed. now apply clamp_ramp.
Qed.

(** C7. From [speed = BASE_SPEED], after the ticks of any finite
    sequence with [dt >= 0] the speed is
    [min(MAX_SPEED, BASE_SPEED + SPEED_RAMP * T)] for [T] the sum of
    the [dt]; after every tick of the sequence it lies in
    [BASE_SPEED, MAX_SPEED] and is not below the speed before that
    tick. *)
Theorem speed_ramp_closed_form (inputs : list TickInput) (g : World) :
  speed (RUN g) = BASE_SPEED ->
  Forall (fun i => 0 <= t_dt i) inputs ->
  speed (RUN (play_ticks inputs g))
  == Qmin MAX_SPEED (BASE_SPEED + SPEED_RAMP * total_dt inputs) /\
  (forall pre i post, inputs = pre ++ i :: post ->
     let g1 := play_ticks pre g in
     let g2 := playUpdate i g1 in
     speed (RUN g2)
       = clamp (speed (RUN g1) + SPEED_RAMP * t_dt i) BASE_SPEED MAX_SPEED /\
     BASE_SPEED <= speed (RUN g2) <= MAX_SPEED /\
     speed (RUN g1) <= speed (RUN g2)).
Proof.
  intros Hs Hall.
  assert (H0 : speed (RUN g) == Qmin MAX_SPEED (BASE_SPEED + SPEED_RAMP * 0)).
  { rewrite Hs. rewrite Q.min_r; unfold MAX_SPEED, BASE_SPEED, SPEED_RAMP; lra. }
  split.
  - rewrite (play_ticks_speed inputs g 0); try assumption; [|lra].
    apply Q.min_compat; [reflexivity|]. ring.
  - intros pre i post E. cbv zeta.
    rewrite E in Hall. apply Forall_app in Hall. destruct Hall as [Hpre Hpost].
    inversion Hpost as [|? ? Hi _]; subst.
    pose proof (play_ticks_speed pre g 0 ltac:(lra) H0 Hpre) as Hg1.
    pose proof (total_dt_nonneg pre Hpre) as Hnn.
    rewrite playUpdate_speed.
    split; [reflexivity|]. split.
    + apply clamp_bounds. unfold MAX_SPEED, BASE_SPEED. lra.
    + set (s := speed (RUN (play_ticks pre g))) in *.
      assert (Hle : s <= MAX_SPEED) by (rewrite Hg1; apply Q.le_min_l).
      unfold clamp. cmp_cases; unfold MAX_SPEED, BASE_SPEED, SPEED_RAMP in *; lra.
Qed.
End WholeTick.

Lemma speed_ramp_closed_form_three_ticks :
  let inputs := [tick_idle (1 # 60); tick_press (1 # 50); tick_idle 0.05] in
  speed (RUN (play_ticks inputs world_play))
  == Qmin MAX_SPEED (BASE_SPEED + SPEED_RAMP * total_dt inputs).
Proof.
  cbv zeta.
  apply (speed_ramp_closed_form
           [tick_idle (1 # 60); tick_press (1 # 50); tick_idle 0.05] world_play).
  - reflexivity.
  - repeat constructor; discriminate.
Defined.

(** ** The jump *)

Section Jump.
Context `{HostMath}.

Lemma playUpdate_fields (i : TickInput) (g : World) :
  let g' := playUpdate i g in
  let k := tick_kinematics i g in
  vy (RUN g') = vy (RUN k) /\ on_ground (RUN g') = on_ground (RUN k) /\
  coyote (RUN g') = coyote (RUN k) /\ jump_buf (RUN g') = jump_buf (RUN k) /\
  jump_cut (RUN g') = jump_cut (RUN k) /\ jump_v (RUN g') = jump_v (RUN k) /\
  coyote_t (RUN g') = coyote_t (RUN k) /\ coin_mul (RUN g') = coin_mul (RUN k).
Proof.
  cbv zeta.
  destruct (body_eq _ _ (playUpdate_body i g))
    as (_ & E2 & E3 & E4 & E5 & E6 & E7 & _).
  destruct (params_eq _ _ E7) as (F1 & F2 & F3 & _).
  repeat split; assumption.
Qed.

Lemma jumps_logged_log (g g' : World) :
  sfx_log g = sfx_log g' -> jumps_logged g = jumps_logged g'.
Proof. unfold jumps_logged. now intros ->. Qed.

Lemma collect_coin_jumps (g : World) :
  jumps_logged (collect_coin g) = jumps_logged g.
Proof.
  unfold collect_coin, jumps_logged. cbv zeta.
  match goal with |- context [addShake ?m ?t ?g0] =>
    destruct (addShake_body m t g0) as (_ & _ & _ & _ & -> & _) end.
  reflexivity.
Qed.

Lemma collect_loop_jumps (pl : Rect) (cs : list Rect) :
  forall g,
    jumps_logged
      (fold_left (fun g c => if colliderect pl c then collect_coin g else g) cs g)
    = jumps_logged g.
Proof.
  induction cs as [|c cs IH]; intros g; cbn [fold_left]; [reflexivity|].
  destruct (colliderect pl c); [|apply IH].
  rewrite IH. apply collect_coin_jumps.
Qed.

Lemma tick_coins_jumps (g : World) :
  jumps_logged (tick_coins g) = jumps_logged g.
Proof.
  unfold tick_coins. cbv zeta.
  destruct (filter _ _).
  - apply collect_loop_jumps.
  - rewrite <- (collect_loop_jumps (player (RUN g)) (coins_list (RUN g)) g).
    apply jumps_logged_log. reflexivity.
Qed.

Lemma die_jumps (g : World) : jumps_logged (die g) = jumps_logged g.
Proof.
  unfold die, jumps_logged. cbv zeta.
  cbn [sfx_log set_mode sfx set_sfx_log updateBestScore awardMoneyAndSave
       set_SAVE filter is_jump].
  now destruct (addShake_body 10.0 0.25 g) as (_ & _ & _ & _ & -> & _).
Qed.

Lemma tick_kinematics_log (i : TickInput) (g : World) :
  sfx_log (tick_kinematics i g) = sfx_log (tick_apply_jump (tick_timers i g)).
Proof.
  unfold tick_kinematics, tick_launch. cbv zeta.
  destruct (tick_vertical_fields (t_dt i)
              (tick_jump_cut (t_jumpReleased i)
                 (tick_gravity (t_dt i) (tick_apply_jump (tick_timers i g)))))
    as (_ & _ & _ & _ & _ & _ & -> & _).
  destruct (tick_jump_cut_fields (t_jumpReleased i)
              (tick_gravity (t_dt i) (tick_apply_jump (tick_timers i g))))
    as (_ & _ & _ & _ & _ & _ & -> & _).
  apply tick_gravity_fields.
Qed.

Lemma playUpdate_jumps (i : TickInput) (g : World) :
  jumps_logged (playUpdate i g)
  = jumps_logged (tick_apply_jump (tick_timers i g)).
Proof.
  rewrite <- (jumps_logged_log _ _ (tick_kinematics_log i g)).
  unfold playUpdate. cbv zeta.
  destruct (find _ _).
  - rewrite die_jumps. unfold tick_before_hazards. cbv zeta.
    rewrite tick_coins_jumps. apply jumps_logged_log.
    destruct (tick_magnet_body (t_dt i) (tick_camera i (tick_kinematics i g)))
      as (_ & _ & _ & _ & ->).
    apply tick_camera_body.
  - rewrite (jumps_logged_log _ (tick_before_hazards i g)).
    + unfold tick_before_hazards. cbv zeta.
      rewrite tick_coins_jumps. apply jumps_logged_log.
      destruct (tick_magnet_body (t_dt i) (tick_camera i (tick_kinematics i g)))
        as (_ & _ & _ & _ & ->).
      apply tick_camera_body.
    + apply tick_decay_body.
Qed.

(** C3. In a tick of [playUpdate] the jump is executed (one more call
    of [sfx.jump()]) exactly when [jump_buf > 0] and [coyote > 0] hold
    at the test, that is after the buffer and coyote timers of this
    tick were updated; neither alone suffices.  When it is executed,
    the block sets [vy = -jump_v], [jump_buf = coyote = 0],
    [jump_cut = false] and [on_ground = false]; otherwise it changes
    nothing. *)
Theorem jump_needs_buffer_and_coyote (i : TickInput) (g : World) :
  let g3 := tick_timers i g in
  let g4 := tick_apply_jump g3 in
  jump_buf (RUN g3)
    = (if t_jumpPressed i then BASE_JUMP_BUF
       else Qmax 0.0 (jump_buf (RUN g) - t_dt i)) /\
  coyote (RUN g3)
    = (if on_ground (RUN g) then coyote_t (RUN g)
       else Qmax 0.0 (coyote (RUN g) - t_dt i)) /\
  (jumps_logged (playUpdate i g) = S (jumps_logged g)
     <-> 0 < jump_buf (RUN g3) /\ 0 < coyote (RUN g3)) /\
  (0 < jump_buf (RUN g3) /\ 0 < coyote (RUN g3) ->
     vy (RUN g4) = - jump_v (RUN g) /\
     jump_buf (RUN g4) == 0 /\ coyote (RUN g4) == 0 /\
     jump_cut (RUN g4) = false /\ on_ground (RUN g4) = false) /\
  (~ (0 < jump_buf (RUN g3) /\ 0 < coyote (RUN g3)) ->
     g4 = g3 /\ jumps_logged (playUpdate i g) = jumps_logged g) /\
  (jump_buf (RUN g3) <= 0 -> jumps_logged (playUpdate i g) = jumps_logged g) /\
  (coyote (RUN g3) <= 0 -> jumps_logged (playUpdate i g) = jumps_logged g).
Proof.
  cbv zeta.
  destruct (tick_timers_fields i g) as (_ & Eb & Ec & _ & _ & _ & Ev & _ & El).
  destruct (tick_apply_jump_fields (tick_timers i g)) as (_ & _ & _ & Hyes & Hno).
  assert (R : jump_ready (tick_timers i g) = true
              <-> 0 < jump_buf (RUN (tick_timers i g))
                  /\ 0 < coyote (RUN (tick_timers i g))).
  { unfold jump_ready. rewrite andb_true_iff, !ltb_lt.
    split; intros [A B]; split; lra. }
  assert (J : jumps_logged (playUpdate i g)
              = (if jump_ready (tick_timers i g)
                 then S (jumps_logged g) else jumps_logged g)).
  { rewrite playUpdate_jumps.
    destruct (jump_ready (tick_timers i g)) eqn:Er.
    - destruct (Hyes eq_refl) as (_ & _ & _ & _ & _ & E).
      unfold jumps_logged. rewrite E, El. reflexivity.
    - rewrite (Hno eq_refl). unfold jumps_logged. now rewrite El. }
  assert (N : jump_ready (tick_timers i g) = false ->
              jumps_logged (playUpdate i g) = jumps_logged g).
  { intros E. now rewrite J, E. }
  split; [exact Eb|]. split; [exact Ec|].
  split; [|split; [|split; [|split]]].
  - rewrite <- R, J. destruct (jump_ready _); split; intros; try reflexivity; try discriminate.
    lia.
  - intros HR. apply R in HR. destruct (Hyes HR) as (A1 & A2 & A3 & A4 & A5 & _).
    rewrite A1, A3, A4, A5, A2, Ev. repeat split; reflexivity.
  - intros HR.
    assert (Er : jump_ready (tick_timers i g) = false).
    { apply not_true_is_false. intros Er. apply HR, R, Er. }
    split; [apply Hno, Er | apply N, Er].
  - intros Hle. apply N, not_true_is_false. intros Er. apply R in Er. lra.
  - intros Hle. apply N, not_true_is_false. intros Er. apply R in Er. lra.
Qed.
End Jump.

(** ** The launch tick *)

Section Launch.
Context `{HostMath}.

Lemma run_params_bounds (r : Run) :
  run_params_ok r ->
  880 <= jump_v r <= 1180 /\ 0.10 <= coyote_t r.
Proof.
  intros (u & (Hj & Hc & _) & Ej & Ec & _).
  rewrite Ej, Ec. cbn [runParamsFromUpgrades jumpV coyoteT].
  unfold level_ok, UPGRADE_MAX, BASE_JUMP_V, BASE_COYOTE in *. lra.
Qed.

Lemma newRunState_params_ok (sv : Save) :
  upgrades_ok (upgrades sv) -> run_params_ok (newRunState sv).
Proof.
  intros Hu. exists (upgrades sv). repeat split; try reflexivity; apply Hu.
Qed.

Lemma tick_kinematics_params (i : TickInput) (g : World) :
  params (RUN (tick_kinematics i g)) = params (RUN g).
Proof.
  unfold tick_kinematics, tick_launch, tick_timers. cbv zeta.
  rewrite tick_vertical_params, tick_jump_cut_params, tick_gravity_params,
    tick_apply_jump_params, tick_coyote_params, tick_jump_buffer_params.
  reflexivity.
Qed.

Lemma playUpdate_params (i : TickInput) (g : World) :
  params (RUN (playUpdate i g)) = params (RUN g).
Proof.
  rewrite <- (tick_kinematics_params i g).
  apply (body_eq _ _ (playUpdate_body i g)).
Qed.

Lemma playUpdate_params_ok (i : TickInput) (g : World) :
  run_params_ok (RUN g) -> run_params_ok (RUN (playUpdate i g)).
Proof.
  intros (u & Hu & Ej & Ec & Em & Ex). exists u.
  destruct (params_eq _ _ (playUpdate_params i g)) as (-> & -> & -> & ->).
  auto.
Qed.

(** The state at the test of the jump cut, when the jump was executed
    in this tick. *)
Lemma tick_launch_jumped (i : TickInput) (g : World) :
  jump_fires i g = true ->
  let g5 := tick_launch i g in
  vy (RUN g5) = clamp (- jump_v (RUN g) + GRAVITY * t_dt i) (-5000.0) MAX_FALL_V /\
  on_ground (RUN g5) = false /\ jump_cut (RUN g5) = false /\
  coyote (RUN g5) = 0.0 /\ jump_buf (RUN g5) = 0.0.
Proof.
  unfold jump_fires, tick_launch. cbv zeta. intros Hr.
  destruct (tick_timers_fields i g) as (_ & _ & _ & _ & _ & _ & Ev & _).
  destruct (tick_apply_jump_fields (tick_timers i g)) as (_ & _ & _ & Hyes & _).
  destruct (Hyes Hr) as (A1 & A2 & A3 & A4 & A5 & _).
  destruct (tick_gravity_fields (t_dt i) (tick_apply_jump (tick_timers i g)))
    as (B1 & _ & B2 & B3 & B4 & B5 & _).
  rewrite B1, B2, B3, B4, B5, A1, A2, A3, A4, A5, Ev.
  repeat split; reflexivity.
Qed.

(** The same state when no jump was executed in this tick. *)
Lemma tick_launch_idle (i : TickInput) (g : World) :
  jump_fires i g = false ->
  let g5 := tick_launch i g in
  vy (RUN g5) = clamp (vy (RUN g) + GRAVITY * t_dt i) (-5000.0) MAX_FALL_V /\
  on_ground (RUN g5) = on_ground (RUN g) /\
  jump_cut (RUN g5) = (if on_ground (RUN g) then false else jump_cut (RUN g)) /\
  coyote (RUN g5)
    = (if on_ground (RUN g) then coyote_t (RUN g)
       else Qmax 0.0 (coyote (RUN g) - t_dt i)).
Proof.
  unfold jump_fires, tick_launch. cbv zeta. intros Hr.
  destruct (tick_timers_fields i g) as (_ & _ & Ec & Ek & Eo & Ev & _).
  destruct (tick_apply_jump_fields (tick_timers i g)) as (_ & _ & _ & _ & Hno).
  destruct (tick_gravity_fields (t_dt i) (tick_apply_jump (tick_timers i g)))
    as (B1 & _ & B2 & B3 & _ & B5 & _).
  rewrite B1, B2, B3, B5, (Hno Hr), Ec, Ek, Eo, Ev.
  repeat split; reflexivity.
Qed.

(** C8. In a tick with [0 < dt <= 0.05] that delivers a jump press and
    no jump release while the player is on the ground, the tick ends
    with [vy = -jump_v + GRAVITY * dt] and [on_ground = false]: gravity
    is added in the tick of the launch.  The run parameters are those
    [newRunState] derives from upgrade levels of [0..6]. *)
Theorem launch_tick_includes_gravity (i : TickInput) (g : World) :
  0 < t_dt i -> t_dt i <= 0.05 ->
  t_jumpPressed i = true ->
  t_jumpReleased i = false ->
  on_ground (RUN g) = true ->
  run_params_ok (RUN g) ->
  vy (RUN (playUpdate i g)) = - jump_v (RUN g) + GRAVITY * t_dt i /\
  on_ground (RUN (playUpdate i g)) = false /\
  jumps_logged (playUpdate i g) = S (jumps_logged g).
Proof.
  intros Hdt0 Hdt1 Hp Hr Hg Hok.
  destruct (run_params_bounds _ Hok) as [[Hj1 Hj2] Hc].
  destruct (tick_timers_fields i g) as (_ & Eb & Ec & _).
  rewrite Hp in Eb. rewrite Hg in Ec.
  assert (Hf : jump_fires i g = true).
  { unfold jump_fires, jump_ready. rewrite Eb, Ec.
    apply andb_true_intro. split; apply ltb_lt.
    - reflexivity.
    - lra. }
  destruct (tick_launch_jumped i g Hf) as (Ev & Eo & Ek & _).
  rewrite clamp_id in Ev
    by (unfold GRAVITY, MAX_FALL_V; lra).
  assert (Hcut : cut_ready (t_jumpReleased i) (tick_launch i g) = false)
    by (unfold cut_ready; now rewrite Hr).
  destruct (tick_jump_cut_fields (t_jumpReleased i) (tick_launch i g))
    as (_ & _ & _ & _ & _ & _ & _ & _ & Hsame).
  specialize (Hsame Hcut).
  destruct (tick_vertical_rising (t_dt i) (tick_launch i g)) as [Fo Fv].
  { lra. }
  { rewrite Ev. unfold GRAVITY. lra. }
  destruct (playUpdate_fields i g) as (P1 & P2 & _).
  rewrite P1, P2, tick_kinematics_eq, Hsame, Fo, Fv, Ev.
  split; [reflexivity|]. split; [reflexivity|].
  apply jump_needs_buffer_and_coyote.
  unfold jump_fires, jump_ready in Hf. apply andb_prop in Hf.
  destruct Hf as [H1 H2]. apply ltb_lt in H1, H2.
  split; lra.
Qed.
End Launch.

Lemma launch_tick_includes_gravity_at_start :
  vy (RUN (playUpdate (tick_press (1 # 60)) world_play))
    = - jump_v (RUN world_play) + GRAVITY * (1 # 60) /\
  on_ground (RUN (playUpdate (tick_press (1 # 60)) world_play)) = false /\
  jumps_logged (playUpdate (tick_press (1 # 60)) world_play)
    = S (jumps_logged world_play).
Proof.
  apply (launch_tick_includes_gravity (tick_press (1 # 60)) world_play).
  - reflexivity.
  - discriminate.
  - reflexivity.
  - reflexivity.
  - reflexivity.
  - apply (newRunState_params_ok defaultSaveData).
    repeat split; discriminate.
Defined.

(** ** The jump cut *)

Lemma cuts_with_cons (step : TickInput -> World -> World) (i : TickInput)
    (rest : list TickInput) (g : World) :
  cuts_with step (i :: rest) g
  = ((if cut_fires i g then 1 else 0) + cuts_with step rest (step i g))%nat.
Proof. reflexivity. Qed.

Lemma airborne_with_cons (step : TickInput -> World -> World) (i : TickInput)
    (rest : list TickInput) (g : World) :
  airborne_with step (i :: rest) g
  <-> on_ground (RUN g) = false /\ airborne_with step rest (step i g).
Proof. reflexivity. Qed.

Lemma airborne_with_app (step : TickInput -> World -> World)
    (pre post : list TickInput) :
  forall g, airborne_with step (pre ++ post) g ->
            airborne_with step post (run_ticks step pre g).
Proof.
  induction pre as [|i pre IH]; intros g Ha; [exact Ha|].
  cbn [app] in Ha. apply airborne_with_cons in Ha. destruct Ha as [_ Ha].
  rewrite run_ticks_cons. apply IH, Ha.
Qed.

Lemma Qmax_zero_nonpos (v : Q) : v <= 0 -> Qmax 0.0 v <= 0.
Proof.
  intros Hv. destruct (Q.max_spec 0.0 v) as [[_ E]|[_ E]]; rewrite E; lra.
Qed.

Section JumpCut.
Context `{HostMath}.

(** What one tick does to an airborne player whose coyote time is used
    up: no jump, no new coyote time, and the cut flag only ever goes
    from false to true, by a cut. *)
Lemma airborne_tick (i : TickInput) (g : World) :
  on_ground (RUN g) = false ->
  coyote (RUN g) <= 0 ->
  0 <= t_dt i ->
  jump_fires i g = false /\
  coyote (RUN (playUpdate i g)) <= 0 /\
  cut_fires i g
    = t_jumpReleased i && negb (jump_cut (RUN g)) && (vy (RUN (tick_launch i g)) <? 0) /\
  jump_cut (RUN (playUpdate i g)) = jump_cut (RUN g) || cut_fires i g.
Proof.
  intros Hg Hc Hdt.
  assert (Hf : jump_fires i g = false).
  { unfold jump_fires, jump_ready.
    destruct (tick_timers_fields i g) as (_ & _ & Ec & _).
    rewrite Ec, Hg. apply andb_false_iff. right. apply ltb_ge.
    pose proof (Qmax_zero_nonpos (coyote (RUN g) - t_dt i) ltac:(lra)). lra. }
  destruct (tick_launch_idle i g Hf) as (_ & Eo & Ek & Ec).
  rewrite Hg in Eo, Ek, Ec.
  assert (Hcut : cut_fires i g
                 = t_jumpReleased i && negb (jump_cut (RUN g))
                   && (vy (RUN (tick_launch i g)) <? 0)).
  { unfold cut_fires, cut_ready. rewrite Eo, Ek.
    destruct (t_jumpReleased i); reflexivity. }
  destruct (playUpdate_fields i g) as (_ & _ & P3 & _ & P5 & _).
  rewrite P3, P5, tick_kinematics_eq.
  destruct (tick_vertical_fields (t_dt i)
              (tick_jump_cut (t_jumpReleased i) (tick_launch i g)))
    as (_ & V2 & _ & V4 & _).
  rewrite V2, V4.
  destruct (tick_jump_cut_fields (t_jumpReleased i) (tick_launch i g))
    as (_ & _ & C3 & _ & _ & _ & _ & Cyes & Cno).
  rewrite C3, Ec.
  split; [exact Hf|]. split; [|split; [exact Hcut|]].
  - apply Qmax_zero_nonpos. lra.
  - fold (cut_fires i g) in Cyes, Cno.
    destruct (cut_fires i g) eqn:Ecut.
    + destruct (Cyes eq_refl) as [_ ->]. now rewrite orb_true_r.
    + rewrite (Cno eq_refl), Ek. now rewrite orb_false_r.
Qed.

(** Along an airborne stretch the cut is applied at most once, and not
    at all once the cut flag is set. *)
Lemma airborne_cuts (inputs : list TickInput) :
  forall g,
    coyote (RUN g) <= 0 ->
    Forall (fun i => 0 <= t_dt i) inputs ->
    airborne_during inputs g ->
    (cuts_in inputs g <= (if jump_cut (RUN g) then 0 else 1))%nat.
Proof.
  unfold airborne_during, cuts_in.
  induction inputs as [|i rest IH]; intros g Hc Hall Ha.
  - cbn. destruct (jump_cut (RUN g)); lia.
  - inversion Hall as [|? ? Hi Hrest]; subst.
    apply airborne_with_cons in Ha. destruct Ha as [Hg Ha].
    destruct (airborne_tick i g Hg Hc Hi) as (_ & Hc' & Ecut & Ek).
    rewrite cuts_with_cons.
    specialize (IH (playUpdate i g) Hc' Hrest Ha).
    rewrite Ek in IH.
    destruct (jump_cut (RUN g)) eqn:Ej.
    + rewrite Ecut, andb_false_r in *. cbn [orb andb] in IH. cbn [andb]. lia.
    + destruct (cut_fires i g); cbn [orb] in IH; lia.
Qed.

(** The invariant holds all along an airborne stretch. *)
Lemma airborne_prefix (pre : list TickInput) :
  forall g post,
    coyote (RUN g) <= 0 ->
    Forall (fun i => 0 <= t_dt i) (pre ++ post) ->
    airborne_during (pre ++ post) g ->
    coyote (RUN (play_ticks pre g)) <= 0 /\
    (jump_cut (RUN g) = true -> jump_cut (RUN (play_ticks pre g)) = true).
Proof.
  induction pre as [|i pre IH]; intros g post Hc Hall Ha.
  - rewrite play_ticks_nil. auto.
  - cbn [app] in Hall, Ha. inversion Hall as [|? ? Hi Hrest]; subst.
    apply airborne_with_cons in Ha. destruct Ha as [Hg Ha].
    destruct (airborne_tick i g Hg Hc Hi) as (_ & Hc' & _ & Ek).
    rewrite play_ticks_cons.
    destruct (IH (playUpdate i g) post Hc' Hrest Ha) as [A B].
    split; [exact A|]. intros Ej. apply B. rewrite Ek, Ej. reflexivity.
Qed.

(** The launch tick: the jump uses up the coyote time, and a cut in
    the same tick sets the flag. *)
Lemma launch_tick (i : TickInput) (g : World) :
  jump_fires i g = true ->
  coyote (RUN (playUpdate i g)) <= 0 /\
  (cut_fires i g = true -> jump_cut (RUN (playUpdate i g)) = true).
Proof.
  intros Hf.
  destruct (tick_launch_jumped i g Hf) as (_ & _ & _ & Ec & _).
  destruct (playUpdate_fields i g) as (_ & _ & P3 & _ & P5 & _).
  rewrite P3, P5, tick_kinematics_eq.
  destruct (tick_vertical_fields (t_dt i)
              (tick_jump_cut (t_jumpReleased i) (tick_launch i g)))
    as (_ & V2 & _ & V4 & _).
  rewrite V2, V4.
  destruct (tick_jump_cut_fields (t_jumpReleased i) (tick_launch i g))
    as (_ & _ & C3 & _ & _ & _ & _ & Cyes & _).
  rewrite C3, Ec. split; [lra|].
  intros Hcut. apply Cyes, Hcut.
Qed.

(** C9. In an airborne arc, that is the tick in which the jump is
    executed followed by ticks that each start off the ground, the jump
    cut is applied in at most one tick.  In every tick of the arc that
    starts with the cut flag set, a release edge does not cut again: the
    block of [// jump cut] leaves the state, and so [vy], as gravity
    left it.  A cut multiplies the [vy] left by gravity by
    [JUMP_CUT_MULT] and sets the flag, which stays set for the rest of
    the arc. *)
Theorem jump_cut_once (i0 : TickInput) (rest : list TickInput) (g : World) :
  jump_fires i0 g = true ->
  Forall (fun i => 0 <= t_dt i) rest ->
  airborne_during rest (playUpdate i0 g) ->
  (cuts_in (i0 :: rest) g <= 1)%nat /\
  (forall pre i post, rest = pre ++ i :: post ->
     let g1 := play_ticks (i0 :: pre) g in
     (jump_cut (RUN g1) = true ->
        cut_fires i g1 = false /\
        tick_jump_cut (t_jumpReleased i) (tick_launch i g1) = tick_launch i g1 /\
        jump_cut (RUN (playUpdate i g1)) = true) /\
     (cut_fires i g1 = true ->
        jump_cut (RUN g1) = false /\
        vy (RUN (playUpdate i g1))
          = vy (RUN (tick_launch i g1)) * JUMP_CUT_MULT /\
        jump_cut (RUN (playUpdate i g1)) = true)).
Proof.
  intros Hf Hall Ha.
  destruct (launch_tick i0 g Hf) as [Hc0 Hk0].
  split.
  - unfold cuts_in. rewrite cuts_with_cons.
    pose proof (airborne_cuts rest (playUpdate i0 g) Hc0 Hall Ha) as Hle.
    unfold cuts_in in Hle.
    destruct (cut_fires i0 g).
    + rewrite (Hk0 eq_refl) in Hle. lia.
    + destruct (jump_cut _) in Hle; lia.
  - intros pre i post E. cbv zeta. rewrite play_ticks_cons.
    subst rest.
    destruct (airborne_prefix pre (playUpdate i0 g) (i :: post) Hc0 Hall Ha)
      as [Hc1 _].
    apply (airborne_with_app playUpdate) in Ha.
    apply airborne_with_cons in Ha. destruct Ha as [Hg1 _].
    fold (play_ticks pre (playUpdate i0 g)) in Hg1.
    apply Forall_app in Hall. destruct Hall as [_ Hall].
    inversion Hall as [|? ? Hi _]; subst.
    set (g1 := play_ticks pre (playUpdate i0 g)) in *.
    destruct (airborne_tick i g1 Hg1 Hc1 Hi) as (Hnf & _ & Ecut & Ek).
    destruct (tick_jump_cut_fields (t_jumpReleased i) (tick_launch i g1))
      as (_ & _ & _ & _ & _ & _ & _ & Cyes & Cno).
    fold (cut_fires i g1) in Cyes, Cno.
    split.
    + intros Ej.
      assert (Hno : cut_fires i g1 = false)
        by (rewrite Ecut, Ej, andb_false_r; reflexivity).
      split; [exact Hno|]. split; [apply Cno, Hno|].
      rewrite Ek, Ej. reflexivity.
    + intros Hcut.
      assert (Ej : jump_cut (RUN g1) = false).
      { rewrite Ecut in Hcut. destruct (jump_cut (RUN g1)); [|reflexivity].
        rewrite andb_false_r in Hcut. discriminate. }
      split; [exact Ej|].
      destruct (Cyes Hcut) as [Ev Ec].
      assert (Hneg : vy (RUN (tick_launch i g1)) < 0).
      { rewrite Ecut in Hcut. apply andb_prop in Hcut.
        destruct Hcut as [_ Hv]. now apply ltb_lt in Hv. }
      destruct (tick_vertical_rising (t_dt i)
                  (tick_jump_cut (t_jumpReleased i) (tick_launch i g1)) Hi)
        as [_ Fv].
      { rewrite Ev. unfold JUMP_CUT_MULT.
        assert (0 <= (- vy (RUN (tick_launch i g1))) * 0.55)
          by (apply Qmult_le_0_compat; lra).
        lra. }
      destruct (playUpdate_fields i g1) as (P1 & _ & _ & _ & P5 & _).
      rewrite P1, tick_kinematics_eq, Fv, Ev.
      split; [reflexivity|].
      rewrite Ek, Hcut. apply orb_true_r.
Qed.
End JumpCut.

Lemma jump_cut_once_press_then_release :
  (cuts_in [tick_press (1 # 60); tick_release (1 # 60); tick_release (1 # 60)]
     world_play <= 1)%nat.
Proof.
  apply (jump_cut_once (tick_press (1 # 60))
           [tick_release (1 # 60); tick_release (1 # 60)] world_play).
  - vm_compute. reflexivity.
  - repeat constructor; discriminate.
  - apply airborne_with_cons. split; [vm_compute; reflexivity|].
    apply airborne_with_cons. split; [vm_compute; reflexivity|].
    exact I.
Defined.

(** ** Death *)

(** The kinematic blocks after the first leave the saved data, the mode,
    the score and the coins alone. *)
Lemma tick_after_score_keeps (i : TickInput) (g : World) :
  let k := tick_kinematics i g in
  let g1 := tick_speed_score (t_dt i) g in
  SAVE k = SAVE g1 /\ mode k = mode g1 /\
  score (RUN k) = score (RUN g1) /\ coins_run (RUN k) = coins_run (RUN g1).
Proof.
  cbv zeta. rewrite tick_kinematics_eq.
  assert (V : forall dt g0,
             SAVE (tick_vertical dt g0) = SAVE g0 /\
             mode (tick_vertical dt g0) = mode g0 /\
             score (RUN (tick_vertical dt g0)) = score (RUN g0) /\
             coins_run (RUN (tick_vertical dt g0)) = coins_run (RUN g0)).
  { intros dt g0. unfold tick_vertical, land_feedback. cbv zeta.
    split_ifs; repeat split; reflexivity. }
  assert (C : forall b g0,
             SAVE (tick_jump_cut b g0) = SAVE g0 /\
             mode (tick_jump_cut b g0) = mode g0 /\
             score (RUN (tick_jump_cut b g0)) = score (RUN g0) /\
             coins_run (RUN (tick_jump_cut b g0)) = coins_run (RUN g0)).
  { intros b g0. unfold tick_jump_cut. destruct (cut_ready b g0);
      repeat split; reflexivity. }
  assert (J : forall g0,
             SAVE (tick_apply_jump g0) = SAVE g0 /\
             mode (tick_apply_jump g0) = mode g0 /\
             score (RUN (tick_apply_jump g0)) = score (RUN g0) /\
             coins_run (RUN (tick_apply_jump g0)) = coins_run (RUN g0)).
  { intros g0. unfold tick_apply_jump. destruct (jump_ready g0);
      repeat split; reflexivity. }
  assert (Y : forall dt g0,
             SAVE (tick_coyote dt g0) = SAVE g0 /\
             mode (tick_coyote dt g0) = mode g0 /\
             score (RUN (tick_coyote dt g0)) = score (RUN g0) /\
             coins_run (RUN (tick_coyote dt g0)) = coins_run (RUN g0)).
  { intros dt g0. unfold tick_coyote, on_RUN. split_ifs; repeat split; reflexivity. }
  assert (B : forall dt b g0,
             SAVE (tick_jump_buffer dt b g0) = SAVE g0 /\
             mode (tick_jump_buffer dt b g0) = mode g0 /\
             score (RUN (tick_jump_buffer dt b g0)) = score (RUN g0) /\
             coins_run (RUN (tick_jump_buffer dt b g0)) = coins_run (RUN g0)).
  { intros dt b g0. unfold tick_jump_buffer, on_RUN. destruct b;
      repeat split; reflexivity. }
  unfold tick_launch, tick_timers. cbv zeta.
  match goal with |- context [tick_vertical ?dt ?g0] =>
    destruct (V dt g0) as (-> & -> & -> & ->) end.
  match goal with |- context [tick_jump_cut ?b ?g0] =>
    destruct (C b g0) as (-> & -> & -> & ->) end.
  change (SAVE (tick_gravity ?dt ?g0)) with (SAVE g0).
  change (mode (tick_gravity ?dt ?g0)) with (mode g0).
  change (score (RUN (tick_gravity ?dt ?g0))) with (score (RUN g0)).
  change (coins_run (RUN (tick_gravity ?dt ?g0))) with (coins_run (RUN g0)).
  match goal with |- context [tick_apply_jump ?g0] =>
    destruct (J g0) as (-> & -> & -> & ->) end.
  match goal with |- context [tick_coyote ?dt ?g0] =>
    destruct (Y dt g0) as (-> & -> & -> & ->) end.
  match goal with |- context [tick_jump_buffer ?dt ?b ?g0] =>
    destruct (B dt b g0) as (-> & -> & -> & ->) end.
  repeat split; reflexivity.
Qed.

Lemma die_save `{HostMath} (g : World) :
  money (SAVE (die g))
    = money (SAVE g) + floor (fmul (coins_run (RUN g)) (coin_mul (RUN g))) /\
  best_score (SAVE (die g))
    = Qmax (Qmax (best_score (SAVE g)) (score (RUN g))) (score (RUN g)) /\
  sfx_log (die g) = SfxDead :: sfx_log g /\
  score (RUN (die g)) = score (RUN g) /\
  coin_mul (RUN (die g)) = coin_mul (RUN g).
Proof.
  unfold die, awardMoneyAndSave, updateBestScore. cbv zeta.
  unfold addShake. destruct (negb _); repeat split; reflexivity.
Qed.

Lemma find_finds {A} (f : A -> bool) (l : list A) (x : A) :
  In x l -> f x = true -> exists y, find f l = Some y.
Proof.
  intros Hin Hx. destruct (find f l) as [y|] eqn:Ef; [eauto|].
  pose proof (find_none _ _ Ef x Hin). congruence.
Qed.

(** [uiTick] writes [JUICE.uiFade] and [lastMode] and nothing else. *)
Lemma uiTick_keeps (dt : Q) (l : Loop) :
  let l' := uiTick dt l in
  RUN (game l') = RUN (game l) /\ SAVE (game l') = SAVE (game l) /\
  mode (game l') = mode (game l) /\ paused (game l') = paused (game l) /\
  sfx_log (game l') = sfx_log (game l) /\
  playerSquash (JUICE (game l')) = playerSquash (JUICE (game l)) /\
  playerStretch (JUICE (game l')) = playerStretch (JUICE (game l)) /\
  coinPulse (JUICE (game l')) = coinPulse (JUICE (game l)) /\
  0 <= uiFade (JUICE (game l')) <= 1.
Proof.
  cbv zeta. unfold uiTick. cbv zeta.
  destruct (negb (mode_eqb (mode (game l)) (lastMode l)));
    cbn [game JUICE on_JUICE set_JUICE RUN SAVE mode paused sfx_log
         playerSquash playerStretch coinPulse uiFade set_uiFade];
    repeat split; try reflexivity;
      apply (clamp_bounds _ 0 1); discriminate.
Qed.

(** A frame of the dead screen: [uiTick] only. *)
Lemma frame_dead `{HostMath} (i : TickInput) (l : Loop) :
  mode (game l) = MODE_DEAD -> frame i l = uiTick (t_dt i) l.
Proof.
  intros E. unfold frame. cbv zeta.
  destruct (uiTick_keeps (t_dt i) l) as (_ & _ & Em & _). cbv zeta in Em.
  rewrite Em, E. reflexivity.
Qed.

Lemma frames_dead `{HostMath} (inputs : list TickInput) :
  forall l,
    mode (game l) = MODE_DEAD ->
    let l' := frames inputs l in
    RUN (game l') = RUN (game l) /\ SAVE (game l') = SAVE (game l) /\
    mode (game l') = MODE_DEAD /\ paused (game l') = paused (game l) /\
    sfx_log (game l') = sfx_log (game l).
Proof.
  induction inputs as [|i rest IH]; intros l E; cbn [frames].
  - cbv zeta. repeat split; try reflexivity. exact E.
  - cbv zeta. rewrite (frame_dead i l E).
    destruct (uiTick_keeps (t_dt i) l) as (E1 & E2 & E3 & E4 & E5 & _).
    cbv zeta in E1, E2, E3, E4, E5.
    destruct (IH (uiTick (t_dt i) l)) as (F1 & F2 & F3 & F4 & F5);
      [rewrite E3; exact E|].
    cbv zeta in F1, F2, F3, F4, F5.
    repeat split; congruence.
Qed.

Section Death.
Context `{HostMath}.

Lemma before_hazards_save (i : TickInput) (g : World) :
  let g1 := tick_before_hazards i g in
  money (SAVE g1) = money (SAVE g) /\
  best_score (SAVE g1) = Qmax (best_score (SAVE g)) (score (RUN g1)) /\
  mode g1 = mode g.
Proof.
  cbv zeta.
  destruct (tick_before_hazards_body i g) as (Eb & -> & ->).
  destruct (body_eq _ _ Eb) as (_ & _ & _ & _ & _ & _ & _ & _ & _ & ->).
  destruct (tick_after_score_keeps i g) as (-> & -> & -> & _).
  repeat split; reflexivity.
Qed.

(** C6. If the player overlaps a spike when [playUpdate] reaches
    [// hazard collide], the tick ends the run: the mode becomes
    [MODE_DEAD], [sfx.dead()] is called, [SAVE.money] grows by exactly
    [Math.floor(coins_run * coin_mul)], the product being the one the
    host computes, and [SAVE.best_score] becomes the maximum of the
    previous best and the final score.  The loop stops at the first
    spike of the list that the player overlaps, and the outcome does
    not depend on which one it is.  In the frames that follow, until a
    button is clicked, [frame] runs [uiTick] and the dead screen only:
    the run, the saved data, the mode and the sounds played stay as the
    tick left them, whatever [lastMode] holds. *)
Theorem hazard_ends_run (i : TickInput) (g : World) :
  let g1 := tick_before_hazards i g in
  let g' := playUpdate i g in
  (exists h, In h (hazards (RUN g1)) /\ colliderect (player (RUN g1)) h = true) ->
  (exists h, find (colliderect (player (RUN g1))) (hazards (RUN g1)) = Some h) /\
  g' = die g1 /\
  mode g' = MODE_DEAD /\
  money (SAVE g')
    = money (SAVE g) + floor (fmul (coins_run (RUN g')) (coin_mul (RUN g'))) /\
  best_score (SAVE g') == Qmax (best_score (SAVE g)) (score (RUN g')) /\
  sfx_log g' = SfxDead :: sfx_log g1 /\
  (forall inputs lm,
     let l := frames inputs (mkLoop g' lm) in
     RUN (game l) = RUN g' /\ SAVE (game l) = SAVE g' /\
     mode (game l) = MODE_DEAD /\ paused (game l) = paused g' /\
     sfx_log (game l) = sfx_log g').
Proof.
  cbv zeta. intros (h & Hin & Hc).
  assert (Hf : exists h0, find (colliderect (player (RUN (tick_before_hazards i g))))
                            (hazards (RUN (tick_before_hazards i g))) = Some h0).
  { exact (find_finds _ _ h Hin Hc). }
  assert (Hd : playUpdate i g = die (tick_before_hazards i g)).
  { unfold playUpdate. cbv zeta. destruct Hf as [h0 ->]. reflexivity. }
  split; [exact Hf|]. split; [exact Hd|]. rewrite Hd.
  destruct (die_body (tick_before_hazards i g)) as (_ & Ec & Em).
  destruct (die_save (tick_before_hazards i g)) as (S1 & S2 & S3 & S4 & S5).
  destruct (before_hazards_save i g) as (B1 & B2 & _).
  split; [exact Em|]. split; [|split; [|split]].
  - rewrite S1, Ec, S5, B1. reflexivity.
  - rewrite S2, S4, B2.
    set (b := best_score (SAVE g)). set (s := score (RUN (tick_before_hazards i g))).
    destruct (Q.max_spec b s) as [[A1 A2]|[A1 A2]];
    destruct (Q.max_spec (Qmax b s) s) as [[C1 C2]|[C1 C2]];
    destruct (Q.max_spec (Qmax (Qmax b s) s) s) as [[D1 D2]|[D1 D2]];
    rewrite ?D2, ?C2, ?A2; rewrite ?A2, ?C2 in *; lra.
  - exact S3.
  - intros inputs lm.
    exact (frames_dead inputs (mkLoop (die (tick_before_hazards i g)) lm) Em).
Qed.
End Death.

(** In binary64, with 45 coins in the bag at multiplier 1.4: the run
    ends and pays 62, since [45 * 1.4] is [62.99999999999999]. *)
Lemma hazard_ends_run_at_spike :
  let g := on_RUN (fun r => set_coin_mul (@lit double_host 1.4)
                              (set_coins_run 45 r)) world_at_spike in
  let g' := @playUpdate double_host (tick_idle (1 # 60)) g in
  mode g' = MODE_DEAD /\
  money (SAVE g')
    = money (SAVE g)
      + floor (@fmul double_host (coins_run (RUN g')) (coin_mul (RUN g'))) /\
  money (SAVE g') == 10 + 62.
Proof.
  cbv zeta.
  destruct (@hazard_ends_run double_host (tick_idle (1 # 60))
              (on_RUN (fun r => set_coin_mul (@lit double_host 1.4)
                                  (set_coins_run 45 r)) world_at_spike))
    as (_ & _ & Hm & Hs & _).
  - exists (rect 3170 406 40 32). split; vm_compute; auto.
  - split; [exact Hm|]. split; [exact Hs|].
    vm_compute. reflexivity.
Defined.

(** The payout in the arithmetic of binary64: 45 coins at multiplier
    1.4 pay 62, since [45 * 1.4] is [62.99999999999999], and 5 coins pay
    7. *)
Example payout_in_doubles :
  let g := mkWorld (mkSave 10 7 defaultUpgrades defaultSettings)
             (set_coin_mul (@lit double_host 1.4)
                (set_coins_run 45 (RUN world_at_spike)))
             (mkJuice 0 0 0 1) MODE_PLAY false [] in
  money (SAVE (@die double_host g)) == 10 + 62 /\
  floor (@fmul double_host 5 (@lit double_host 1.4)) == 7.
Proof. cbv zeta. split; vm_compute; reflexivity. Qed.

(* ================================================================== *)
(** * Further properties of the collision kernel *)
(* ================================================================== *)

(** [colliderect] does not depend on the order of its arguments. *)
Theorem colliderect_sym (a b : Rect) : colliderect a b = colliderect b a.
Proof.
  unfold colliderect.
  destruct (rx a <? rx b + rw b), (rx b <? rx a + rw a),
           (ry a <? ry b + rh b), (ry b <? ry a + rh a); reflexivity.
Qed.

(** For rectangles of positive width and height, [colliderect] holds
    exactly when the intersection has positive width and height; in
    particular rectangles that share only an edge do not collide. *)
Theorem colliderect_positive_area (a b : Rect) :
  0 < rw a -> 0 < rh a -> 0 < rw b -> 0 < rh b ->
  (colliderect a b = true <->
     Qmax (rx a) (rx b) < Qmin (rx a + rw a) (rx b + rw b) /\
     Qmax (ry a) (ry b) < Qmin (ry a + rh a) (ry b + rh b)) /\
  (rx a + rw a == rx b -> colliderect a b = false) /\
  (ry a + rh a == ry b -> colliderect a b = false).
Proof.
  intros Hwa Hha Hwb Hhb.
  assert (Hiff : colliderect a b = true <->
                 (rx a < rx b + rw b /\ rx b < rx a + rw a) /\
                 (ry a < ry b + rh b /\ ry b < ry a + rh a)).
  { unfold colliderect. rewrite !andb_true_iff, !ltb_lt. tauto. }
  split; [|split].
  - rewrite Hiff.
    repeat (rewrite Q.max_lub_lt_iff || rewrite Q.min_glb_lt_iff).
    split; intros H; repeat split; try apply H; lra.
  - intros E. apply not_true_is_false. intros Hc. apply Hiff in Hc. lra.
  - intros E. apply not_true_is_false. intros Hc. apply Hiff in Hc. lra.
Qed.

Lemma colliderect_positive_area_player_on_platform :
  colliderect (rect 160 378 44 58) (rect 0 436 2160 24) = false.
Proof.
  apply (colliderect_positive_area (rect 160 378 44 58) (rect 0 436 2160 24));
    reflexivity.
Defined.

(** ** Bumping a platform from below *)

Section Bumping.
Variables (P : Rect) (ps : list Rect) (step : Q).
Hypothesis step_neg : step < 0.
Hypothesis step_small : -6 < step.
Hypothesis P_listed : In P ps.

End Bumping.

Lemma sweep_step_neg (dy : Q) :
  dy < 0 -> dy / inject_Z (sweep_steps dy) < 0.
Proof.
  intros Hdy.
  pose proof (sweep_steps_Qpos dy) as Hq.
  set (k := inject_Z (sweep_steps dy)) in *.
  assert (Hk : 0 < / k) by (apply Qinv_lt_0_compat; lra).
  unfold Qdiv.
  assert (Hp : 0 < (- dy) * / k) by (apply Qmult_lt_0_compat; lra).
  assert (E : dy * / k == - ((- dy) * / k)) by ring.
  rewrite E. lra.
Qed.




(** ** One-way platforms seen from above, moving up *)

Lemma sweep_loop_skip_up (P : Rect) (l1 l2 : list Rect) (n : nat) (step : Q) :
  step <= 0 ->
  forall pl pyF,
    ry pl < ry P + rh P ->
    floor pyF < ry P + rh P ->
    sweep_loop n step pl pyF (l1 ++ P :: l2)
    = sweep_loop n step pl pyF (l1 ++ l2).
Proof.
  intros Hs. induction n as [|n IH]; intros pl pyF H1 H2; cbn [sweep_loop].
  - reflexivity.
  - assert (E : (0 <? step) = false) by now apply ltb_ge.
    rewrite E. rewrite find_skip.
    + destruct (find _ (l1 ++ l2)); [reflexivity|].
      assert (Hm : floor (pyF + step) <= floor pyF) by (apply floor_mono; lra).
      apply IH; cbn; lra.
    + unfold bumps_on. apply andb_false_iff. right. apply leb_gt. exact H1.
Qed.

(** An upward sweep ([dy < 0]) that is entered with the rectangle in
    step with the float position ([player.y = floor(pyFloat)], as at
    the call in [playUpdate]) is never stopped by a platform [P] whose
    bottom edge is already below the player's top edge: the call returns
    what it returns without [P], so the player rises through platforms
    it is inside of or above.  Without the condition the first sub-step
    can carry the rectangle from above [P]'s bottom edge to below it
    and back into [P] ([sweep_out_of_step_bumps_from_above]). *)
Theorem one_way_from_above (pl P : Rect) (pyF dy : Q) (l1 l2 : list Rect) :
  dy < 0 ->
  synced pl pyF ->
  ry pl < ry P + rh P ->
  collideVerticalSweep pl pyF dy (l1 ++ P :: l2)
  = collideVerticalSweep pl pyF dy (l1 ++ l2).
Proof.
  intros Hdy Hsync Habove.
  unfold collideVerticalSweep. destruct (Qeq_bool dy 0); [reflexivity|].
  cbv zeta. apply sweep_loop_skip_up.
  - pose proof (sweep_step_neg dy Hdy). lra.
  - exact Habove.
  - unfold synced in Hsync. now rewrite <- Hsync.
Qed.

Lemma one_way_from_above_example :
  collideVerticalSweep (rect 160 300 44 58) 300 (-14) [rect 100 310 200 20]
  = collideVerticalSweep (rect 160 300 44 58) 300 (-14) [].
Proof.
  apply (one_way_from_above (rect 160 300 44 58) (rect 100 310 200 20)
           300 (-14) [] []); reflexivity.
Defined.

(** A call that is out of step: the rectangle at 300, the float
    position at 340, [P] from 300 to 320.  The player's top is above
    [P]'s bottom edge, and still the sweep bumps it against [P]. *)
Example sweep_out_of_step_bumps_from_above :
  let pl := rect 160 300 44 58 in
  let P := rect 100 300 200 20 in
  let out := collideVerticalSweep pl 340 (-24) [P] in
  ry pl < ry P + rh P /\ ~ synced pl 340 /\
  bumped (snd out) = true /\ ry (fst out) == 320 /\
  bumped (snd (collideVerticalSweep pl 340 (-24) [])) = false.
Proof.
  cbv zeta. split; [reflexivity|].
  split; [unfold synced; vm_compute; discriminate|].
  split; [vm_compute; reflexivity|].
  split; vm_compute; reflexivity.
Qed.

(** ** Where a downward sweep can leave the player *)

Lemma sweep_loop_down_range (ps : list Rect) (step : Q) (n : nat) :
  0 < step ->
  forall pl pyF,
    ry pl <= floor pyF ->
    let out := sweep_loop n step pl pyF ps in
    ry pl <= ry (fst out) /\
    pyFloat (snd out) <= pyF + inject_Z (Z.of_nat n) * step /\
    rx (fst out) = rx pl /\ rw (fst out) = rw pl /\ rh (fst out) = rh pl.
Proof.
  intros Hs. induction n as [|n IH]; intros pl pyF Hle; cbn [sweep_loop].
  - cbv zeta. cbn [fst snd ry pyFloat rx rw rh].
    change (inject_Z (Z.of_nat 0)) with 0.
    repeat split; try reflexivity; lra.
  - rewrite Nat2Z.inj_succ. unfold Z.succ. rewrite inject_Z_plus.
    change (inject_Z 1) with 1.
    assert (E : (0 <? step) = true) by now apply ltb_lt.
    rewrite E.
    assert (Hm : floor pyF <= floor (pyF + step)) by (apply floor_mono; lra).
    assert (Hn : 0 <= inject_Z (Z.of_nat n) * step).
    { apply Qmult_le_0_compat; [|lra].
      change 0 with (inject_Z 0). rewrite <- Zle_Qle. lia. }
    destruct (find _ ps) as [p|] eqn:Ef.
    + apply find_some in Ef. destruct Ef as [_ Hp].
      unfold lands_on in Hp. apply andb_prop in Hp. destruct Hp as [Hc Hprev].
      apply leb_le in Hprev. unfold colliderect in Hc. cmp_hyps.
      cbn [ry rh set_ry fst snd pyFloat rx rw] in *.
      pose proof (floor_le (pyF + step)).
      repeat split; try reflexivity; lra.
    + cbv zeta in IH.
      destruct (IH (set_ry pl (floor (pyF + step))) (pyF + step))
        as (A1 & A2 & A3 & A4 & A5).
      { cbn. lra. }
      cbn [ry set_ry rx rw rh] in A1, A3, A4, A5.
      repeat split; try assumption; lra.
Qed.

(** A downward sweep never moves the player up and never moves the
    float position past the displacement; it changes [player.y] only. *)
Theorem sweep_down_stays_in_range (pl : Rect) (pyF dy : Q) (ps : list Rect) :
  0 < dy ->
  synced pl pyF ->
  let out := collideVerticalSweep pl pyF dy ps in
  ry pl <= ry (fst out) /\
  pyFloat (snd out) <= pyF + dy /\
  rx (fst out) = rx pl /\ rw (fst out) = rw pl /\ rh (fst out) = rh pl.
Proof.
  intros Hdy Hsync. cbv zeta. unfold collideVerticalSweep.
  destruct (Qeq_bool dy 0) eqn:E0.
  - apply Qeq_bool_iff in E0. lra.
  - cbv zeta.
    destruct (sweep_loop_down_range ps (dy / inject_Z (sweep_steps dy))
                (Z.to_nat (sweep_steps dy)) (proj2 (sweep_step_sign dy) Hdy)
                pl pyF) as (A1 & A2 & A3).
    { unfold synced in Hsync. rewrite Hsync. lra. }
    rewrite sweep_step_total in A2. auto.
Qed.

Lemma sweep_down_stays_in_range_example :
  let out := collideVerticalSweep (rect 160 370 44 58) 370 (25 # 2)
               [rect 0 436 2160 24] in
  370 <= ry (fst out) /\ pyFloat (snd out) <= 370 + (25 # 2).
Proof.
  destruct (sweep_down_stays_in_range (rect 160 370 44 58) 370 (25 # 2)
              [rect 0 436 2160 24]) as (A1 & A2 & _).
  - reflexivity.
  - reflexivity.
  - split; [exact A1 | exact A2].
Defined.

(** ** The rectangle follows the float position *)

Lemma whole_floor (v : Q) : whole (floor v).
Proof. now exists (Qfloor v). Qed.

Lemma floor_whole_minus (a b : Q) :
  whole a -> whole b -> floor (a - b) = a - b.
Proof.
  intros [x ->] [y ->]. unfold floor, Qfloor, Qminus, Qplus, Qopp, inject_Z.
  cbn [Qnum Qden Pos.mul]. now rewrite Z.div_1_r.
Qed.

Lemma floor_whole_plus (a b : Q) :
  whole a -> whole b -> floor (a + b) = a + b.
Proof.
  intros [x ->] [y ->]. unfold floor, Qfloor, Qplus, inject_Z.
  cbn [Qnum Qden Pos.mul]. now rewrite Z.div_1_r.
Qed.

Lemma sweep_loop_synced (ps : list Rect) (step : Q) (n : nat) :
  Forall whole_rect ps ->
  forall pl pyF,
    whole (rh pl) ->
    synced pl pyF ->
    let out := sweep_loop n step pl pyF ps in
    synced (fst out) (pyFloat (snd out)).
Proof.
  intros Hps. induction n as [|n IH]; intros pl pyF Hh Hsync; cbn [sweep_loop].
  - exact Hsync.
  - rewrite Forall_forall in Hps.
    destruct (0 <? step).
    + destruct (find _ ps) as [p|] eqn:Ef.
      * apply find_some in Ef. destruct Ef as [Hin _].
        destruct (Hps p Hin) as [Hy _].
        unfold synced. cbn [fst snd pyFloat ry rh set_ry].
        symmetry. now apply floor_whole_minus.
      * apply IH; [exact Hh | reflexivity].
    + destruct (find _ ps) as [p|] eqn:Ef.
      * apply find_some in Ef. destruct Ef as [Hin _].
        destruct (Hps p Hin) as [Hy Hhp].
        unfold synced. cbn [fst snd pyFloat ry rh set_ry].
        symmetry. now apply floor_whole_plus.
      * apply IH; [exact Hh | reflexivity].
Qed.

(** When the platforms have whole tops and heights and the player a
    whole height, as the generator and [newRunState] build them, the
    sweep returns the player and the float position in step again:
    [player.y = floor(pyFloat)], whatever it reports. *)
Theorem sweep_keeps_sync (pl : Rect) (pyF dy : Q) (ps : list Rect) :
  Forall whole_rect ps ->
  whole (rh pl) ->
  synced pl pyF ->
  let out := collideVerticalSweep pl pyF dy ps in
  synced (fst out) (pyFloat (snd out)).
Proof.
  intros Hps Hh Hsync. cbv zeta. unfold collideVerticalSweep.
  destruct (Qeq_bool dy 0); [exact Hsync|].
  cbv zeta. now apply sweep_loop_synced.
Qed.

Lemma sweep_keeps_sync_example :
  let out := collideVerticalSweep (rect 160 370 44 58) 370 (25 # 2)
               [rect 0 436 2160 24] in
  synced (fst out) (pyFloat (snd out)).
Proof.
  apply (sweep_keeps_sync (rect 160 370 44 58) 370 (25 # 2) [rect 0 436 2160 24]).
  - repeat constructor; [now exists 436%Z | now exists 24%Z].
  - now exists 58%Z.
  - reflexivity.
Defined.

(* ================================================================== *)
(** * Further properties of the level generator *)
(* ================================================================== *)

Lemma whole_integral (v : Q) : whole v -> integral v.
Proof. intros [z ->]. apply integral_inject. Qed.

Lemma whole_inject (z : Z) : whole (inject_Z z).
Proof. now exists z. Qed.

Lemma whole_plus (a b : Q) : whole a -> whole b -> whole (a + b).
Proof.
  intros Ha Hb. rewrite <- (floor_whole_plus a b Ha Hb). apply whole_floor.
Qed.

Lemma randi_whole (a b : Q) (d : Draw) : whole a -> whole (randi a b d).
Proof. intros Ha. unfold randi. apply whole_plus; [exact Ha | apply whole_floor]. Qed.

Lemma floor_whole (v : Q) : whole v -> floor v = v.
Proof. intros [z ->]. apply floor_inject. Qed.

(** [randi(a, b)] returns a whole number of [a..b], both ends included,
    for whole numbers [a <= b]: [Math.random() < 1] keeps it from
    reaching [b + 1]. *)
Theorem randi_between (a b : Z) (d : Draw) :
  (a <= b)%Z ->
  whole (randi (inject_Z a) (inject_Z b) d) /\
  inject_Z a <= randi (inject_Z a) (inject_Z b) d <= inject_Z b.
Proof.
  intros Hab. split.
  - apply randi_whole, whole_inject.
  - now apply randi_range.
Qed.

Lemma randi_between_gap :
  whole (randi 150 340 draw_top) /\ 150 <= randi 150 340 draw_top <= 340.
Proof.
  apply (randi_between 150 340 draw_top). discriminate.
Defined.

(** ** The platform of a chunk *)

Lemma prevLevel_of_level (prevTop : Q) : In (prevLevel_of prevTop) HEIGHT_LEVELS.
Proof.
  unfold prevLevel_of, HEIGHT_LEVELS, index. cbn [fold_left nth Z.to_nat Qfloor].
  cbv zeta.
  repeat match goal with
  | |- context [if ?c then _ else _] => destruct c
  end; cbn; auto.
Qed.

Lemma index_level (l : list Q) (i : Q) :
  (forall v, In v l -> In v HEIGHT_LEVELS) -> In (index l i) HEIGHT_LEVELS.
Proof.
  intros Hl. unfold index.
  destruct (nth_in_or_default (Z.to_nat (Qfloor i)) l 0) as [Hin|E].
  - apply Hl, Hin.
  - rewrite E. left. reflexivity.
Qed.

Lemma level_top_range (lvl : Q) :
  In lvl HEIGHT_LEVELS ->
  HIGHEST_TOP <= (GROUND_Y - 24) - lvl <= LOWEST_TOP.
Proof.
  unfold HEIGHT_LEVELS, HIGHEST_TOP, LOWEST_TOP, GROUND_Y, HEIGHT, GAME_H, GROUND_H.
  intros [<-|[<-|[<-|[<-|[]]]]]; lra.
Qed.

Lemma chunk_topY_bounds (d : ChunkDraws) (r : Run) :
  Qabs (chunk_topY d r - last_platform_top r) <= max_step (speed r) /\
  (HIGHEST_TOP <= last_platform_top r <= LOWEST_TOP ->
   HIGHEST_TOP <= chunk_topY d r <= LOWEST_TOP).
Proof.
  unfold chunk_topY. cbv zeta.
  set (prevTop := last_platform_top r).
  set (cands := HEIGHT_LEVELS ++ repeat (prevLevel_of prevTop)
                                   (if 520 <? speed r then 3%nat else 2%nat)).
  assert (Hc : forall v, In v cands -> In v HEIGHT_LEVELS).
  { intros v Hv. subst cands. apply in_app_or in Hv. destruct Hv as [Hv|Hv].
    - exact Hv.
    - apply repeat_spec in Hv. subst v. apply prevLevel_of_level. }
  pose proof (level_top_range _
                (index_level cands (randi 0 (length_of cands - 1) (d_lvl d)) Hc))
    as Hlvl.
  set (topY := GROUND_Y - 24 - index cands (randi 0 (length_of cands - 1) (d_lvl d))) in *.
  assert (Hm : 0 < max_step (speed r))
    by (unfold max_step; destruct (speed r <? 520); reflexivity).
  fold (max_step (speed r)).
  destruct (max_step (speed r) <? Qabs (topY - prevTop)) eqn:Ebig.
  - apply ltb_lt in Ebig.
    destruct (prevTop <? topY) eqn:Eup.
    + apply ltb_lt in Eup.
      rewrite (Qabs_pos (topY - prevTop)) in Ebig by lra.
      split.
      * rewrite Qabs_pos by lra. lra.
      * intros Hp. lra.
    + apply ltb_ge in Eup.
      rewrite (Qabs_neg (topY - prevTop)) in Ebig by lra.
      split.
      * rewrite Qabs_neg by lra. lra.
      * intros Hp. lra.
  - apply ltb_ge in Ebig. split; [exact Ebig|]. intros _. exact Hlvl.
Qed.

(** [spawnChunk] appends one platform and removes nothing.  The
    platform starts at the frontier, is 160 to 380 wide and 18 to 28
    high in whole pixels; its top is at most [max_step] (170 below
    speed 520, 125 from there on) away from the top of the previous
    platform, when that one is whole, and stays between the highest and
    the lowest height level when the previous top does. *)
Theorem chunk_platform_shape `{HostMath} (d : ChunkDraws) (r : Run) :
  let p := chunk_platform d r in
  platforms (spawnChunk d r) = platforms r ++ [p] /\
  last_platform_top (spawnChunk d r) = ry p /\
  rx p = floor (next_spawn_x r) /\
  whole (ry p) /\ whole (rw p) /\ whole (rh p) /\
  PLATFORM_MIN_W <= rw p <= PLATFORM_MAX_W /\
  PLATFORM_MIN_H <= rh p <= PLATFORM_MAX_H /\
  (whole (last_platform_top r) ->
   Qabs (ry p - last_platform_top r) <= max_step (speed r)) /\
  (HIGHEST_TOP <= last_platform_top r <= LOWEST_TOP ->
   HIGHEST_TOP <= ry p <= LOWEST_TOP).
Proof.
  cbv zeta.
  assert (Hp : platforms (spawnChunk d r) = platforms r ++ [chunk_platform d r]).
  { unfold spawnChunk. cbv zeta.
    destruct (d_haz d <? _), (d_coin d <? _); reflexivity. }
  assert (Hw : whole (randi PLATFORM_MIN_W PLATFORM_MAX_W (d_w d)))
    by apply randi_whole, (whole_inject 160).
  assert (Hh : whole (randi PLATFORM_MIN_H PLATFORM_MAX_H (d_h d)))
    by apply randi_whole, (whole_inject 18).
  destruct (chunk_topY_bounds d r) as [Hstep Hband].
  split; [exact Hp|]. split; [reflexivity|]. split; [reflexivity|].
  split; [apply whole_floor|]. split; [apply whole_floor|].
  split; [apply whole_floor|].
  split; [apply chunk_platform_width|].
  split; [|split].
  - cbn [chunk_platform rh]. rewrite (floor_whole _ Hh).
    apply (randi_range 18 28 (d_h d)). discriminate.
  - intros Hprev. cbn [chunk_platform ry].
    set (t := chunk_topY d r) in *. set (q := last_platform_top r) in *.
    set (m := max_step (speed r)) in *.
    assert (Hmw : whole m)
      by (subst m; unfold max_step; destruct (speed r <? 520);
          [apply (whole_inject 170) | apply (whole_inject 125)]).
    apply Qabs_Qle_condition in Hstep.
    apply Qabs_Qle_condition.
    pose proof (floor_le t) as Hfl.
    assert (Hlow : q - m <= floor t).
    { rewrite <- (floor_whole_minus q m Hprev Hmw). apply floor_mono. lra. }
    lra.
  - intros Hprev. cbn [chunk_platform ry]. specialize (Hband Hprev).
    pose proof (floor_le (chunk_topY d r)) as Hfl.
    assert (Hlow : HIGHEST_TOP <= floor (chunk_topY d r)).
    { change HIGHEST_TOP with (inject_Z 266) at 1.
      rewrite <- (floor_inject 266). apply floor_mono.
      change (inject_Z 266) with HIGHEST_TOP. apply Hband. }
    lra.
Qed.

(** Between the end of the platform of one chunk and the start of the
    platform of the next there are 150 to 340 pixels: from a whole
    frontier, the next platform starts exactly at the frontier that
    [spawnChunk] leaves. *)
Theorem chunk_gap `{HostMath} (d1 d2 : ChunkDraws) (r : Run) :
  let p1 := chunk_platform d1 r in
  let p2 := chunk_platform d2 (spawnChunk d1 r) in
  MIN_GAP <= rx p2 - (rx p1 + rw p1) <= MAX_GAP /\
  rx p2 = next_spawn_x (spawnChunk d1 r).
Proof.
  cbv zeta.
  assert (Hw : whole (next_spawn_x (spawnChunk d1 r))).
  { rewrite spawnChunk_frontier. apply whole_plus; [apply whole_plus|].
    - apply whole_floor.
    - apply whole_floor.
    - apply randi_whole, (whole_inject 150). }
  assert (E : rx (chunk_platform d2 (spawnChunk d1 r))
              = next_spawn_x (spawnChunk d1 r))
    by (cbn [chunk_platform rx]; apply floor_whole, Hw).
  split; [|exact E].
  rewrite E, spawnChunk_frontier.
  pose proof (randi_range 150 340 (d_gap d1) ltac:(discriminate)) as Hg.
  change (inject_Z 150) with MIN_GAP in Hg.
  change (inject_Z 340) with MAX_GAP in Hg.
  lra.
Qed.

(** A spike is 30 to 68 wide and 32 to 62 high in whole pixels, and its
    bottom edge is 2 pixels below the top of its platform. *)
Theorem spike_shape `{HostMath} (d : ChunkDraws) (r : Run) :
  (d_haz d <? hazard_chance (speed r)) = true ->
  exists hz,
    hazards (spawnChunk d r) = hazards r ++ [hz] /\
    30 <= rw hz <= 68 /\ 32 <= rh hz <= 62 /\
    whole (rx hz) /\ whole (ry hz) /\ whole (rw hz) /\ whole (rh hz) /\
    ry hz + rh hz == ry (chunk_platform d r) + 2.
Proof.
  intros Hh. destruct (spawnChunk_hazard d r Hh) as [_ ->].
  eexists. split; [reflexivity|]. cbn [rx ry rw rh].
  assert (Hw : whole (randi 30 68 (d_hzW d))) by apply randi_whole, (whole_inject 30).
  assert (Hz : whole (randi 32 62 (d_hzH d))) by apply randi_whole, (whole_inject 32).
  rewrite (floor_whole _ Hw), (floor_whole _ Hz).
  assert (Hy : whole (ry (chunk_platform d r) + 2 - randi 32 62 (d_hzH d))).
  { rewrite <- floor_whole_minus; [apply whole_floor| |exact Hz].
    apply whole_plus; [apply whole_floor | apply (whole_inject 2)]. }
  rewrite (floor_whole _ Hy).
  split; [apply (randi_range 30 68 (d_hzW d)); discriminate|].
  split; [apply (randi_range 32 62 (d_hzH d)); discriminate|].
  split; [apply whole_floor|]. split; [exact Hy|].
  split; [exact Hw|]. split; [exact Hz|]. ring.
Qed.

Lemma spike_shape_at_full_speed :
  exists hz,
    hazards (spawnChunk draws_narrow run_full_speed)
      = hazards run_full_speed ++ [hz] /\
    30 <= rw hz <= 68 /\ 32 <= rh hz <= 62 /\
    whole (rx hz) /\ whole (ry hz) /\ whole (rw hz) /\ whole (rh hz) /\
    ry hz + rh hz == ry (chunk_platform draws_narrow run_full_speed) + 2.
Proof.
  apply (spike_shape draws_narrow run_full_speed). reflexivity.
Defined.

(** ** The coins of a chunk *)

Lemma spawnChunk_coins `{HostMath} (d : ChunkDraws) (r : Run) :
  coins_list (spawnChunk d r)
  = if d_coin d <? COIN_CHANCE
    then coins_list (spawn_coins d (chunk_platform d r) r)
    else coins_list r.
Proof.
  unfold spawnChunk. cbv zeta.
  destruct (d_haz d <? _), (d_coin d <? _); reflexivity.
Qed.

(** When a chunk gets coins, between 3 and 7 coins are appended, each 18
    by 18, the [k]-th of them [34 * k] pixels to the right of the
    first; otherwise the coin list is unchanged. *)
Theorem chunk_coins_row `{HostMath} (d : ChunkDraws) (r : Run) :
  ((d_coin d <? COIN_CHANCE) = false ->
   coins_list (spawnChunk d r) = coins_list r) /\
  ((d_coin d <? COIN_CHANCE) = true ->
   exists cs,
     coins_list (spawnChunk d r) = coins_list r ++ cs /\
     (3 <= length cs <= 7)%nat /\
     (forall c, In c cs -> rw c = 18 /\ rh c = 18) /\
     (forall k, (k < length cs)%nat ->
        rx (nth k cs (rect 0 0 0 0))
        == rx (nth 0 cs (rect 0 0 0 0)) + 34 * inject_Z (Z.of_nat k))).
Proof.
  rewrite spawnChunk_coins. split; intros E; rewrite E; [reflexivity|].
  unfold spawn_coins. cbv zeta. cbn [coins_list set_coins_list].
  eexists. split; [reflexivity|].
  pose proof (randi_range 3 7 (d_n d) ltac:(discriminate)) as [Hn1 Hn2].
  assert (Hnw : whole (randi 3 7 (d_n d))) by apply randi_whole, (whole_inject 3).
  destruct Hnw as [n En].
  change (inject_Z 3) with 3 in *. change (inject_Z 7) with 7 in *.
  rewrite En in *. rewrite Qfloor_Z.
  assert (Hn : (3 <= n <= 7)%Z).
  { split; rewrite Zle_Qle; assumption. }
  rewrite length_map, length_seq.
  set (bx := rx (chunk_platform d r)
             + randi 20 (Qmax 20 (rw (chunk_platform d r) - 20)) (d_baseX d)).
  assert (Hbx : whole bx).
  { subst bx. apply whole_plus; [apply whole_floor|].
    apply randi_whole, (whole_inject 20). }
  assert (Hcx : forall k : nat, floor (bx + inject_Z (Z.of_nat k) * 34)
                                == bx + 34 * inject_Z (Z.of_nat k)).
  { intros k. destruct Hbx as [b ->].
    rewrite (floor_comp _ (inject_Z (b + Z.of_nat k * 34))).
    - rewrite floor_inject, inject_Z_plus, inject_Z_mult. ring.
    - rewrite inject_Z_plus, inject_Z_mult. ring. }
  split; [lia|]. split.
  - intros c Hc. apply in_map_iff in Hc. destruct Hc as (k & <- & _).
    split; reflexivity.
  - intros k Hk.
    set (coin := fun k0 : nat => rect _ _ 18 18).
    rewrite (nth_indep _ (rect 0 0 0 0) (coin O)) by (rewrite length_map, length_seq; lia).
    rewrite (nth_indep _ (rect 0 0 0 0) (coin O)) by (rewrite length_map, length_seq; lia).
    rewrite !map_nth. rewrite !seq_nth by lia.
    subst coin. cbn [rx]. rewrite !Hcx.
    cbn [Nat.add Z.of_nat]. change (inject_Z 0) with 0. ring.
Qed.

(** ** Pruning *)

(** Two run states with the same fields are the same. *)
Lemma run_ext (r r' : Run) :
  cam_x r = cam_x r' ->
  speed r = speed r' ->
  score r = score r' ->
  score_f r = score_f r' ->
  coins_run r = coins_run r' ->
  player r = player r' ->
  py r = py r' ->
  vy r = vy r' ->
  on_ground r = on_ground r' ->
  coyote r = coyote r' ->
  jump_buf r = jump_buf r' ->
  jump_v r = jump_v r' ->
  coyote_t r = coyote_t r' ->
  coin_mul r = coin_mul r' ->
  magnet_px r = magnet_px r' ->
  platforms r = platforms r' ->
  hazards r = hazards r' ->
  coins_list r = coins_list r' ->
  shake_t r = shake_t r' ->
  shake_mag r = shake_mag r' ->
  next_spawn_x r = next_spawn_x r' ->
  last_platform_top r = last_platform_top r' ->
  last_hazard_x r = last_hazard_x r' ->
  jump_cut r = jump_cut r' ->
  jump_time r = jump_time r' ->
  r = r'.
Proof.
  destruct r, r'. simpl. intros. subst. reflexivity.
Qed.


Lemma filter_twice {A} (f : A -> bool) (l : list A) :
  filter f (filter f l) = filter f l.
Proof.
  induction l as [|a l IH]; cbn; [reflexivity|].
  destruct (f a) eqn:E; cbn; rewrite ?E, IH; reflexivity.
Qed.

(** [cleanupLists] keeps, in order, exactly the platforms, spikes and
    coins whose right edge is at most 280 pixels behind the camera,
    touches nothing else, and pruning twice prunes nothing more. *)
Theorem cleanup_prunes_behind_camera (r : Run) :
  let keep := fun c : Rect => cam_x r - 280 <=? rx c + rw c in
  platforms (cleanupLists r) = filter keep (platforms r) /\
  hazards (cleanupLists r) = filter keep (hazards r) /\
  coins_list (cleanupLists r) = filter keep (coins_list r) /\
  (forall c, In c (platforms (cleanupLists r)) <->
             In c (platforms r) /\ cam_x r - 280 <= rx c + rw c) /\
  (forall c, In c (hazards (cleanupLists r)) <->
             In c (hazards r) /\ cam_x r - 280 <= rx c + rw c) /\
  (forall c, In c (coins_list (cleanupLists r)) <->
             In c (coins_list r) /\ cam_x r - 280 <= rx c + rw c) /\
  body (cleanupLists r) = body r /\
  cleanupLists (cleanupLists r) = cleanupLists r.
Proof.
  cbv zeta. split; [reflexivity|]. split; [reflexivity|]. split; [reflexivity|].
  split; [|split; [|split; [|split]]].
  - intros c. change (platforms (cleanupLists r))
      with (filter (fun c0 => cam_x r - 280 <=? rx c0 + rw c0) (platforms r)).
    rewrite filter_In, leb_le. reflexivity.
  - intros c. change (hazards (cleanupLists r))
      with (filter (fun c0 => cam_x r - 280 <=? rx c0 + rw c0) (hazards r)).
    rewrite filter_In, leb_le. reflexivity.
  - intros c. change (coins_list (cleanupLists r))
      with (filter (fun c0 => cam_x r - 280 <=? rx c0 + rw c0) (coins_list r)).
    rewrite filter_In, leb_le. reflexivity.
  - reflexivity.
  - apply run_ext; try reflexivity.
    + change (filter (fun c0 => cam_x r - 280 <=? rx c0 + rw c0)
                (filter (fun c0 => cam_x r - 280 <=? rx c0 + rw c0) (platforms r))
              = filter (fun c0 => cam_x r - 280 <=? rx c0 + rw c0) (platforms r)).
      apply filter_twice.
    + change (filter (fun c0 => cam_x r - 280 <=? rx c0 + rw c0)
                (filter (fun c0 => cam_x r - 280 <=? rx c0 + rw c0) (hazards r))
              = filter (fun c0 => cam_x r - 280 <=? rx c0 + rw c0) (hazards r)).
      apply filter_twice.
    + change (filter (fun c0 => cam_x r - 280 <=? rx c0 + rw c0)
                (filter (fun c0 => cam_x r - 280 <=? rx c0 + rw c0) (coins_list r))
              = filter (fun c0 => cam_x r - 280 <=? rx c0 + rw c0) (coins_list r)).
      apply filter_twice.
Qed.

(* ================================================================== *)
(** * Further properties of the tick *)
(* ================================================================== *)

Lemma tick_launch_eq (i : TickInput) (g : World) :
  tick_launch i g = tick_gravity (t_dt i) (tick_apply_jump (tick_timers i g)).
Proof. reflexivity. Qed.

Lemma tick_timers_eq (i : TickInput) (g : World) :
  tick_timers i g
  = tick_coyote (t_dt i)
      (tick_jump_buffer (t_dt i) (t_jumpPressed i) (tick_speed_score (t_dt i) g)).
Proof. reflexivity. Qed.

(** ** The terrain is written by the camera block only *)

Lemma terrain_eq (r r' : Run) :
  terrain r = terrain r' ->
  cam_x r = cam_x r' /\ next_spawn_x r = next_spawn_x r' /\
  platforms r = platforms r' /\ hazards r = hazards r' /\
  last_platform_top r = last_platform_top r' /\
  last_hazard_x r = last_hazard_x r'.
Proof.
  unfold terrain. intros E. injection E. intros. repeat split; assumption.
Qed.

Lemma tick_kinematics_terrain (i : TickInput) (g : World) :
  terrain (RUN (tick_kinematics i g)) = terrain (RUN g).
Proof.
  assert (V : forall dt g0, terrain (RUN (tick_vertical dt g0)) = terrain (RUN g0)).
  { intros dt g0. unfold tick_vertical, land_feedback. cbv zeta.
    split_ifs; reflexivity. }
  assert (C : forall b g0, terrain (RUN (tick_jump_cut b g0)) = terrain (RUN g0)).
  { intros b g0. unfold tick_jump_cut. destruct (cut_ready b g0); reflexivity. }
  assert (J : forall g0, terrain (RUN (tick_apply_jump g0)) = terrain (RUN g0)).
  { intros g0. unfold tick_apply_jump. destruct (jump_ready g0); reflexivity. }
  assert (Y : forall dt g0, terrain (RUN (tick_coyote dt g0)) = terrain (RUN g0)).
  { intros dt g0. unfold tick_coyote, on_RUN. split_ifs; reflexivity. }
  assert (B : forall dt b g0,
             terrain (RUN (tick_jump_buffer dt b g0)) = terrain (RUN g0)).
  { intros dt b g0. unfold tick_jump_buffer, on_RUN. destruct b; reflexivity. }
  assert (G : forall dt g0, terrain (RUN (tick_gravity dt g0)) = terrain (RUN g0))
    by reflexivity.
  assert (S : forall dt g0, terrain (RUN (tick_speed_score dt g0)) = terrain (RUN g0))
    by reflexivity.
  rewrite tick_kinematics_eq, V, C, tick_launch_eq, G, J, tick_timers_eq, Y, B, S.
  reflexivity.
Qed.

Lemma addShake_terrain (mag t : Q) (g : World) :
  terrain (RUN (addShake mag t g)) = terrain (RUN g) /\
  coins_list (RUN (addShake mag t g)) = coins_list (RUN g) /\
  JUICE (addShake mag t g) = JUICE g.
Proof. unfold addShake. destruct (negb _); repeat split; reflexivity. Qed.

Lemma collect_coin_terrain (g : World) :
  terrain (RUN (collect_coin g)) = terrain (RUN g) /\
  coins_list (RUN (collect_coin g)) = coins_list (RUN g).
Proof.
  unfold collect_coin. cbv zeta.
  match goal with |- context [addShake ?m ?t ?g0] =>
    destruct (addShake_terrain m t g0) as (-> & -> & _) end.
  split; reflexivity.
Qed.

Lemma collect_loop_terrain (pl : Rect) (cs : list Rect) :
  forall g,
    terrain (RUN (fold_left (fun g c => if colliderect pl c then collect_coin g else g)
                    cs g)) = terrain (RUN g) /\
    coins_list (RUN (fold_left (fun g c => if colliderect pl c then collect_coin g else g)
                       cs g)) = coins_list (RUN g).
Proof.
  induction cs as [|c cs IH]; intros g; cbn [fold_left]; [auto|].
  destruct (colliderect pl c); [|apply IH].
  destruct (IH (collect_coin g)) as [-> ->]. apply collect_coin_terrain.
Qed.

Lemma tick_coins_terrain (g : World) :
  terrain (RUN (tick_coins g)) = terrain (RUN g).
Proof.
  unfold tick_coins. cbv zeta.
  destruct (filter _ _).
  - apply collect_loop_terrain.
  - rewrite <- (proj1 (collect_loop_terrain (player (RUN g)) (coins_list (RUN g)) g)).
    reflexivity.
Qed.

Lemma die_terrain `{HostMath} (g : World) :
  terrain (RUN (die g)) = terrain (RUN g).
Proof.
  unfold die. cbv zeta.
  rewrite <- (proj1 (addShake_terrain 10.0 0.25 g)). reflexivity.
Qed.

Lemma tick_decay_terrain (dt : Q) (g : World) :
  terrain (RUN (tick_decay dt g)) = terrain (RUN g).
Proof.
  unfold tick_decay, on_RUN. cbv zeta. split_ifs; reflexivity.
Qed.

Section Camera.
Context `{HostMath}.

Lemma tick_magnet_terrain (dt : Q) (g : World) :
  terrain (RUN (tick_magnet dt g)) = terrain (RUN g).
Proof. unfold tick_magnet. cbv zeta. destruct (0 <? _); reflexivity. Qed.

(** After the camera block only pruning could touch the terrain, and
    it is done: the terrain of the tick is the one the camera block
    leaves. *)
Lemma playUpdate_terrain (i : TickInput) (g : World) :
  terrain (RUN (playUpdate i g)) = terrain (RUN (tick_camera i (tick_kinematics i g))).
Proof.
  assert (B : terrain (RUN (tick_before_hazards i g))
              = terrain (RUN (tick_camera i (tick_kinematics i g)))).
  { unfold tick_before_hazards. cbv zeta.
    rewrite tick_coins_terrain, tick_magnet_terrain. reflexivity. }
  unfold playUpdate. cbv zeta. destruct (find _ _).
  - rewrite die_terrain. exact B.
  - rewrite tick_decay_terrain. exact B.
Qed.

Lemma ensureGenerationAhead_spec (draws : nat -> ChunkDraws) (r : Run) :
  cam_x (ensureGenerationAhead draws r) = cam_x r /\
  cam_x r + WIDTH * 2.2 <= next_spawn_x (ensureGenerationAhead draws r) /\
  (integral (next_spawn_x r) -> integral (next_spawn_x (ensureGenerationAhead draws r))).
Proof.
  unfold ensureGenerationAhead. cbv zeta.
  destruct (spawn_while_enough (spawn_budget (cam_x r) r) (cam_x r) draws 0 r
              (spawn_budget_enough (cam_x r) r)) as (r' & E & Hh & Hc & Hi).
  rewrite E. auto.
Qed.

Lemma tick_camera_cam (i : TickInput) (g : World) :
  cam_x (RUN (tick_camera i g)) = cam_x (RUN g) + speed (RUN g) * t_dt i /\
  cam_x (RUN (tick_camera i g)) + WIDTH * 2.2 <= next_spawn_x (RUN (tick_camera i g)).
Proof.
  unfold tick_camera. cbv zeta.
  set (r1 := set_cam_x (cam_x (RUN g) + speed (RUN g) * t_dt i) (RUN g)).
  destruct (ensureGenerationAhead_spec (t_draws i) r1) as (Ec & Eh & _).
  change (cam_x (RUN (on_RUN cleanupLists
                        (on_RUN (ensureGenerationAhead (t_draws i))
                           (on_RUN (fun r => set_cam_x (cam_x r + speed r * t_dt i) r) g)))))
    with (cam_x (ensureGenerationAhead (t_draws i) r1)).
  change (next_spawn_x (RUN (on_RUN cleanupLists
                        (on_RUN (ensureGenerationAhead (t_draws i))
                           (on_RUN (fun r => set_cam_x (cam_x r + speed r * t_dt i) r) g)))))
    with (next_spawn_x (ensureGenerationAhead (t_draws i) r1)).
  rewrite Ec. split; [reflexivity | exact Eh].
Qed.

(** After every tick the world is generated up to the horizon:
    [next_spawn_x >= cam_x + 2.2 * GAME_W], also in the tick that ends
    the run. *)
Theorem horizon_after_tick (i : TickInput) (g : World) :
  cam_x (RUN (playUpdate i g)) + 2.2 * GAME_W <= next_spawn_x (RUN (playUpdate i g)).
Proof.
  destruct (terrain_eq _ _ (playUpdate_terrain i g)) as (-> & -> & _).
  destruct (tick_camera_cam i (tick_kinematics i g)) as [_ Hh].
  unfold WIDTH in Hh. lra.
Qed.

(** The camera advances by [speed * dt], with the speed already ramped
    in this tick: it never moves back for [dt >= 0], and by at most 41
    pixels for [dt <= 0.05]. *)
Theorem camera_advance (i : TickInput) (g : World) :
  0 <= t_dt i ->
  cam_x (RUN (playUpdate i g))
    == cam_x (RUN g) + speed (RUN (playUpdate i g)) * t_dt i /\
  cam_x (RUN g) <= cam_x (RUN (playUpdate i g)) /\
  (t_dt i <= 0.05 -> cam_x (RUN (playUpdate i g)) <= cam_x (RUN g) + 41).
Proof.
  intros Hdt.
  destruct (terrain_eq _ _ (playUpdate_terrain i g)) as (-> & _).
  destruct (tick_camera_cam i (tick_kinematics i g)) as [-> _].
  destruct (terrain_eq _ _ (tick_kinematics_terrain i g)) as (-> & _).
  rewrite playUpdate_speed, tick_kinematics_speed.
  pose proof (clamp_bounds (speed (RUN g) + SPEED_RAMP * t_dt i)
                BASE_SPEED MAX_SPEED ltac:(discriminate)) as [Hlo Hhi].
  set (s := clamp _ _ _) in *.
  unfold BASE_SPEED, MAX_SPEED in *.
  assert (H0 : 0 <= s * t_dt i) by (apply Qmult_le_0_compat; lra).
  split; [reflexivity|]. split; [lra|].
  intros H1.
  assert (H2 : 0 <= (820 - s) * t_dt i) by (apply Qmult_le_0_compat; lra).
  assert (E : (820 - s) * t_dt i == 820 * t_dt i - s * t_dt i) by ring.
  lra.
Qed.
End Camera.

Lemma camera_advance_first_tick :
  cam_x (RUN (playUpdate (tick_idle (1 # 60)) world_play))
    == cam_x (RUN world_play)
       + speed (RUN (playUpdate (tick_idle (1 # 60)) world_play)) * (1 # 60) /\
  cam_x (RUN world_play) <= cam_x (RUN (playUpdate (tick_idle (1 # 60)) world_play)).
Proof.
  destruct (camera_advance (tick_idle (1 # 60)) world_play) as (A & B & _).
  - discriminate.
  - split; [exact A | exact B].
Defined.

(** ** The shape of a run *)

Lemma sweep_loop_rect (ps : list Rect) (step : Q) (n : nat) :
  forall pl pyF,
    let out := sweep_loop n step pl pyF ps in
    rx (fst out) = rx pl /\ rw (fst out) = rw pl /\ rh (fst out) = rh pl.
Proof.
  induction n as [|n IH]; intros pl pyF; cbn [sweep_loop]; cbv zeta.
  - auto.
  - destruct (0 <? step).
    + destruct (find _ ps); [auto|].
      destruct (IH (set_ry pl (floor (pyF + step))) (pyF + step)) as (A & B & C).
      auto.
    + destruct (find _ ps); [auto|].
      destruct (IH (set_ry pl (floor (pyF + step))) (pyF + step)) as (A & B & C).
      auto.
Qed.

Lemma collideVerticalSweep_rect (pl : Rect) (pyF dy : Q) (ps : list Rect) :
  let out := collideVerticalSweep pl pyF dy ps in
  rx (fst out) = rx pl /\ rw (fst out) = rw pl /\ rh (fst out) = rh pl.
Proof.
  cbv zeta. unfold collideVerticalSweep.
  destruct (Qeq_bool dy 0); [auto|]. apply sweep_loop_rect.
Qed.

Lemma sweep_loop_up_range (ps : list Rect) (step : Q) (n : nat) :
  step <= 0 ->
  forall pl pyF,
    floor pyF <= ry pl ->
    ry (fst (sweep_loop n step pl pyF ps)) <= ry pl.
Proof.
  intros Hs. induction n as [|n IH]; intros pl pyF Hle; cbn [sweep_loop].
  - cbn [fst]. lra.
  - assert (E : (0 <? step) = false) by (apply ltb_ge; exact Hs).
    rewrite E.
    assert (Hm : floor (pyF + step) <= floor pyF) by (apply floor_mono; lra).
    destruct (find _ ps) as [p|] eqn:Ef.
    + apply find_some in Ef. destruct Ef as [_ Hp].
      unfold bumps_on in Hp. apply andb_true_iff in Hp. destruct Hp as [_ Hp].
      apply leb_le in Hp. cbn [fst ry set_ry]. exact Hp.
    + specialize (IH (set_ry pl (floor (pyF + step))) (pyF + step)).
      cbn [ry set_ry] in IH. specialize (IH ltac:(lra)). lra.
Qed.

Lemma collideVerticalSweep_up (pl : Rect) (pyF dy : Q) (ps : list Rect) :
  dy <= 0 -> synced pl pyF ->
  ry (fst (collideVerticalSweep pl pyF dy ps)) <= ry pl.
Proof.
  intros Hdy Hsync. unfold collideVerticalSweep.
  destruct (Qeq_bool dy 0) eqn:E0; [cbn [fst]; lra|].
  cbv zeta. apply Qeq_bool_neq in E0.
  apply sweep_loop_up_range.
  - assert (dy < 0) by (destruct (Qlt_le_dec dy 0); [assumption|];
                        exfalso; apply E0; lra).
    pose proof (sweep_step_neg dy ltac:(assumption)). lra.
  - unfold synced in Hsync. rewrite Hsync. lra.
Qed.

(** The blocks before the vertical one leave the rectangle and the
    float position alone. *)
Lemma tick_jump_cut_player (i : TickInput) (g : World) :
  let g6 := tick_jump_cut (t_jumpReleased i) (tick_launch i g) in
  player (RUN g6) = player (RUN g) /\ py (RUN g6) = py (RUN g) /\
  terrain (RUN g6) = terrain (RUN g).
Proof.
  cbv zeta.
  assert (C : forall b g0,
             player (RUN (tick_jump_cut b g0)) = player (RUN g0) /\
             py (RUN (tick_jump_cut b g0)) = py (RUN g0) /\
             terrain (RUN (tick_jump_cut b g0)) = terrain (RUN g0)).
  { intros b g0. unfold tick_jump_cut. destruct (cut_ready b g0);
      repeat split; reflexivity. }
  assert (J : forall g0,
             player (RUN (tick_apply_jump g0)) = player (RUN g0) /\
             py (RUN (tick_apply_jump g0)) = py (RUN g0) /\
             terrain (RUN (tick_apply_jump g0)) = terrain (RUN g0)).
  { intros g0. unfold tick_apply_jump. destruct (jump_ready g0);
      repeat split; reflexivity. }
  assert (Y : forall dt g0,
             player (RUN (tick_coyote dt g0)) = player (RUN g0) /\
             py (RUN (tick_coyote dt g0)) = py (RUN g0) /\
             terrain (RUN (tick_coyote dt g0)) = terrain (RUN g0)).
  { intros dt g0. unfold tick_coyote, on_RUN. split_ifs; repeat split; reflexivity. }
  assert (B : forall dt b g0,
             player (RUN (tick_jump_buffer dt b g0)) = player (RUN g0) /\
             py (RUN (tick_jump_buffer dt b g0)) = py (RUN g0) /\
             terrain (RUN (tick_jump_buffer dt b g0)) = terrain (RUN g0)).
  { intros dt b g0. unfold tick_jump_buffer, on_RUN.
    destruct b; repeat split; reflexivity. }
  destruct (C (t_jumpReleased i) (tick_launch i g)) as (-> & -> & ->).
  rewrite tick_launch_eq.
  change (player (RUN (tick_gravity (t_dt i) (tick_apply_jump (tick_timers i g)))))
    with (player (RUN (tick_apply_jump (tick_timers i g)))).
  change (py (RUN (tick_gravity (t_dt i) (tick_apply_jump (tick_timers i g)))))
    with (py (RUN (tick_apply_jump (tick_timers i g)))).
  change (terrain (RUN (tick_gravity (t_dt i) (tick_apply_jump (tick_timers i g)))))
    with (terrain (RUN (tick_apply_jump (tick_timers i g)))).
  destruct (J (tick_timers i g)) as (-> & -> & ->).
  rewrite tick_timers_eq.
  destruct (Y (t_dt i) (tick_jump_buffer (t_dt i) (t_jumpPressed i)
                          (tick_speed_score (t_dt i) g))) as (-> & -> & ->).
  destruct (B (t_dt i) (t_jumpPressed i) (tick_speed_score (t_dt i) g))
    as (-> & -> & ->).
  repeat split; reflexivity.
Qed.

(** The rectangle and the float position that the vertical block
    leaves: those of the sweep, or the ground line. *)
Lemma tick_vertical_player (dt : Q) (g : World) :
  let pl0 := set_rx (player (RUN g)) (floor (cam_x (RUN g) + 160)) in
  let sw := collideVerticalSweep pl0 (py (RUN g)) (vy (RUN g) * dt)
              (platforms (RUN g)) in
  let snap := (GROUND_Y <=? ry (fst sw) + rh (fst sw)) && (0 <? vy (RUN g)) in
  player (RUN (tick_vertical dt g))
    = (if snap then set_ry (fst sw) (GROUND_Y - rh (fst sw)) else fst sw) /\
  py (RUN (tick_vertical dt g))
    = (if snap then GROUND_Y - rh (fst sw) else pyFloat (snd sw)) /\
  on_ground (RUN (tick_vertical dt g))
    = (snap || negb (GROUND_Y <=? ry (fst sw) + rh (fst sw)) && landed (snd sw)).
Proof.
  unfold tick_vertical, land_feedback. cbv zeta.
  cbn [RUN on_RUN set_RUN vy set_player set_on_ground on_ground py set_py
       player platforms cam_x].
  set (sw := collideVerticalSweep _ _ _ _).
  destruct (GROUND_Y <=? ry (fst sw) + rh (fst sw)).
  - destruct (0 <? vy (RUN g)).
    + destruct (negb (on_ground (RUN g))); repeat split; reflexivity.
    + repeat split; reflexivity.
  - destruct (landed (snd sw)).
    + destruct (negb (on_ground (RUN g))); destruct (0 <? vy (RUN g));
        repeat split; reflexivity.
    + destruct (0 <? vy (RUN g)); repeat split; reflexivity.
Qed.

Lemma tick_vertical_player_ok (dt : Q) (g : World) :
  0 <= dt ->
  synced (player (RUN g)) (py (RUN g)) ->
  rw (player (RUN g)) = 44 -> rh (player (RUN g)) = 58 ->
  ry (player (RUN g)) + rh (player (RUN g)) <= GROUND_Y ->
  Forall platform_ok (platforms (RUN g)) ->
  let r' := RUN (tick_vertical dt g) in
  synced (player r') (py r') /\ rw (player r') = 44 /\ rh (player r') = 58 /\
  ry (player r') + rh (player r') <= GROUND_Y /\
  rx (player r') = floor (cam_x (RUN g) + 160).
Proof.
  intros Hdt Hsync Hw Hh Hb Hps. cbv zeta.
  destruct (tick_vertical_player dt g) as (-> & -> & _).
  set (pl0 := set_rx (player (RUN g)) (floor (cam_x (RUN g) + 160))).
  assert (Hs0 : synced pl0 (py (RUN g))) by exact Hsync.
  destruct (collideVerticalSweep_rect pl0 (py (RUN g)) (vy (RUN g) * dt)
              (platforms (RUN g))) as (Ex & Ew & Eh).
  cbv zeta in Ex, Ew, Eh.
  assert (Hsw : synced (fst (collideVerticalSweep pl0 (py (RUN g)) (vy (RUN g) * dt)
                               (platforms (RUN g))))
                  (pyFloat (snd (collideVerticalSweep pl0 (py (RUN g))
                                   (vy (RUN g) * dt) (platforms (RUN g)))))).
  { unfold collideVerticalSweep.
    destruct (Qeq_bool (vy (RUN g) * dt) 0); [exact Hs0|].
    cbv zeta. apply sweep_loop_synced.
    - apply Forall_forall. intros p Hp.
      rewrite Forall_forall in Hps. apply (Hps p Hp).
    - change (rh pl0) with (rh (player (RUN g))). rewrite Hh. now exists 58%Z.
    - exact Hs0. }
  set (sw := collideVerticalSweep _ _ _ _) in *.
  change (rx pl0) with (floor (cam_x (RUN g) + 160)) in Ex.
  change (rw pl0) with (rw (player (RUN g))) in Ew.
  change (rh pl0) with (rh (player (RUN g))) in Eh.
  rewrite Hw in Ew. rewrite Hh in Eh.
  destruct (GROUND_Y <=? ry (fst sw) + rh (fst sw)) eqn:Eg;
    [destruct (0 <? vy (RUN g)) eqn:Ev|]; cbn [andb].
  - unfold synced. cbn [ry rw rh rx set_ry]. rewrite Eh.
    repeat split; try assumption; try reflexivity. unfold GROUND_Y, HEIGHT, GAME_H, GROUND_H. lra.
  - repeat split; try assumption.
    apply ltb_ge in Ev.
    assert (Hdy : vy (RUN g) * dt <= 0).
    { assert (E : vy (RUN g) * dt == - ((- vy (RUN g)) * dt)) by ring.
      assert (0 <= (- vy (RUN g)) * dt) by (apply Qmult_le_0_compat; lra).
      lra. }
    pose proof (collideVerticalSweep_up pl0 (py (RUN g)) (vy (RUN g) * dt)
                  (platforms (RUN g)) Hdy Hs0) as Hup.
    fold sw in Hup. change (ry pl0) with (ry (player (RUN g))) in Hup.
    rewrite Eh. rewrite Hh in Hb. lra.
  - repeat split; try assumption. apply leb_gt in Eg. lra.
Qed.

Lemma tick_kinematics_player_ok (i : TickInput) (g : World) :
  0 <= t_dt i -> run_shape (RUN g) ->
  player_ok (RUN (tick_kinematics i g)) /\
  rx (player (RUN (tick_kinematics i g))) = floor (cam_x (RUN g) + 160).
Proof.
  intros Hdt ((Hsync & Hw & Hh & Hb & _) & (Hps & _)).
  destruct (tick_jump_cut_player i g) as (Ep & Ey & Et). cbv zeta in Ep, Ey, Et.
  destruct (terrain_eq _ _ Et) as (Ec & _ & Epl & _).
  destruct (tick_vertical_player_ok (t_dt i)
              (tick_jump_cut (t_jumpReleased i) (tick_launch i g)) Hdt)
    as (A1 & A2 & A3 & A4 & A5).
  - rewrite Ep, Ey. exact Hsync.
  - rewrite Ep. exact Hw.
  - rewrite Ep. exact Hh.
  - rewrite Ep. exact Hb.
  - rewrite Epl. exact Hps.
  - rewrite Ec in A5. rewrite <- tick_kinematics_eq in A1, A2, A3, A4, A5.
    split; [|exact A5].
    repeat split; try assumption;
      rewrite tick_kinematics_speed;
      apply (clamp_bounds _ BASE_SPEED MAX_SPEED); discriminate.
Qed.

Lemma chunk_platform_ok (d : ChunkDraws) (r : Run) :
  HIGHEST_TOP <= last_platform_top r <= LOWEST_TOP ->
  platform_ok (chunk_platform d r).
Proof.
  intros Hprev. destruct (chunk_topY_bounds d r) as [_ Hband].
  specialize (Hband Hprev).
  split; [split; apply whole_floor|].
  cbn [chunk_platform ry].
  pose proof (floor_le (chunk_topY d r)) as Hfl.
  assert (Hlow : HIGHEST_TOP <= floor (chunk_topY d r)).
  { change HIGHEST_TOP with (inject_Z 266) at 1.
    rewrite <- (floor_inject 266). apply floor_mono.
    change (inject_Z 266) with HIGHEST_TOP. apply Hband. }
  lra.
Qed.

Section Shape.
Context `{HostMath}.

Lemma spawnChunk_ground_ok (d : ChunkDraws) (r : Run) :
  ground_ok r -> ground_ok (spawnChunk d r).
Proof.
  intros (Hps & Hw & Hb).
  pose proof (chunk_platform_ok d r Hb) as Hp.
  assert (Ep : platforms (spawnChunk d r) = platforms r ++ [chunk_platform d r]).
  { unfold spawnChunk. cbv zeta.
    destruct (d_haz d <? _), (d_coin d <? _); reflexivity. }
  assert (El : last_platform_top (spawnChunk d r) = ry (chunk_platform d r))
    by reflexivity.
  unfold ground_ok. rewrite Ep, El.
  split; [|split].
  - apply Forall_app. split; [exact Hps | constructor; [exact Hp | constructor]].
  - apply Hp.
  - apply Hp.
Qed.

Lemma spawn_while_ground_ok (fuel : nat) (camX : Q) (draws : nat -> ChunkDraws) :
  forall k r r', spawn_while fuel camX draws k r = Some r' ->
  ground_ok r -> ground_ok r'.
Proof.
  induction fuel as [|fuel IH]; intros k r r'; cbn [spawn_while];
    destruct (next_spawn_x r <? _); try congruence.
  intros E Hg. apply (IH _ _ _ E). now apply spawnChunk_ground_ok.
Qed.

Lemma ensureGenerationAhead_ground_ok (draws : nat -> ChunkDraws) (r : Run) :
  ground_ok r -> ground_ok (ensureGenerationAhead draws r).
Proof.
  unfold ensureGenerationAhead. cbv zeta.
  destruct (spawn_while _ _ _ _ _) eqn:E; [|auto].
  apply (spawn_while_ground_ok _ _ _ _ _ _ E).
Qed.

Lemma tick_camera_ground_ok (i : TickInput) (g : World) :
  ground_ok (RUN g) -> ground_ok (RUN (tick_camera i g)).
Proof.
  intros (Hps & Hw & Hb).
  set (r1 := set_cam_x (cam_x (RUN g) + speed (RUN g) * t_dt i) (RUN g)).
  assert (H1 : ground_ok r1) by exact (conj Hps (conj Hw Hb)).
  apply (ensureGenerationAhead_ground_ok (t_draws i)) in H1.
  destruct H1 as (Gps & Gw & Gb).
  assert (E : RUN (tick_camera i g)
              = cleanupLists (ensureGenerationAhead (t_draws i) r1)) by reflexivity.
  rewrite E. split; [|split; assumption].
  change (platforms (cleanupLists (ensureGenerationAhead (t_draws i) r1)))
    with (filter (fun c => cam_x (ensureGenerationAhead (t_draws i) r1) - 280
                           <=? rx c + rw c)
            (platforms (ensureGenerationAhead (t_draws i) r1))).
  apply Forall_forall. intros p Hp. apply filter_In in Hp.
  rewrite Forall_forall in Gps. apply Gps, Hp.
Qed.

Lemma playUpdate_run_shape (i : TickInput) (g : World) :
  0 <= t_dt i -> run_shape (RUN g) -> run_shape (RUN (playUpdate i g)).
Proof.
  intros Hdt Hs.
  destruct (tick_kinematics_player_ok i g Hdt Hs) as [(K1 & K2 & K3 & K4 & K5) _].
  destruct Hs as [_ (Hps & Hw & Hb)].
  split.
  - unfold player_ok.
    destruct (body_eq _ _ (playUpdate_body i g))
      as (-> & _ & _ & _ & _ & _ & _ & -> & -> & _).
    exact (conj K1 (conj K2 (conj K3 (conj K4 K5)))).
  - assert (Gk : ground_ok (RUN (tick_kinematics i g))).
    { destruct (terrain_eq _ _ (tick_kinematics_terrain i g))
        as (_ & _ & Ep & _ & El & _).
      unfold ground_ok. rewrite Ep, El. exact (conj Hps (conj Hw Hb)). }
    apply (tick_camera_ground_ok i) in Gk.
    destruct (terrain_eq _ _ (playUpdate_terrain i g)) as (_ & _ & Ep & _ & El & _).
    unfold ground_ok. rewrite Ep, El. exact Gk.
Qed.

Lemma newRunState_run_shape (sv : Save) : run_shape (newRunState sv).
Proof.
  split.
  - repeat split; try reflexivity; discriminate.
  - repeat split.
    + constructor; [|constructor].
      split; [split; [now exists 436%Z | now exists 24%Z]|].
      split; discriminate.
    + now exists 436%Z.
    + discriminate.
    + discriminate.
Qed.

Lemma goPlay_run_shape (draws : nat -> ChunkDraws) (g : World) :
  run_shape (RUN (goPlay draws g)).
Proof.
  assert (E : RUN (goPlay draws g)
              = ensureGenerationAhead draws (newRunState (SAVE g))) by reflexivity.
  rewrite E.
  destruct (newRunState_run_shape (SAVE g)) as [(P1 & P2 & P3 & P4 & P5) G].
  split.
  - unfold player_ok.
    destruct (ensureGenerationAhead_body draws (newRunState (SAVE g))) as [Eb _].
    destruct (body_eq _ _ Eb) as (-> & _ & _ & _ & _ & _ & _ & -> & -> & _).
    exact (conj P1 (conj P2 (conj P3 (conj P4 P5)))).
  - now apply ensureGenerationAhead_ground_ok.
Qed.

(** From [goPlay] on, after any number of ticks with [dt >= 0], the run
    has its shape: [player.y = floor(py)], the player is 44 by 58 and
    its bottom not below the ground line, every platform has a whole
    top and height with the top between the highest and the lowest
    height level, and the speed is inside its clamp. *)
Theorem run_shape_invariant (draws : nat -> ChunkDraws) (g : World)
    (inputs : list TickInput) :
  Forall (fun i => 0 <= t_dt i) inputs ->
  run_shape (RUN (play_ticks inputs (goPlay draws g))).
Proof.
  intros Hall.
  pose proof (goPlay_run_shape draws g) as Hs.
  generalize dependent (goPlay draws g).
  induction Hall as [|i rest Hi _ IH]; intros g0 Hs.
  - rewrite play_ticks_nil. exact Hs.
  - rewrite play_ticks_cons. apply IH. now apply playUpdate_run_shape.
Qed.

(** The rectangle's [x] at the end of a tick is [floor(cam_x + 160)] for
    the camera position at the start of the tick: the camera moves
    after the player is placed. *)
Theorem player_x_follows_camera (i : TickInput) (g : World) :
  rx (player (RUN (playUpdate i g))) = floor (cam_x (RUN g) + 160).
Proof.
  destruct (body_eq _ _ (playUpdate_body i g))
    as (_ & _ & _ & _ & _ & _ & _ & -> & _).
  rewrite tick_kinematics_eq.
  destruct (tick_vertical_player (t_dt i)
              (tick_jump_cut (t_jumpReleased i) (tick_launch i g))) as (-> & _).
  destruct (tick_jump_cut_player i g) as (Ep & _ & Et). cbv zeta in Ep, Et.
  destruct (terrain_eq _ _ Et) as (Ec & _).
  rewrite Ec.
  set (pl0 := set_rx _ _).
  destruct (collideVerticalSweep_rect pl0
              (py (RUN (tick_jump_cut (t_jumpReleased i) (tick_launch i g))))
              (vy (RUN (tick_jump_cut (t_jumpReleased i) (tick_launch i g))) * t_dt i)
              (platforms (RUN (tick_jump_cut (t_jumpReleased i) (tick_launch i g)))))
    as (Ex & _).
  cbv zeta in Ex.
  destruct (_ && _); cbn [rx set_ry]; exact Ex.
Qed.
End Shape.

Lemma run_shape_invariant_two_ticks :
  run_shape (RUN (play_ticks [tick_idle (1 # 60); tick_press (1 # 60)]
                    (goPlay (fun _ => draws_narrow) world_menu))).
Proof.
  apply (run_shape_invariant (fun _ => draws_narrow) world_menu
           [tick_idle (1 # 60); tick_press (1 # 60)]).
  repeat constructor; discriminate.
Defined.

(** ** Vertical velocity *)

Section Velocity.
Context `{HostMath}.

(** Whatever the state and the input, a tick ends with
    [-5000 <= vy <= MAX_FALL_V]: the clamp after gravity bounds it, the
    jump cut shrinks a negative value, and a landing sets it to 0. *)
Theorem vy_within_limits (i : TickInput) (g : World) :
  -5000 <= vy (RUN (playUpdate i g)) <= MAX_FALL_V.
Proof.
  destruct (playUpdate_fields i g) as (-> & _).
  rewrite tick_kinematics_eq.
  assert (Hg : -5000 <= vy (RUN (tick_launch i g)) <= MAX_FALL_V).
  { rewrite tick_launch_eq.
    destruct (tick_gravity_fields (t_dt i) (tick_apply_jump (tick_timers i g)))
      as (-> & _).
    pose proof (clamp_bounds
                  (vy (RUN (tick_apply_jump (tick_timers i g))) + GRAVITY * t_dt i)
                  (-5000.0) MAX_FALL_V ltac:(discriminate)) as Hc.
    lra. }
  assert (Hc : -5000 <= vy (RUN (tick_jump_cut (t_jumpReleased i) (tick_launch i g)))
               <= MAX_FALL_V).
  { destruct (tick_jump_cut_fields (t_jumpReleased i) (tick_launch i g))
      as (_ & _ & _ & _ & _ & _ & _ & Cyes & Cno).
    destruct (cut_ready (t_jumpReleased i) (tick_launch i g)) eqn:Ec.
    - destruct (Cyes eq_refl) as [-> _].
      unfold cut_ready in Ec. apply andb_true_iff in Ec. destruct Ec as [_ Ev].
      apply ltb_lt in Ev. unfold JUMP_CUT_MULT, MAX_FALL_V in *. lra.
    - rewrite (Cno eq_refl). exact Hg. }
  destruct (tick_vertical_fields (t_dt i)
              (tick_jump_cut (t_jumpReleased i) (tick_launch i g)))
    as (_ & _ & _ & _ & _ & _ & _ & [[_ ->]|[_ ->]]).
  - exact Hc.
  - unfold MAX_FALL_V. lra.
Qed.

(** ** One jump for one take-off *)

Lemma playUpdate_jump_logged (i : TickInput) (g : World) :
  jumps_logged (playUpdate i g)
  = ((if jump_fires i g then 1 else 0) + jumps_logged g)%nat.
Proof.
  rewrite playUpdate_jumps.
  destruct (tick_timers_fields i g) as (_ & _ & _ & _ & _ & _ & _ & _ & El).
  destruct (tick_apply_jump_fields (tick_timers i g)) as (_ & _ & _ & Hyes & Hno).
  unfold jump_fires. destruct (jump_ready (tick_timers i g)).
  - destruct (Hyes eq_refl) as (_ & _ & _ & _ & _ & Es).
    unfold jumps_logged. rewrite Es, El. reflexivity.
  - rewrite (Hno eq_refl). unfold jumps_logged. rewrite El. reflexivity.
Qed.

Lemma airborne_no_jump (inputs : list TickInput) :
  forall g,
    coyote (RUN g) <= 0 ->
    Forall (fun i => 0 <= t_dt i) inputs ->
    airborne_during inputs g ->
    jumps_logged (play_ticks inputs g) = jumps_logged g.
Proof.
  unfold airborne_during.
  induction inputs as [|i rest IH]; intros g Hc Hall Ha.
  - rewrite play_ticks_nil. reflexivity.
  - inversion Hall as [|? ? Hi Hrest]; subst.
    apply airborne_with_cons in Ha. destruct Ha as [Hg Ha].
    destruct (airborne_tick i g Hg Hc Hi) as (Hf & Hc' & _).
    rewrite play_ticks_cons, (IH (playUpdate i g) Hc' Hrest Ha).
    rewrite playUpdate_jump_logged, Hf. reflexivity.
Qed.

(** No double jump: from the tick in which a jump is executed, as long
    as every later tick starts off the ground, [sfx.jump()] is called
    exactly once, however often jump is pressed on the way: the jump
    zeroes [coyote], which only a tick that starts on the ground
    restores. *)
Theorem no_double_jump (i0 : TickInput) (rest : list TickInput) (g : World) :
  jump_fires i0 g = true ->
  Forall (fun i => 0 <= t_dt i) rest ->
  airborne_during rest (playUpdate i0 g) ->
  jumps_logged (play_ticks (i0 :: rest) g) = S (jumps_logged g).
Proof.
  intros Hf Hall Ha.
  destruct (launch_tick i0 g Hf) as [Hc _].
  rewrite play_ticks_cons, (airborne_no_jump rest (playUpdate i0 g) Hc Hall Ha).
  rewrite playUpdate_jump_logged, Hf. reflexivity.
Qed.
End Velocity.

Lemma no_double_jump_press_twice :
  jumps_logged (play_ticks [tick_press (1 # 60); tick_press (1 # 60);
                            tick_press (1 # 60)] world_play)
  = S (jumps_logged world_play).
Proof.
  apply (no_double_jump (tick_press (1 # 60))
           [tick_press (1 # 60); tick_press (1 # 60)] world_play).
  - vm_compute. reflexivity.
  - repeat constructor; discriminate.
  - apply airborne_with_cons. split; [vm_compute; reflexivity|].
    apply airborne_with_cons. split; [vm_compute; reflexivity|].
    exact I.
Defined.

(** ** Score and distance *)

Lemma odo_eq (r r' : Run) :
  odo r = odo r' -> score_f r = score_f r' /\ score r = score r' /\ cam_x r = cam_x r'.
Proof. unfold odo. intros E. injection E. auto. Qed.

Lemma tick_after_score_odo (i : TickInput) (g : World) :
  odo (RUN (tick_kinematics i g)) = odo (RUN (tick_speed_score (t_dt i) g)).
Proof.
  assert (V : forall dt g0, odo (RUN (tick_vertical dt g0)) = odo (RUN g0)).
  { intros dt g0. unfold tick_vertical, land_feedback. cbv zeta.
    split_ifs; reflexivity. }
  assert (C : forall b g0, odo (RUN (tick_jump_cut b g0)) = odo (RUN g0)).
  { intros b g0. unfold tick_jump_cut. destruct (cut_ready b g0); reflexivity. }
  assert (J : forall g0, odo (RUN (tick_apply_jump g0)) = odo (RUN g0)).
  { intros g0. unfold tick_apply_jump. destruct (jump_ready g0); reflexivity. }
  assert (Y : forall dt g0, odo (RUN (tick_coyote dt g0)) = odo (RUN g0)).
  { intros dt g0. unfold tick_coyote, on_RUN. split_ifs; reflexivity. }
  assert (B : forall dt b g0, odo (RUN (tick_jump_buffer dt b g0)) = odo (RUN g0)).
  { intros dt b g0. unfold tick_jump_buffer, on_RUN. destruct b; reflexivity. }
  assert (G : forall dt g0, odo (RUN (tick_gravity dt g0)) = odo (RUN g0))
    by reflexivity.
  rewrite tick_kinematics_eq, V, C, tick_launch_eq, G, J, tick_timers_eq, Y, B.
  reflexivity.
Qed.

Lemma addShake_score_f (mag t : Q) (g : World) :
  score_f (RUN (addShake mag t g)) = score_f (RUN g).
Proof. unfold addShake. destruct (negb _); reflexivity. Qed.

Lemma collect_loop_score_f (pl : Rect) (cs : list Rect) :
  forall g,
    score_f (RUN (fold_left (fun g c => if colliderect pl c then collect_coin g else g)
                    cs g)) = score_f (RUN g).
Proof.
  induction cs as [|c cs IH]; intros g; cbn [fold_left]; [reflexivity|].
  destruct (colliderect pl c); [|apply IH].
  rewrite IH. unfold collect_coin. cbv zeta. rewrite addShake_score_f. reflexivity.
Qed.

Lemma tick_coins_score_f (g : World) :
  score_f (RUN (tick_coins g)) = score_f (RUN g).
Proof.
  unfold tick_coins. cbv zeta.
  destruct (filter _ _).
  - apply collect_loop_score_f.
  - rewrite <- (collect_loop_score_f (player (RUN g)) (coins_list (RUN g)) g).
    reflexivity.
Qed.

Section Score.
Context `{HostMath}.

Lemma spawn_while_score_f (fuel : nat) (camX : Q) (draws : nat -> ChunkDraws) :
  forall k r r', spawn_while fuel camX draws k r = Some r' ->
  score_f r' = score_f r.
Proof.
  induction fuel as [|fuel IH]; intros k r r'; cbn [spawn_while];
    destruct (next_spawn_x r <? _); try congruence.
  intros E. rewrite (IH _ _ _ E).
  unfold spawnChunk. cbv zeta.
  destruct (d_haz _ <? _), (d_coin _ <? _); reflexivity.
Qed.

Lemma tick_camera_score_f (i : TickInput) (g : World) :
  score_f (RUN (tick_camera i g)) = score_f (RUN g).
Proof.
  set (r1 := set_cam_x (cam_x (RUN g) + speed (RUN g) * t_dt i) (RUN g)).
  change (score_f (RUN (tick_camera i g)))
    with (score_f (ensureGenerationAhead (t_draws i) r1)).
  unfold ensureGenerationAhead. cbv zeta.
  destruct (spawn_while _ _ _ _ _) eqn:E; [|reflexivity].
  apply (spawn_while_score_f _ _ _ _ _ _ E).
Qed.

Lemma playUpdate_score_f (i : TickInput) (g : World) :
  score_f (RUN (playUpdate i g))
  = score_f (RUN g) + speed (RUN (playUpdate i g)) * t_dt i * 0.02.
Proof.
  rewrite playUpdate_speed.
  assert (B : score_f (RUN (tick_before_hazards i g))
              = score_f (RUN g)
                + clamp (speed (RUN g) + SPEED_RAMP * t_dt i) BASE_SPEED MAX_SPEED
                  * t_dt i * 0.02).
  { unfold tick_before_hazards. cbv zeta.
    rewrite tick_coins_score_f.
    assert (M : forall dt g0, score_f (RUN (tick_magnet dt g0)) = score_f (RUN g0)).
    { intros dt g0. unfold tick_magnet. cbv zeta. destruct (0 <? _); reflexivity. }
    rewrite M, tick_camera_score_f.
    destruct (odo_eq _ _ (tick_after_score_odo i g)) as (-> & _).
    reflexivity. }
  assert (D : forall g0, score_f (RUN (die g0)) = score_f (RUN g0)).
  { intros g0. unfold die. cbv zeta.
    rewrite <- (addShake_score_f 10.0 0.25 g0). reflexivity. }
  assert (T : forall dt g0, score_f (RUN (tick_decay dt g0)) = score_f (RUN g0)).
  { intros dt g0. unfold tick_decay, on_RUN. cbv zeta. split_ifs; reflexivity. }
  unfold playUpdate. cbv zeta. destruct (find _ _).
  - rewrite D. exact B.
  - rewrite T. exact B.
Qed.

Lemma playUpdate_score (i : TickInput) (g : World) :
  score (RUN (playUpdate i g)) = floor (score_f (RUN (playUpdate i g))).
Proof.
  rewrite playUpdate_score_f, playUpdate_speed.
  destruct (body_eq _ _ (playUpdate_body i g))
    as (_ & _ & _ & _ & _ & _ & _ & _ & _ & ->).
  destruct (odo_eq _ _ (tick_after_score_odo i g)) as (_ & -> & _).
  reflexivity.
Qed.

Lemma playUpdate_odometer (i : TickInput) (g : World) :
  score_f (RUN (playUpdate i g)) - 0.02 * cam_x (RUN (playUpdate i g))
  == score_f (RUN g) - 0.02 * cam_x (RUN g).
Proof.
  rewrite playUpdate_score_f.
  destruct (terrain_eq _ _ (playUpdate_terrain i g)) as (-> & _).
  destruct (tick_camera_cam i (tick_kinematics i g)) as [-> _].
  destruct (terrain_eq _ _ (tick_kinematics_terrain i g)) as (-> & _).
  rewrite playUpdate_speed, tick_kinematics_speed. ring.
Qed.

(** The score is the distance: from [goPlay] on, after any ticks, the
    float score is 0.02 times the camera position and the score shown
    is its integer part, one point for every 50 pixels travelled. *)
Theorem score_is_distance (draws : nat -> ChunkDraws) (g : World)
    (inputs : list TickInput) :
  let g' := play_ticks inputs (goPlay draws g) in
  score_f (RUN g') == 0.02 * cam_x (RUN g') /\
  score (RUN g') = floor (score_f (RUN g')) /\
  score (RUN g') == floor (cam_x (RUN g') / 50).
Proof.
  cbv zeta.
  assert (H0 : score_f (RUN (goPlay draws g)) - 0.02 * cam_x (RUN (goPlay draws g)) == 0
               /\ score (RUN (goPlay draws g)) = floor (score_f (RUN (goPlay draws g)))).
  { assert (E : RUN (goPlay draws g)
                = ensureGenerationAhead draws (newRunState (SAVE g))) by reflexivity.
    rewrite E.
    destruct (ensureGenerationAhead_spec draws (newRunState (SAVE g))) as (-> & _).
    destruct (ensureGenerationAhead_body draws (newRunState (SAVE g))) as [Eb _].
    destruct (body_eq _ _ Eb) as (_ & _ & _ & _ & _ & _ & _ & _ & _ & ->).
    assert (Ef : score_f (ensureGenerationAhead draws (newRunState (SAVE g)))
                 = score_f (newRunState (SAVE g))).
    { unfold ensureGenerationAhead. cbv zeta.
      destruct (spawn_while _ _ _ _ _) eqn:E'; [|reflexivity].
      apply (spawn_while_score_f _ _ _ _ _ _ E'). }
    rewrite Ef. split; reflexivity. }
  assert (Hinv : score_f (RUN (play_ticks inputs (goPlay draws g)))
                 - 0.02 * cam_x (RUN (play_ticks inputs (goPlay draws g))) == 0 /\
                 score (RUN (play_ticks inputs (goPlay draws g)))
                 = floor (score_f (RUN (play_ticks inputs (goPlay draws g))))).
  { generalize dependent (goPlay draws g). clear g.
    induction inputs as [|i rest IH]; intros g0 [Ha Hb].
    - rewrite play_ticks_nil. auto.
    - rewrite play_ticks_cons. apply IH. split.
      + rewrite playUpdate_odometer. exact Ha.
      + apply playUpdate_score. }
  destruct Hinv as [Ha Hb].
  split; [lra|]. split; [exact Hb|].
  rewrite Hb.
  assert (E : floor (score_f (RUN (play_ticks inputs (goPlay draws g))))
              = floor (cam_x (RUN (play_ticks inputs (goPlay draws g))) / 50)).
  { apply floor_comp. unfold Qdiv. change (/ 50) with (1 # 50). lra. }
  rewrite E. reflexivity.
Qed.
End Score.

(** ** Coins *)

Lemma addShake_coins_run (mag t : Q) (g : World) :
  coins_run (RUN (addShake mag t g)) = coins_run (RUN g).
Proof. unfold addShake. destruct (negb _); reflexivity. Qed.

Lemma collect_coin_coins_run (g : World) :
  coins_run (RUN (collect_coin g)) = coins_run (RUN g) + 1.
Proof.
  unfold collect_coin. cbv zeta. rewrite addShake_coins_run. reflexivity.
Qed.

Lemma length_of_cons {A} (a : A) (l : list A) :
  length_of (a :: l) == length_of l + 1.
Proof.
  unfold length_of. cbn [length]. rewrite Nat2Z.inj_succ. unfold Z.succ.
  rewrite inject_Z_plus. reflexivity.
Qed.

Lemma collect_loop_coins_run (pl : Rect) (cs : list Rect) :
  forall g,
    coins_run (RUN (fold_left (fun g c => if colliderect pl c then collect_coin g else g)
                      cs g))
    == coins_run (RUN g) + length_of (filter (colliderect pl) cs).
Proof.
  induction cs as [|c cs IH]; intros g; cbn [fold_left filter].
  - unfold length_of. cbn. ring.
  - destruct (colliderect pl c).
    + rewrite IH, collect_coin_coins_run, length_of_cons. ring.
    + apply IH.
Qed.

Lemma filter_none_all {A} (f : A -> bool) (l : list A) :
  filter f l = [] -> filter (fun c => negb (f c)) l = l.
Proof.
  induction l as [|a l IH]; cbn; [reflexivity|].
  destruct (f a); [discriminate|]. intros E. cbn. now rewrite IH.
Qed.

Lemma filter_out_in {A} (f : A -> bool) (l : list A) :
  filter f (filter (fun c => negb (f c)) l) = [].
Proof.
  induction l as [|a l IH]; cbn; [reflexivity|].
  destruct (f a) eqn:E; cbn; [exact IH|]. now rewrite E.
Qed.

Lemma tick_coins_spec (g : World) :
  coins_run (RUN (tick_coins g))
    == coins_run (RUN g)
       + length_of (filter (colliderect (player (RUN g))) (coins_list (RUN g))) /\
  coins_list (RUN (tick_coins g))
    = filter (fun c => negb (colliderect (player (RUN g)) c)) (coins_list (RUN g)) /\
  player (RUN (tick_coins g)) = player (RUN g).
Proof.
  pose proof (collect_loop_coins_run (player (RUN g)) (coins_list (RUN g)) g) as Hn.
  destruct (collect_loop_terrain (player (RUN g)) (coins_list (RUN g)) g) as [_ Hl].
  destruct (body_eq _ _ (proj1 (tick_coins_body g)))
    as (_ & _ & _ & _ & _ & _ & _ & Hp & _).
  split; [|split; [|exact Hp]].
  - unfold tick_coins. cbv zeta.
    destruct (filter (colliderect (player (RUN g))) (coins_list (RUN g)));
      exact Hn.
  - unfold tick_coins. cbv zeta.
    destruct (filter (colliderect (player (RUN g))) (coins_list (RUN g))) eqn:Ef.
    + rewrite Hl. symmetry. apply filter_none_all, Ef.
    + cbn [RUN on_RUN set_RUN coins_list set_coins_list]. rewrite Hl. reflexivity.
Qed.

(** [// coin collect] counts every coin that the player overlaps, once:
    [coins_run] grows by their number, exactly they leave the list, no
    coin left overlaps the player, and running the block a second time
    counts nothing. *)
Theorem coins_counted_once (g : World) :
  let pl := player (RUN g) in
  coins_run (RUN (tick_coins g))
    == coins_run (RUN g) + length_of (filter (colliderect pl) (coins_list (RUN g))) /\
  coins_list (RUN (tick_coins g))
    = filter (fun c => negb (colliderect pl c)) (coins_list (RUN g)) /\
  (forall c, In c (coins_list (RUN (tick_coins g))) ->
             colliderect (player (RUN (tick_coins g))) c = false) /\
  coins_run (RUN (tick_coins (tick_coins g))) == coins_run (RUN (tick_coins g)).
Proof.
  cbv zeta.
  destruct (tick_coins_spec g) as (Hn & Hl & Hp).
  split; [exact Hn|]. split; [exact Hl|]. split.
  - intros c Hc. rewrite Hp. rewrite Hl in Hc. apply filter_In in Hc.
    destruct Hc as [_ Hc]. now apply negb_true_iff in Hc.
  - destruct (tick_coins_spec (tick_coins g)) as (Hn' & _).
    rewrite Hn', Hp, Hl, filter_out_in. unfold length_of. cbn. ring.
Qed.

(** ** A tick that touches no spike *)

Section Survive.
Context `{HostMath}.

(** A tick in which the player overlaps no spike leaves the mode and
    [SAVE.money] as they were; the best score is raised to the score of
    the tick when that is higher.  Money is paid out in the tick that
    ends the run only. *)
Theorem tick_without_spike (i : TickInput) (g : World) :
  find (colliderect (player (RUN (tick_before_hazards i g))))
       (hazards (RUN (tick_before_hazards i g))) = None ->
  mode (playUpdate i g) = mode g /\
  money (SAVE (playUpdate i g)) = money (SAVE g) /\
  best_score (SAVE (playUpdate i g))
    = Qmax (best_score (SAVE g)) (score (RUN (playUpdate i g))) /\
  coins_run (RUN (playUpdate i g)) = coins_run (RUN (tick_before_hazards i g)).
Proof.
  intros Hnone.
  destruct (before_hazards_save i g) as (Em & Eb & Eo). cbv zeta in Em, Eb, Eo.
  destruct (body_eq _ _ (playUpdate_body i g))
    as (_ & _ & _ & _ & _ & _ & _ & _ & _ & Es).
  destruct (body_eq _ _ (proj1 (tick_before_hazards_body i g)))
    as (_ & _ & _ & _ & _ & _ & _ & _ & _ & Es').
  rewrite Es, <- Es', <- Em, <- Eb, <- Eo.
  unfold playUpdate. cbv zeta. rewrite Hnone.
  destruct (tick_decay_body (t_dt i) (tick_before_hazards i g))
    as (_ & Ec & -> & -> & _).
  auto.
Qed.
End Survive.

Lemma tick_without_spike_first_tick :
  mode (playUpdate (tick_idle (1 # 60)) world_play) = MODE_PLAY /\
  money (SAVE (playUpdate (tick_idle (1 # 60)) world_play)) = money (SAVE world_play).
Proof.
  destruct (tick_without_spike (tick_idle (1 # 60)) world_play) as (A & B & _).
  - vm_compute. reflexivity.
  - split; [exact A | exact B].
Defined.

(** ** Standing still *)

Lemma find_all_false {A} (f : A -> bool) (l : list A) :
  (forall x, In x l -> f x = false) -> find f l = None.
Proof.
  induction l as [|a l IH]; intros Hf; cbn; [reflexivity|].
  rewrite (Hf a (or_introl eq_refl)). apply IH. intros x Hx. apply Hf. now right.
Qed.

Lemma sweep_steps_one (dy : Q) : 0 < dy -> dy < 6 -> sweep_steps dy = 1%Z.
Proof.
  intros H0 H1. unfold sweep_steps.
  assert (Ha : Qabs dy == dy) by (apply Qabs_pos; lra).
  assert (Hlo : 0 <= Qabs dy / 6).
  { unfold Qdiv. change (/ 6) with (1 # 6). lra. }
  assert (Hhi : Qabs dy / 6 < 1).
  { unfold Qdiv. change (/ 6) with (1 # 6). lra. }
  pose proof (Qfloor_le (Qabs dy / 6)) as F1.
  pose proof (Qlt_floor (Qabs dy / 6)) as F2.
  assert (Z1 : (Qfloor (Qabs dy / 6) < 1)%Z).
  { rewrite Zlt_Qlt. change (inject_Z 1) with 1. lra. }
  assert (Z2 : (0 < Qfloor (Qabs dy / 6) + 1)%Z).
  { rewrite Zlt_Qlt. change (inject_Z 0) with 0. lra. }
  lia.
Qed.

Lemma floor_whole_frac (a s : Q) :
  whole a -> 0 <= s -> s < 1 -> floor (a + s) = a.
Proof.
  intros [z ->] H0 H1. unfold floor. f_equal.
  pose proof (Qfloor_le (inject_Z z + s)) as F1.
  pose proof (Qlt_floor (inject_Z z + s)) as F2.
  rewrite inject_Z_plus in F2. change (inject_Z 1) with 1 in F2.
  assert (Z1 : (Qfloor (inject_Z z + s) < z + 1)%Z).
  { rewrite Zlt_Qlt, inject_Z_plus. change (inject_Z 1) with 1. lra. }
  assert (Z2 : (z < Qfloor (inject_Z z + s) + 1)%Z).
  { rewrite Zlt_Qlt, inject_Z_plus. change (inject_Z 1) with 1. lra. }
  lia.
Qed.

(** A fall of less than one pixel from a whole position leaves the
    rectangle where it is, and then no platform can report a landing:
    [colliderect] is strict and the bottom has not moved past any
    top. *)
Lemma sweep_short_fall (pl : Rect) (pyF dy : Q) (ps : list Rect) :
  whole pyF -> ry pl = pyF -> 0 < dy -> dy < 1 ->
  let out := collideVerticalSweep pl pyF dy ps in
  fst out = pl /\ landed (snd out) = false /\ pyFloat (snd out) == pyF + dy.
Proof.
  intros Hw Hy H0 H1. cbv zeta. unfold collideVerticalSweep.
  destruct (Qeq_bool dy 0) eqn:E0; [apply Qeq_bool_iff in E0; lra|].
  cbv zeta. rewrite (sweep_steps_one dy H0 ltac:(lra)).
  change (Z.to_nat 1) with 1%nat. change (inject_Z 1) with 1.
  assert (Es : dy / 1 == dy) by (field).
  cbn [sweep_loop].
  assert (Ep : (0 <? dy / 1) = true) by (apply ltb_lt; lra).
  rewrite Ep.
  assert (Ef : floor (pyF + dy / 1) = ry pl).
  { rewrite Hy. apply floor_whole_frac; [exact Hw | lra | lra]. }
  rewrite Ef.
  assert (El : set_ry pl (ry pl) = pl) by (destruct pl; reflexivity).
  rewrite El.
  rewrite find_all_false.
  - cbn [fst snd landed pyFloat]. repeat split; try reflexivity. lra.
  - intros p _. unfold lands_on, colliderect.
    destruct (ry pl + rh pl <=? ry p) eqn:A; [|apply andb_false_r].
    destruct (ry p <? ry pl + rh pl) eqn:B; [|rewrite !andb_false_r; reflexivity].
    apply leb_le in A. apply ltb_lt in B. lra.
Qed.

Lemma clamp_pos (v a b : Q) : 0 < v -> 0 < b -> 0 < clamp v a b.
Proof. intros Hv Hb. unfold clamp. cmp_cases; lra. Qed.

Section Standing.
Context `{HostMath}.

(** The state at the entry of the vertical block in a tick that
    executes no jump and starts with [vy >= 0]: [vy] is what gravity
    makes of it, the jump cut does not apply. *)
Lemma tick_idle_entry (i : TickInput) (g : World) :
  jump_fires i g = false -> 0 <= vy (RUN g) -> 0 < t_dt i ->
  let g6 := tick_jump_cut (t_jumpReleased i) (tick_launch i g) in
  vy (RUN g6) = clamp (vy (RUN g) + GRAVITY * t_dt i) (-5000.0) MAX_FALL_V /\
  0 < vy (RUN g6) /\
  player (RUN g6) = player (RUN g) /\ py (RUN g6) = py (RUN g).
Proof.
  intros Hf Hv Hdt. cbv zeta.
  destruct (tick_launch_idle i g Hf) as (Ev & _).
  destruct (tick_jump_cut_fields (t_jumpReleased i) (tick_launch i g))
    as (_ & _ & _ & _ & _ & _ & _ & _ & Cno).
  assert (Hpos : 0 < vy (RUN (tick_launch i g))).
  { rewrite Ev. apply clamp_pos; [|reflexivity].
    assert (0 < GRAVITY * t_dt i) by (apply Qmult_lt_0_compat; [reflexivity|lra]).
    lra. }
  assert (Ec : cut_ready (t_jumpReleased i) (tick_launch i g) = false).
  { unfold cut_ready. apply andb_false_iff. right. apply ltb_ge. lra. }
  destruct (tick_jump_cut_player i g) as (Ep & Ey & _). cbv zeta in Ep, Ey.
  split; [|split; [|split; assumption]].
  - rewrite (Cno Ec). exact Ev.
  - rewrite (Cno Ec). exact Hpos.
Qed.

(** The ground line is solid: a tick that starts with the player's
    bottom on or below [GROUND_Y], not rising, and executes no jump ends
    with the player standing on the ground line, [on_ground = true] and
    [vy = 0], whatever platforms there are. *)
Theorem ground_line_is_solid (i : TickInput) (g : World) :
  jump_fires i g = false ->
  0 <= vy (RUN g) ->
  0 < t_dt i ->
  synced (player (RUN g)) (py (RUN g)) ->
  GROUND_Y <= ry (player (RUN g)) + rh (player (RUN g)) ->
  let r' := RUN (playUpdate i g) in
  on_ground r' = true /\ vy r' = 0.0 /\
  ry (player r') + rh (player r') == GROUND_Y /\ py r' = ry (player r').
Proof.
  intros Hf Hv Hdt Hsync Hb. cbv zeta.
  destruct (tick_idle_entry i g Hf Hv Hdt) as (_ & Hpos & Ep & Ey).
  cbv zeta in Hpos, Ep, Ey.
  destruct (body_eq _ _ (playUpdate_body i g))
    as (_ & -> & -> & _ & _ & _ & _ & -> & -> & _).
  rewrite tick_kinematics_eq.
  set (g6 := tick_jump_cut (t_jumpReleased i) (tick_launch i g)) in *.
  destruct (tick_vertical_player (t_dt i) g6) as (Pp & Py & Po).
  cbv zeta in Pp, Py, Po.
  set (pl0 := set_rx (player (RUN g6)) (floor (cam_x (RUN g6) + 160))) in *.
  assert (Hdy : 0 < vy (RUN g6) * t_dt i) by (apply Qmult_lt_0_compat; lra).
  assert (Hdown : ry pl0 <= ry (fst (collideVerticalSweep pl0 (py (RUN g6))
                                       (vy (RUN g6) * t_dt i) (platforms (RUN g6)))) /\
                  rh (fst (collideVerticalSweep pl0 (py (RUN g6))
                             (vy (RUN g6) * t_dt i) (platforms (RUN g6)))) = rh pl0).
  { unfold collideVerticalSweep.
    destruct (Qeq_bool (vy (RUN g6) * t_dt i) 0) eqn:E0;
      [apply Qeq_bool_iff in E0; lra|].
    cbv zeta.
    destruct (sweep_loop_down_range (platforms (RUN g6))
                (vy (RUN g6) * t_dt i / inject_Z (sweep_steps (vy (RUN g6) * t_dt i)))
                (Z.to_nat (sweep_steps (vy (RUN g6) * t_dt i)))
                (proj2 (sweep_step_sign _) Hdy) pl0 (py (RUN g6)))
      as (A1 & _ & _ & _ & A5).
    - change (ry pl0) with (ry (player (RUN g6))). rewrite Ep, Ey.
      unfold synced in Hsync. rewrite Hsync. lra.
    - split; assumption. }
  set (sw := collideVerticalSweep _ _ _ _) in *.
  destruct Hdown as [D1 D2].
  change (ry pl0) with (ry (player (RUN g6))) in D1.
  change (rh pl0) with (rh (player (RUN g6))) in D2.
  rewrite Ep in D1, D2.
  assert (Et : (GROUND_Y <=? ry (fst sw) + rh (fst sw)) = true).
  { apply leb_le. rewrite D2. lra. }
  assert (Ev : (0 <? vy (RUN g6)) = true) by (apply ltb_lt; exact Hpos).
  rewrite Et, Ev in Pp, Py, Po. cbn [andb orb] in Pp, Py, Po.
  rewrite Pp, Py, Po.
  destruct (tick_vertical_fields (t_dt i) g6)
    as (_ & _ & _ & _ & _ & _ & _ & [[Eo _]|[_ Ez]]); [congruence|].
  rewrite Ez. cbn [ry rh set_ry].
  repeat split; try reflexivity. ring.
Qed.

(** Resting on a platform is reported as airborne after a short tick: a
    tick that starts at rest ([vy = 0], whole position) above the
    ground line, executes no jump and is so short that gravity moves
    the float position by less than a pixel ([GRAVITY * dt * dt < 1],
    that is 46 frames a second or more) leaves the rectangle where it
    was, and since [colliderect] is strict the sweep reports no landing:
    the tick ends with [on_ground = false] and [vy = GRAVITY * dt]. *)
Theorem platform_rest_flickers (i : TickInput) (g : World) :
  jump_fires i g = false ->
  vy (RUN g) == 0 ->
  0 < t_dt i ->
  GRAVITY * t_dt i * t_dt i < 1 ->
  whole (py (RUN g)) ->
  ry (player (RUN g)) = py (RUN g) ->
  ry (player (RUN g)) + rh (player (RUN g)) < GROUND_Y ->
  let r' := RUN (playUpdate i g) in
  on_ground r' = false /\
  ry (player r') = ry (player (RUN g)) /\
  vy r' == GRAVITY * t_dt i.
Proof.
  intros Hf Hv Hdt Hshort Hw Hy Hb. cbv zeta.
  destruct (tick_idle_entry i g Hf ltac:(lra) Hdt) as (Ev & Hpos & Ep & Ey).
  cbv zeta in Ev, Hpos, Ep, Ey.
  destruct (body_eq _ _ (playUpdate_body i g))
    as (_ & -> & -> & _ & _ & _ & _ & -> & _).
  rewrite tick_kinematics_eq.
  set (g6 := tick_jump_cut (t_jumpReleased i) (tick_launch i g)) in *.
  assert (Hg : 0 < GRAVITY * t_dt i)
    by (apply Qmult_lt_0_compat; [reflexivity|lra]).
  assert (Hsmall : GRAVITY * t_dt i < 1500).
  { destruct (Qlt_le_dec (t_dt i) 1) as [Hlt|Hge].
    - unfold GRAVITY in *. nra.
    - assert (GRAVITY * t_dt i * 1 <= GRAVITY * t_dt i * t_dt i).
      { apply Qmult_le_l; [exact Hg | exact Hge]. }
      unfold GRAVITY in *. lra. }
  assert (Evy : vy (RUN g6) == GRAVITY * t_dt i).
  { rewrite Ev. rewrite clamp_id; unfold MAX_FALL_V; lra. }
  assert (Hdy0 : 0 < vy (RUN g6) * t_dt i) by (apply Qmult_lt_0_compat; lra).
  assert (Hdy1 : vy (RUN g6) * t_dt i < 1).
  { assert (E : vy (RUN g6) * t_dt i == GRAVITY * t_dt i * t_dt i)
      by (rewrite Evy; reflexivity).
    lra. }
  destruct (tick_vertical_player (t_dt i) g6) as (Pp & _ & Po).
  cbv zeta in Pp, Po.
  set (pl0 := set_rx (player (RUN g6)) (floor (cam_x (RUN g6) + 160))) in *.
  destruct (sweep_short_fall pl0 (py (RUN g6)) (vy (RUN g6) * t_dt i)
              (platforms (RUN g6))) as (S1 & S2 & _); try assumption.
  - rewrite Ey. exact Hw.
  - change (ry pl0) with (ry (player (RUN g6))). rewrite Ep, Ey. exact Hy.
  - cbv zeta in S1, S2.
    set (sw := collideVerticalSweep _ _ _ _) in *.
    assert (Et : (GROUND_Y <=? ry (fst sw) + rh (fst sw)) = false).
    { apply leb_gt. rewrite S1.
      change (ry pl0) with (ry (player (RUN g6))).
      change (rh pl0) with (rh (player (RUN g6))). rewrite Ep. exact Hb. }
    rewrite Et, S2 in Po. rewrite Et in Pp. cbn [andb orb negb] in Pp, Po.
    rewrite Pp, Po, S1.
    change (ry pl0) with (ry (player (RUN g6))). rewrite Ep.
    destruct (tick_vertical_fields (t_dt i) g6)
      as (_ & _ & _ & _ & _ & _ & _ & [[_ Ez]|[Eo _]]); [|congruence].
    rewrite Ez. repeat split; try reflexivity. exact Evy.
Qed.
End Standing.

Lemma ground_line_is_solid_at_start :
  on_ground (RUN (playUpdate (tick_idle (1 # 60)) world_play)) = true /\
  vy (RUN (playUpdate (tick_idle (1 # 60)) world_play)) = 0.0.
Proof.
  destruct (ground_line_is_solid (tick_idle (1 # 60)) world_play)
    as (A & B & _).
  - vm_compute. reflexivity.
  - discriminate.
  - reflexivity.
  - reflexivity.
  - discriminate.
  - split; [exact A | exact B].
Defined.

Lemma platform_rest_flickers_on_platform :
  on_ground (RUN (playUpdate (tick_idle (1 # 60)) world_at_spike)) = false /\
  ry (player (RUN (playUpdate (tick_idle (1 # 60)) world_at_spike)))
  = ry (player (RUN world_at_spike)).
Proof.
  destruct (platform_rest_flickers (tick_idle (1 # 60)) world_at_spike)
    as (A & B & _).
  - vm_compute. reflexivity.
  - reflexivity.
  - reflexivity.
  - reflexivity.
  - now exists 378%Z.
  - reflexivity.
  - reflexivity.
  - split; [exact A | exact B].
Defined.

(** ** The coin magnet *)

Lemma trunc_toward_zero (v : Q) :
  (0 <= v -> 0 <= trunc v <= v) /\ (v <= 0 -> v <= trunc v <= 0).
Proof.
  unfold trunc. destruct (v <? 0) eqn:E.
  - apply ltb_lt in E.
    pose proof (floor_le (- v)) as H1.
    assert (H2 : 0 <= floor (- v)).
    { change 0 with (inject_Z 0). rewrite <- (floor_inject 0).
      apply floor_mono. change (inject_Z 0) with 0. lra. }
    split; intros; lra.
  - apply ltb_ge in E.
    pose proof (floor_le v) as H1.
    assert (H2 : 0 <= floor v).
    { change 0 with (inject_Z 0) at 1. rewrite <- (floor_inject 0).
      apply floor_mono. change (inject_Z 0) with 0. lra. }
    split; intros; lra.
Qed.

Lemma whole_trunc (v : Q) : whole (trunc v).
Proof.
  unfold trunc. destruct (v <? 0); [|apply whole_floor].
  exists (- Qfloor (- v))%Z. unfold floor. now rewrite inject_Z_opp.
Qed.

Lemma pull_step (d k : Q) :
  0 <= k -> k <= 1 ->
  (0 <= d -> 0 <= d - trunc (d * k) <= d) /\
  (d <= 0 -> d <= d - trunc (d * k) <= 0).
Proof.
  intros K0 K1.
  destruct (trunc_toward_zero (d * k)) as [Tp Tn].
  split; intros Hd.
  - assert (0 <= d * k) by (apply Qmult_le_0_compat; lra).
    assert (0 <= d * (1 - k)) by (apply Qmult_le_0_compat; lra).
    assert (E : d * (1 - k) == d - d * k) by ring.
    specialize (Tp ltac:(assumption)). lra.
  - assert (0 <= (- d) * k) by (apply Qmult_le_0_compat; lra).
    assert (0 <= (- d) * (1 - k)) by (apply Qmult_le_0_compat; lra).
    assert (E1 : (- d) * k == - (d * k)) by ring.
    assert (E2 : (- d) * (1 - k) == - d + d * k) by ring.
    specialize (Tn ltac:(lra)). lra.
Qed.

Lemma trunc_far (v : Q) :
  (2 <= v -> 1 <= trunc v) /\ (v <= -2 -> trunc v <= -1) /\
  (Qabs v <= 1 # 2 -> trunc v == 0).
Proof.
  unfold trunc. destruct (v <? 0) eqn:E.
  - apply ltb_lt in E. pose proof (floor_lt (- v)) as Hlt.
    split; [intros; lra|]. split; [intros; lra|].
    intros Ha. assert (Hn : Qabs v == - v) by (apply Qabs_neg; lra).
    assert (F : floor (0 + - v) = 0).
    { apply floor_whole_frac; [now exists 0%Z | lra | lra]. }
    rewrite (floor_comp (- v) (0 + - v)) by ring. rewrite F. reflexivity.
  - apply ltb_ge in E. pose proof (floor_lt v) as Hlt.
    split; [intros; lra|]. split; [intros; lra|].
    intros Ha. assert (Hn : Qabs v == v) by (apply Qabs_pos; lra).
    assert (F : floor (0 + v) = 0).
    { apply floor_whole_frac; [now exists 0%Z | lra | lra]. }
    rewrite (floor_comp v (0 + v)) by ring. rewrite F. reflexivity.
Qed.

Lemma trunc_comp (u v : Q) : u == v -> trunc u = trunc v.
Proof.
  intros E. unfold trunc. rewrite (floor_comp _ _ E).
  assert (F : floor (- u) = floor (- v)) by (apply floor_comp; rewrite E; reflexivity).
  rewrite F.
  destruct (u <? 0) eqn:A, (v <? 0) eqn:B; try reflexivity.
  - apply ltb_lt in A. apply ltb_ge in B. lra.
  - apply ltb_ge in A. apply ltb_lt in B. lra.
Qed.

Section Magnet.
Context `{HostMath}.

(** The magnet pulls a coin that is in its range towards the player's
    centre, by whole pixels and never past it.  With
    [k = (magnetPx - dist) / magnetPx * dt * 2.8] and [dx] the
    horizontal offset from the coin's centre to the player's, the coin
    moves by [Math.trunc(dx * k)]: at least one pixel towards the
    player when [|dx * k| >= 2], not at all when [|dx * k| <= 1/2], and
    likewise vertically; a coin out of range ([dist <= 0.1] or
    [dist >= magnetPx]) is left where it is.  For [0 <= dt <= 0.05] the
    offsets between the two centres keep their sign and do not grow,
    and the coin keeps its size.  This holds for whatever [Math.hypot]
    returns. *)
Theorem magnet_pulls_toward_player (pl c : Rect) (magnetPx dt : Q) :
  0 <= dt -> dt <= 0.05 ->
  let c' := pull_coin pl magnetPx dt c in
  let dx := centerx pl - centerx c in
  let dy := centery pl - centery c in
  let dx' := centerx pl - centerx c' in
  let dy' := centery pl - centery c' in
  let dist := hypot dx dy in
  let k := (magnetPx - dist) / magnetPx * dt * 2.8 in
  (~ (0.1 < dist /\ dist < magnetPx) -> c' = c) /\
  (0.1 < dist -> dist < magnetPx ->
     (2 <= dx * k -> rx c + 1 <= rx c') /\
     (dx * k <= -2 -> rx c' <= rx c - 1) /\
     (2 <= dy * k -> ry c + 1 <= ry c') /\
     (dy * k <= -2 -> ry c' <= ry c - 1) /\
     (Qabs (dx * k) <= 1 # 2 -> rx c' == rx c) /\
     (Qabs (dy * k) <= 1 # 2 -> ry c' == ry c)) /\
  rw c' = rw c /\ rh c' = rh c /\
  (exists zx zy : Z,
     rx c' == rx c + inject_Z zx /\ ry c' == ry c + inject_Z zy) /\
  (0 <= dx -> 0 <= dx' <= dx) /\ (dx <= 0 -> dx <= dx' <= 0) /\
  (0 <= dy -> 0 <= dy' <= dy) /\ (dy <= 0 -> dy <= dy' <= 0).
Proof.
  intros Hdt0 Hdt1. cbv zeta. unfold pull_coin. cbv zeta.
  set (dx := centerx pl - centerx c). set (dy := centery pl - centery c).
  set (dist := hypot dx dy).
  destruct ((0.1 <? dist) && (dist <? magnetPx)) eqn:E.
  - apply andb_true_iff in E. destruct E as [E1 E2].
    apply ltb_lt in E1. apply ltb_lt in E2.
    set (pull := (magnetPx - dist) / magnetPx).
    assert (Hm : 0 < magnetPx) by lra.
    assert (Hp0 : 0 <= pull).
    { unfold pull. apply Qle_shift_div_l; [exact Hm | lra]. }
    assert (Hp1 : pull <= 1).
    { unfold pull. apply Qle_shift_div_r; [exact Hm | lra]. }
    set (k := pull * dt * 2.8).
    assert (K0 : 0 <= k).
    { unfold k. apply Qmult_le_0_compat; [|discriminate].
      apply Qmult_le_0_compat; assumption. }
    assert (K1 : k <= 1).
    { unfold k.
      assert (A : pull * dt <= 1 * dt) by (apply Qmult_le_compat_r; assumption).
      lra. }
    assert (Tx : trunc (dx * pull * dt * 2.8) = trunc (dx * k))
      by (apply trunc_comp; unfold k; ring).
    assert (Ty : trunc (dy * pull * dt * 2.8) = trunc (dy * k))
      by (apply trunc_comp; unfold k; ring).
    rewrite Tx, Ty.
    cbn [rx ry rw rh set_rx set_ry].
    destruct (pull_step dx k K0 K1) as [Xp Xn].
    destruct (pull_step dy k K0 K1) as [Yp Yn].
    destruct (trunc_far (dx * k)) as (Fx1 & Fx2 & Fx3).
    destruct (trunc_far (dy * k)) as (Fy1 & Fy2 & Fy3).
    unfold centerx, centery in *. cbn [rx ry rw rh set_rx set_ry].
    split; [intros Hn; exfalso; apply Hn; split; assumption|].
    split.
    { intros _ _.
      split; [intros Hs; specialize (Fx1 Hs); lra|].
      split; [intros Hs; specialize (Fx2 Hs); lra|].
      split; [intros Hs; specialize (Fy1 Hs); lra|].
      split; [intros Hs; specialize (Fy2 Hs); lra|].
      split; [intros Hs; specialize (Fx3 Hs); lra|].
      intros Hs; specialize (Fy3 Hs); lra. }
    split; [reflexivity|]. split; [reflexivity|].
    split.
    { destruct (whole_trunc (dx * k)) as [zx Hx].
      destruct (whole_trunc (dy * k)) as [zy Hy].
      exists zx, zy. rewrite Hx, Hy. split; reflexivity. }
    fold dx dy.
    assert (Cx : rx pl + rw pl / 2 - (rx c + trunc (dx * k) + rw c / 2)
                 == dx - trunc (dx * k)) by (unfold dx, centerx; ring).
    assert (Cy : ry pl + rh pl / 2 - (ry c + trunc (dy * k) + rh c / 2)
                 == dy - trunc (dy * k)) by (unfold dy, centery; ring).
    split; [|split; [|split]]; intros Hs;
      [specialize (Xp Hs) | specialize (Xn Hs)
      | specialize (Yp Hs) | specialize (Yn Hs)]; lra.
  - apply andb_false_iff in E.
    split; [intros _; reflexivity|].
    split.
    { intros E1 E2. exfalso. destruct E as [E|E]; apply ltb_ge in E; lra. }
    unfold dx, dy.
    split; [reflexivity|]. split; [reflexivity|].
    split.
    { exists 0%Z, 0%Z. change (inject_Z 0) with 0. split; ring. }
    repeat split; intros; lra.
Qed.
End Magnet.

Lemma magnet_pulls_toward_player_example :
  let c' := pull_coin (rect 160 378 44 58) 156 (1 # 20) (rect 273 398 18 18) in
  rx c' <= 273 - 1 /\ rw c' = 18 /\ rh c' = 18.
Proof.
  destruct (magnet_pulls_toward_player (rect 160 378 44 58) (rect 273 398 18 18)
              156 (1 # 20)) as (_ & Hin & A & B & _).
  - discriminate.
  - discriminate.
  - destruct Hin as (_ & Hleft & _); [reflexivity | reflexivity |].
    split; [apply Hleft; vm_compute; discriminate|].
    split; [exact A | exact B].
Defined.

(** The coin of the example is 100 pixels to the right of the player's
    centre and is pulled 5 pixels to the left. *)
Example magnet_moves_coin_five_pixels :
  rx (pull_coin (rect 160 378 44 58) 156 (1 # 20) (rect 273 398 18 18)) == 268.
Proof. vm_compute. reflexivity. Qed.

(* ================================================================== *)
(** * The shop, the star field generator and the Phaser build *)
(* ================================================================== *)

Lemma level_of_set_level (key key' : UpgradeKey) (v : Q) (u : Upgrades) :
  level_of key' (set_level key v u)
  = if match key, key' with
       | K_jump, K_jump | K_coyote, K_coyote
       | K_coin_mult, K_coin_mult | K_magnet, K_magnet => true
       | _, _ => false
       end
    then v else level_of key' u.
Proof. destruct key, key'; reflexivity. Qed.

Lemma buyUpgrade_cases (key : UpgradeKey) (g : World) :
  let level := level_of key (upgrades (SAVE g)) in
  let cost := upgradeCost key level in
  (level < 6 /\ cost <= money (SAVE g) /\
   money (SAVE (buyUpgrade key g)) = money (SAVE g) - cost /\
   upgrades (SAVE (buyUpgrade key g)) = set_level key (level + 1) (upgrades (SAVE g)) /\
   best_score (SAVE (buyUpgrade key g)) = best_score (SAVE g) /\
   sfx_log (buyUpgrade key g) = SfxClick :: sfx_log g /\
   RUN (buyUpgrade key g) = RUN g /\ mode (buyUpgrade key g) = mode g) \/
  ((6 <= level \/ money (SAVE g) < cost) /\ buyUpgrade key g = g).
Proof.
  cbv zeta. unfold buyUpgrade. cbv zeta.
  assert (Em : u_max (UPGRADES key) = 6) by (destruct key; reflexivity).
  rewrite Em.
  destruct (6 <=? level_of key (upgrades (SAVE g))) eqn:E1.
  - right. apply leb_le in E1. auto.
  - apply leb_gt in E1.
    destruct (upgradeCost key (level_of key (upgrades (SAVE g))) <=? money (SAVE g))
      eqn:E2.
    + left. apply leb_le in E2. repeat split; try assumption; reflexivity.
    + right. apply leb_gt in E2. auto.
Qed.

Lemma upgradeCost_pos (key : UpgradeKey) (level : Q) :
  0 <= level -> 0 < upgradeCost key level.
Proof.
  intros Hl. unfold upgradeCost.
  assert (0 <= cost_step (UPGRADES key) * level)
    by (apply Qmult_le_0_compat; [destruct key; discriminate | exact Hl]).
  assert (0 < base_cost (UPGRADES key)) by (destruct key; reflexivity).
  lra.
Qed.

Lemma whole_succ_le (l : Q) (m : Z) :
  whole l -> l < inject_Z m -> whole (l + 1) /\ l + 1 <= inject_Z m.
Proof.
  intros [z ->] Hlt. split.
  - apply whole_plus; [apply whole_inject | apply (whole_inject 1)].
  - rewrite <- Zlt_Qlt in Hlt. change 1 with (inject_Z 1).
    rewrite <- inject_Z_plus, <- Zle_Qle. lia.
Qed.

Lemma buyUpgrade_save_ok (key : UpgradeKey) (g : World) :
  save_ok (SAVE g) ->
  save_ok (SAVE (buyUpgrade key g)) /\
  money (SAVE (buyUpgrade key g)) <= money (SAVE g) /\
  RUN (buyUpgrade key g) = RUN g /\
  best_score (SAVE (buyUpgrade key g)) = best_score (SAVE g).
Proof.
  intros [Hl Hm].
  destruct (buyUpgrade_cases key g)
    as [(H1 & H2 & Em & Eu & Eb & _ & Er & _)|[_ ->]]; cbv zeta in *.
  - destruct (Hl key) as [Hw [H0 _]].
    pose proof (upgradeCost_pos key _ H0) as Hc.
    split; [|split; [|split; assumption]].
    + split.
      * intros key'. rewrite Eu, level_of_set_level.
        destruct (match key, key' with
                  | K_jump, K_jump | K_coyote, K_coyote
                  | K_coin_mult, K_coin_mult | K_magnet, K_magnet => true
                  | _, _ => false
                  end); [|apply Hl].
        destruct (whole_succ_le _ 6 Hw H1) as [A B].
        split; [exact A|]. unfold level_ok, UPGRADE_MAX.
        change (inject_Z 6) with 6 in B. lra.
      * rewrite Em. lra.
    + rewrite Em. lra.
  - split; [split; assumption|]. split; [lra|]. split; reflexivity.
Qed.

Lemma defaultSaveData_ok : save_ok defaultSaveData.
Proof.
  split; [|discriminate].
  intros key. destruct key; (split; [now exists 0%Z | split; discriminate]).
Qed.

Lemma save_ok_upgrades_ok (s : Save) : save_ok s -> upgrades_ok (upgrades s).
Proof.
  intros [Hl _].
  repeat split;
    first [apply (Hl K_jump) | apply (Hl K_coyote)
          | apply (Hl K_coin_mult) | apply (Hl K_magnet)].
Qed.

(** Whatever is bought in the shop, in whatever order, every upgrade
    level stays a whole number of [0..6] and the money never goes
    negative or up; the run in progress and the best score are not
    touched; and the next run gets parameters of admissible levels. *)
Theorem shop_keeps_save_ok (keys : list UpgradeKey) (g : World) :
  save_ok (SAVE g) ->
  save_ok (SAVE (buy_all keys g)) /\
  money (SAVE (buy_all keys g)) <= money (SAVE g) /\
  RUN (buy_all keys g) = RUN g /\
  best_score (SAVE (buy_all keys g)) = best_score (SAVE g) /\
  run_params_ok (newRunState (SAVE (buy_all keys g))).
Proof.
  intros Hs.
  assert (Hmain : save_ok (SAVE (buy_all keys g)) /\
                  money (SAVE (buy_all keys g)) <= money (SAVE g) /\
                  RUN (buy_all keys g) = RUN g /\
                  best_score (SAVE (buy_all keys g)) = best_score (SAVE g)).
  { unfold buy_all. revert g Hs.
    induction keys as [|key rest IH]; intros g Hs; cbn [fold_left].
    - repeat split; try reflexivity; try apply Hs. lra.
    - destruct (buyUpgrade_save_ok key g Hs) as (A1 & A2 & A3 & A4).
      destruct (IH (buyUpgrade key g) A1) as (B1 & B2 & B3 & B4).
      split; [exact B1|]. split; [lra|]. split; congruence. }
  destruct Hmain as (A & B & C & D).
  split; [exact A|]. split; [exact B|]. split; [exact C|]. split; [exact D|].
  apply newRunState_params_ok, save_ok_upgrades_ok, A.
Qed.

Lemma shop_keeps_save_ok_fresh_save :
  save_ok (SAVE (buy_all [K_jump; K_magnet; K_jump] world_menu)) /\
  money (SAVE (buy_all [K_jump; K_magnet; K_jump] world_menu))
    <= money (SAVE world_menu).
Proof.
  destruct (shop_keeps_save_ok [K_jump; K_magnet; K_jump] world_menu)
    as (A & B & _).
  - exact defaultSaveData_ok.
  - split; [exact A | exact B].
Defined.

(** ** [makeLCG] *)

Lemma to_uint32_range (x : Z) : (0 <= to_uint32 x < 4294967296)%Z.
Proof. unfold to_uint32. apply Z.mod_pos_bound. reflexivity. Qed.

Lemma lcg_state_range (seed : Z) (n : nat) :
  (0 <= lcg_state seed n < 4294967296)%Z.
Proof. destruct n; cbn [lcg_state]; apply to_uint32_range. Qed.

(** Every state of the generator is a 32-bit unsigned integer, the
    number it multiplies and adds up before [>>> 0] stays below
    [2^53], so that the double arithmetic is exact, and every value it
    returns lies in [0, 1). *)
Theorem lcg_stays_exact (seed : Z) (n : nat) :
  (0 <= lcg_state seed n < 2 ^ 32)%Z /\
  (0 <= 1664525 * lcg_state seed n + 1013904223 < 2 ^ 53)%Z /\
  0 <= lcg_call seed n /\ lcg_call seed n < 1.
Proof.
  pose proof (lcg_state_range seed n) as Hr.
  change (2 ^ 32)%Z with 4294967296%Z. change (2 ^ 53)%Z with 9007199254740992%Z.
  split; [exact Hr|]. split; [lia|].
  unfold lcg_call.
  assert (H0 : 0 <= inject_Z (lcg_state seed n))
    by (change 0 with (inject_Z 0); rewrite <- Zle_Qle; lia).
  assert (H1 : inject_Z (lcg_state seed n) < 4294967296)
    by (change 4294967296 with (inject_Z 4294967296); rewrite <- Zlt_Qlt; lia).
  split.
  - apply Qle_shift_div_l; [reflexivity | lra].
  - apply Qlt_shift_div_r; [reflexivity | lra].
Qed.

(** The step of the generator is one to one on the 32-bit states: two
    different states never lead to the same next state, so that the
    sequence never runs into a cycle that leaves its seed out. *)
Theorem lcg_step_injective (s1 s2 : Z) :
  (0 <= s1 < 4294967296)%Z -> (0 <= s2 < 4294967296)%Z ->
  lcg_step s1 = lcg_step s2 -> s1 = s2.
Proof.
  intros H1 H2 E. unfold lcg_step, to_uint32 in E.
  assert (Hd : (4294967296 | 1664525 * (s1 - s2))%Z).
  { apply Z.mod_divide; [discriminate|].
    replace (1664525 * (s1 - s2))%Z
      with ((1664525 * s1 + 1013904223) - (1664525 * s2 + 1013904223))%Z by ring.
    rewrite Zminus_mod, E, Z.sub_diag. reflexivity. }
  assert (Hg : Z.gcd 4294967296 1664525 = 1%Z) by reflexivity.
  apply Z.gauss in Hd; [|exact Hg].
  destruct Hd as [k Hk]. nia.
Qed.

Lemma lcg_step_injective_example : lcg_state 1 1 = 1015568748%Z.
Proof.
  apply (lcg_step_injective (lcg_state 1 1) 1015568748).
  - split; [discriminate | reflexivity].
  - split; [discriminate | reflexivity].
  - reflexivity.
Defined.

(** ** The Phaser build *)

(** [die()] of the Phaser build pays out once: in play mode it adds
    the coins of the run to the money, raises the best score to the
    score and leaves play mode; called again, or in any other mode, it
    changes nothing. *)
Theorem phaser_die_pays_once (s : Phaser.Scene) :
  Phaser.die (Phaser.die s) = Phaser.die s /\
  (Phaser.s_mode s = Phaser.play ->
     Phaser.s_money (Phaser.die s) = Phaser.s_money s + Phaser.s_coinsRun s /\
     Phaser.s_best (Phaser.die s) = Qmax (Phaser.s_best s) (Phaser.s_score s) /\
     Phaser.s_mode (Phaser.die s) = Phaser.dead) /\
  (Phaser.s_mode s <> Phaser.play -> Phaser.die s = s).
Proof.
  unfold Phaser.die.
  destruct s as [m p mo b c sc]. cbn [Phaser.s_mode].
  destruct m; repeat split; try reflexivity; try discriminate; congruence.
Qed.

(** The one-way rule of the Phaser build accepts every landing that the
    sweep of the canvas build accepts: a player that is not rising and
    whose previous bottom was at or above the platform's top passes
    [oneWayProcess]. *)
Theorem phaser_rule_admits_sweep_landings (pl p : Rect) (prev_y velocity_y : Q) :
  lands_on pl (prev_y + rh pl) p = true ->
  0 <= velocity_y ->
  Phaser.oneWayProcess velocity_y prev_y (rh pl) (ry p) = true.
Proof.
  unfold lands_on, Phaser.oneWayProcess. intros Hl Hv.
  apply andb_true_iff in Hl. destruct Hl as [_ Hl]. apply leb_le in Hl.
  assert (E : (velocity_y <? 0) = false) by (apply ltb_ge; exact Hv).
  rewrite E. cbv zeta. apply leb_le. lra.
Qed.

Lemma phaser_rule_admits_sweep_landings_example :
  Phaser.oneWayProcess 100 370 58 436 = true.
Proof.
  apply (phaser_rule_admits_sweep_landings (rect 160 380 44 58)
           (rect 0 436 400 24) 370 100); [reflexivity | discriminate].
Defined.

(** The converse fails: [oneWayProcess] also accepts a previous bottom
    up to 3 pixels inside the platform, which the sweep refuses. *)
Lemma phaser_rule_is_wider :
  Phaser.oneWayProcess 100 380 58 436 = true /\
  lands_on (rect 160 390 44 58) (380 + 58) (rect 0 436 400 24) = false.
Proof. split; reflexivity. Qed.
